(** * Syncthing file set, node identifiers and walker: a shallow embedding

    The development follows the Go packages of the repository:
    [lamport] (logical clock), [protocol] (flag helpers, node identifiers),
    [scanner] (file records, walker) and [files] (the in-memory file set).
    Unsigned Go integers are held in [Z]; Go maps are [gmap]s; the two
    64-slot arrays of a set are lists indexed with stdpp's lookup. *)

From Stdlib Require Import ZArith Lia Ascii.
From Stdlib Require String.
From stdpp Require Import base decidable option list gmap strings fin_maps countable.

#[local] Open Scope Z_scope.

(** ** Outcomes of calls that may stop the program *)

Inductive failure : Type :=
  | ConnectionIDRange     (* panic("Connection ID must be in the range 0 - 63 inclusive") *)
  | UpdateBeforeReplace   (* l.Fatalln("update before replace for cid", cid) *)
  | IndexOutOfRange.      (* run-time panic of an array index above 63 *)

Inductive result (A : Type) : Type :=
  | Done (a : A)
  | Stop (e : failure).
Arguments Done {A} a.
Arguments Stop {A} e.

Definition u64 (z : Z) : Z := z mod 2 ^ 64.

(** ** Package lamport *)

Module lamport.

(** Modelled from the spec: the logical clock is not under src/.  Section
    4.1: a process-wide counter [v]; [Tick(observed)] returns
    [max(v, observed) + 1] and assigns that to [v].  The state of the
    clock is threaded explicitly. *)
Definition Clock : Type := Z.

Definition Tick (c : Clock) (observed : Z) : Z * Clock :=
  let v := Z.max c observed + 1 in (v, v).

End lamport.

(** ** Package protocol: flag helpers *)

Module protocol.

Section Flags.
(** The flag constants of the protocol package are declared outside
    src/; the Deleted bit is a parameter of the development. *)
Variable FlagDeleted : Z.

(** Modelled from the spec: helper [IsDeleted(flags)] of section 6, the
    test of the Deleted bit of a flag word. *)
Definition IsDeleted (bits : Z) : bool := negb (Z.land bits FlagDeleted =? 0).

Variable FlagDirectory : Z.
Variable FlagNoPermBits : Z.

(** Modelled from the spec: helpers [IsDirectory(flags)] and
    [HasPermissionBits(flags)] of section 6; permission bits are there
    unless the NoPermBits flag says otherwise. *)
Definition IsDirectory (bits : Z) : bool := negb (Z.land bits FlagDirectory =? 0).
Definition HasPermissionBits (bits : Z) : bool := Z.land bits FlagNoPermBits =? 0.
End Flags.

(** *** Go byte strings and the library calls of the node identifier *)

(** A Go string is a sequence of bytes; the strings met here are ASCII. *)
Abbreviation gostring := (list ascii).

Definition str (s : string) : gostring := String.list_ascii_of_string s.

Fixpoint trimLeft (c : ascii) (s : gostring) : gostring :=
  match s with
  | x :: rest => if decide (x = c) then trimLeft c rest else s
  | [] => []
  end.

(** [strings.Trim(s, cutset)] for a cutset of one character. *)
Definition Trim (c : ascii) (s : gostring) : gostring :=
  reverse (trimLeft c (reverse (trimLeft c s))).

Definition upper (c : ascii) : ascii :=
  let n := nat_of_ascii c in
  if (97 <=? n)%nat && (n <=? 122)%nat then ascii_of_nat (n - 32) else c.

Definition lower (c : ascii) : ascii :=
  let n := nat_of_ascii c in
  if (65 <=? n)%nat && (n <=? 90)%nat then ascii_of_nat (n + 32) else c.

(** [strings.ToUpper] and [strings.ToLower] on an ASCII string. *)
Definition ToUpper (s : gostring) : gostring := upper <$> s.
Definition ToLower (s : gostring) : gostring := lower <$> s.

(** [strings.Replace(s, old, "", -1)] for an [old] of one character. *)
Definition Remove (c : ascii) (s : gostring) : gostring := filter (λ x, x ≠ c) s.

(** The alphabet of [base32.StdEncoding] (RFC 4648), padded with '='. *)
Definition encodeStd : gostring := str "ABCDEFGHIJKLMNOPQRSTUVWXYZ234567".

Definition b32char (v : Z) : ascii := nth (Z.to_nat (Z.land v 31)) encodeStd "A"%char.

(** One quantum of the encoder: up to five bytes give eight characters,
    of which 2, 4, 5, 7 or 8 carry data. *)
Definition quantum (q : list Z) : gostring :=
  let b i := Z.land (nth i q 0) 255 in
  let v := Z.shiftl (b 0%nat) 32 + Z.shiftl (b 1%nat) 24 + Z.shiftl (b 2%nat) 16
           + Z.shiftl (b 3%nat) 8 + b 4%nat in
  let chars := (λ k, b32char (Z.shiftr v (35 - 5 * k))) <$> [0; 1; 2; 3; 4; 5; 6; 7] in
  let keep := match length q with
              | 1 => 2 | 2 => 4 | 3 => 5 | 4 => 7 | _ => 8
              end%nat in
  take keep chars ++ replicate (8 - keep) "="%char.

Fixpoint encode (fuel : nat) (src : list Z) : gostring :=
  match fuel with
  | O => []
  | S fuel' =>
      match src with
      | [] => []
      | _ => quantum (take 5 src) ++ encode fuel' (drop 5 src)
      end
  end.

(** [base32.StdEncoding.EncodeToString] *)
Definition EncodeToString (src : list Z) : gostring := encode (length src) src.

Fixpoint index_of (c : ascii) (l : gostring) (i : Z) : option Z :=
  match l with
  | [] => None
  | x :: rest => if decide (x = c) then Some i else index_of c rest (i + 1)
  end.

Definition decodeMap (c : ascii) : option Z := index_of c encodeStd 0.

Definition u8 (z : Z) : Z := Z.land z 255.

(** The bytes of a quantum of [dlen] decoded characters. *)
Definition unpack (dlen : nat) (dbuf : list Z) : list Z :=
  let d i := nth i dbuf 0 in
  let bytes :=
    [u8 (Z.lor (Z.shiftl (d 0%nat) 3) (Z.shiftr (d 1%nat) 2));
     u8 (Z.lor (Z.lor (Z.shiftl (d 1%nat) 6) (Z.shiftl (d 2%nat) 1)) (Z.shiftr (d 3%nat) 4));
     u8 (Z.lor (Z.shiftl (d 3%nat) 4) (Z.shiftr (d 4%nat) 1));
     u8 (Z.lor (Z.lor (Z.shiftl (d 4%nat) 7) (Z.shiftl (d 5%nat) 2)) (Z.shiftr (d 6%nat) 3));
     u8 (Z.lor (Z.shiftl (d 6%nat) 5) (d 7%nat))] in
  take (match dlen with
        | 8 => 5 | 7 => 4 | 5 => 3 | 4 => 2 | 2 => 1 | _ => 0
        end)%nat bytes.

Inductive parse_error : Type :=
  | CorruptInput      (* base32.CorruptInputError *)
  | IncorrectLength   (* "node ID invalid: incorrect length" *)
  | IncorrectCheck.   (* "node ID invalid: incorrect check characters" *)

(** The decoding loop of [base32.StdEncoding]: [j] characters of the
    current quantum are in [dbuf], [out] is what is decoded so far.  A
    string that ends inside a quantum lacks its padding and is corrupt. *)
Fixpoint decode (src : gostring) (j : nat) (dbuf : list Z) (out : list Z)
    : list Z + parse_error :=
  match src with
  | [] => match j with O => inl out | _ => inr CorruptInput end
  | c :: rest =>
      if bool_decide (c = "="%char) && (2 <=? j)%nat && (length rest <? 8)%nat then
        if (length rest + j <? 7)%nat then inr CorruptInput
        else if negb (forallb (λ x, bool_decide (x = "="%char)) (take (7 - j) rest))
        then inr CorruptInput
        else if bool_decide (j = 3%nat ∨ j = 6%nat) then inr CorruptInput
        else inl (out ++ unpack j dbuf)
      else
        match decodeMap c with
        | None => inr CorruptInput
        | Some v =>
            if (j =? 7)%nat then decode rest 0 [] (out ++ unpack 8 (dbuf ++ [v]))
            else decode rest (S j) (dbuf ++ [v]) out
        end
  end.

Definition newline (c : ascii) : Prop := c = "010"%char ∨ c = "013"%char.

#[global] Instance newline_dec c : Decision (newline c).
Proof. unfold newline. apply _. Defined.

(** [base32.StdEncoding.DecodeString]: line breaks are dropped first. *)
Definition DecodeString (s : gostring) : list Z + parse_error :=
  decode (filter (λ c, ¬ newline c) s) 0 [] [].

(** [regexp.MustCompile("(.{9})").ReplaceAllString(id, "$1-")]: a hyphen
    after every run of nine characters that holds no line feed. *)
Fixpoint group9 (fuel : nat) (s : gostring) : gostring :=
  match fuel with
  | O => s
  | S fuel' =>
      if (9 <=? length s)%nat && forallb (λ c, negb (bool_decide (c = "010"%char))) (take 9 s)
      then take 9 s ++ "-"%char :: group9 fuel' (drop 9 s)
      else match s with
           | [] => []
           | c :: rest => c :: group9 fuel' rest
           end
  end.

(** Modelled from the spec: the luhn package is not under src/.  Section
    4.2 names the check characters as Luhn mod 32; this is the Luhn mod N
    algorithm over the 32 characters of the base32 alphabet, the factor
    alternating between 1 and 2 from the first character on. *)
Definition luhn32 (s : gostring) : ascii :=
  let step (acc : Z * Z) (c : ascii) : Z * Z :=
    let '(factor, sum) := acc in
    let codepoint := default (-1) (decodeMap c) in
    let addend := factor * codepoint in
    (if factor =? 2 then 1 else 2, sum + addend / 32 + addend mod 32) in
  let sum := (foldl step (1, 0) s).2 in
  b32char ((32 - sum mod 32) mod 32).

(** A Go slice over an array whose contents are [base]: [len] bytes in
    use of [cap]. *)
Record slice : Type := mkSlice { base : list Z; slen : nat; scap : nat }.

(** [a[:]] and [a[:0]] of an array [a]. *)
Definition whole (a : list Z) : slice := mkSlice a (length a) (length a).
Definition front (a : list Z) : slice := mkSlice a 0 (length a).

(** [append(s, data...)]: the slice returned and the array of [s] after
    the call.  The data go into the array when the capacity allows, and
    into a fresh array otherwise. *)
Definition append (s : slice) (data : list Z) : slice * list Z :=
  if (slen s + length data <=? scap s)%nat then
    let a := take (slen s) (base s) ++ data ++ drop (slen s + length data) (base s) in
    (mkSlice a (slen s + length data) (scap s), a)
  else
    let a := take (slen s) (base s) ++ data in
    (mkSlice a (length a) (length a), base s).

(** [copy(dst, src)] into an array: as many bytes as both hold. *)
Definition copy (dst src : list Z) : list Z :=
  take (length dst) src ++ drop (length src) dst.

(** [bytes.Compare] *)
Fixpoint bytesCompare (a b : list Z) : Z :=
  match a, b with
  | [], [] => 0
  | [], _ :: _ => -1
  | _ :: _, [] => 1
  | x :: a', y :: b' => if x <? y then -1 else if y <? x then 1 else bytesCompare a' b'
  end.

(** *** Node identifiers (part_001) *)

Section NodeID.
(** [crypto/sha256]: the digest of a byte sequence. *)
Variable sha256 : list Z → list Z.
(** [luhn.Base32Trimmed.Generate], declared outside src/. *)
Variable Generate : gostring → ascii.

(** The zero value of [NodeID], an array of 32 bytes. *)
Definition zeroNodeID : list Z := replicate 32 0.

(** [func NewNodeID(rawCert []byte) NodeID]: [hf.Sum(b)] appends the
    digest to [b] and returns the slice; the result is dropped. *)
Definition NewNodeID (rawCert : list Z) : list Z :=
  let n := zeroNodeID in
  let hf := rawCert in
  let '(_, n') := append (whole n) (sha256 hf) in
  n'.

(** [func (n NodeID) String() string] *)
Definition String (n : list Z) : gostring :=
  let id := EncodeToString n in
  let id := Trim "="%char id in
  let id := ToUpper id in
  let id := Remove "-"%char id in
  let id := Remove " "%char id in
  let id := if (length id =? 54)%nat then take 26 id ++ take 26 (drop 27 id) else id in
  let p0 := take 26 id in
  let c0 := Generate p0 in
  let p1 := drop 26 id in
  let c1 := Generate p1 in
  let id := p0 ++ c0 :: p1 ++ [c1] in
  let id := group9 (length id) id in
  Trim "-"%char id.

(** [func (n NodeID) Compare(other NodeID) int] *)
Definition Compare (n other : list Z) : Z := bytesCompare n other.

(** [func (n NodeID) Equals(other NodeID) bool] *)
Definition Equals (n other : list Z) : bool := bytesCompare n other =? 0.

(** [func (n *NodeID) UnmarshalText(bs []byte) error]: the identifier
    after the call, and the error returned. *)
Definition UnmarshalText (n : list Z) (bs : gostring) : list Z * option parse_error :=
  let id := bs in
  let id := Trim "="%char id in
  let id := ToUpper id in
  let id := Remove "-"%char id in
  let id := Remove " "%char id in
  match DecodeString id with
  | inr e => (n, Some e)
  | inl dec =>
      let n' := copy n dec in
      if (length id =? 52)%nat then (n', None)
      else if (length id =? 54)%nat then
        let p0 := take 26 id in
        let c0 := Generate p0 in
        let p1 := take 26 (drop 27 id) in
        let c1 := Generate p1 in
        let correct := p0 ++ c0 :: p1 ++ [c1] in
        if decide (correct ≠ id) then (n', Some IncorrectCheck) else (n', None)
      else (n', Some IncorrectLength)
  end.

End NodeID.

End protocol.

(** ** Package scanner: file records *)

Module scanner.

Record Block : Type := mkBlock {
  Offset : Z;
  BSize : Z;
  Hash : list Z
}.

(** The fields are those the walker fills in (walk.go) and the set reads. *)
Record File : Type := mkFile {
  Name : string;
  Flags : Z;
  Modified : Z;
  Version : Z;
  Size : Z;
  Blocks : list Block;
  Suppressed : bool
}.

(** The zero value of the struct, what a Go map yields for a missing key. *)
Definition zeroFile : File := mkFile "" 0 0 0 0 [] false.

(** *** The walker (walk.go) *)

(** What [os.Lstat] tells of an entry: [os.FileInfo] with its mode word,
    modification time (Unix seconds) and size. *)
Record FileInfo : Type := mkInfo { Mode : Z; ModTime : Z; InfoSize : Z }.

(** Constants of package os. *)
Definition ModeDir : Z := Z.shiftl 1 31.
Definition ModeSymlink : Z := Z.shiftl 1 27.
Definition ModeDevice : Z := Z.shiftl 1 26.
Definition ModeNamedPipe : Z := Z.shiftl 1 25.
Definition ModeSocket : Z := Z.shiftl 1 24.
Definition ModeType : Z :=
  Z.lor ModeDir (Z.lor ModeSymlink (Z.lor ModeNamedPipe (Z.lor ModeSocket ModeDevice))).
Definition ModePerm : Z := 511.

Definition IsDir (i : FileInfo) : bool := negb (Z.land (Mode i) ModeDir =? 0).
Definition IsRegular (i : FileInfo) : bool := Z.land (Mode i) ModeType =? 0.

(** A file tree as the walk meets it: a file with its contents ([None]
    when it cannot be opened or read), a directory with its entries in the
    order [filepath.Walk] visits them ([None] when it cannot be listed), or
    an entry whose lstat fails. *)
#[warnings="-register-all"]
Inductive node : Type :=
  | Leaf (info : FileInfo) (content : option (list ascii))
  | Folder (info : FileInfo) (entries : option (list (string * node)))
  | Broken.

Definition info_of (nd : node) : option FileInfo :=
  match nd with
  | Leaf info _ | Folder info _ => Some info
  | Broken => None
  end.

Definition content_of (nd : node) : option (list ascii) :=
  match nd with
  | Leaf _ content => content
  | _ => None
  end.

(** What a [filepath.WalkFunc] of this file returns: nil or
    [filepath.SkipDir]. *)
Inductive action : Type := Continue | SkipDir.

Section Traverse.
Context {S : Type}.
(** The callback: the components of the path below the root, the entry,
    whether it is called with an error, and the state it updates. *)
Variable fn : list string → node → bool → S → S * action.

(** [filepath.Walk] below the root.  The flag returned tells the caller to
    leave the directory it is listing, as SkipDir from a file does. *)
Fixpoint walk (comps : list string) (nd : node) (s : S) : S * bool :=
  match nd with
  | Broken => ((fn comps nd true s).1, false)
  | Leaf _ _ =>
      let '(s1, a) := fn comps nd false s in
      (s1, match a with SkipDir => true | Continue => false end)
  | Folder _ entries =>
      let '(s1, a) := fn comps nd false s in
      match a with
      | SkipDir => (s1, false)
      | Continue =>
          match entries with
          | None => ((fn comps nd true s1).1, false)
          | Some es =>
              ((fix each (es : list (string * node)) (s : S) : S :=
                  match es with
                  | [] => s
                  | (name, child) :: rest =>
                      let '(s2, leave) := walk (comps ++ [name]) child s in
                      if leave then s2 else each rest s2
                  end) es s1, false)
          end
      end
  end.

(** [filepath.Walk(root, fn)] on a root that may be missing. *)
Definition filepathWalk (root : option node) (s : S) : S :=
  match root with
  | None => (fn [] Broken true s).1
  | Some nd => (walk [] nd s).1
  end.
End Traverse.

(** The path of an entry below the base directory, as [filepath.Rel]
    gives it. *)
Fixpoint join (comps : list string) : string :=
  match comps with
  | [] => ""
  | [c] => c
  | c :: rest => c +:+ "/" +:+ join rest
  end.

Definition rel (comps : list string) : string :=
  match comps with [] => "." | _ => join comps end.

(** [filepath.Split] of such a path: the directory with its trailing
    separator, and the last element. *)
Definition splitDir (comps : list string) : string :=
  match removelast comps with
  | [] => ""
  | d => join d +:+ "/"
  end.
Definition splitBase (comps : list string) : string :=
  match comps with [] => "." | _ => List.last comps "" end.

(** [filepath.Clean] of the directory part. *)
Definition cleanDir (comps : list string) : string := rel (removelast comps).

Inductive os : Type := linux | windows | darwin | otheros.

(** [type Walker struct]; the interfaces are held by the functions the
    walk calls, [None] for nil. *)
Record Walker : Type := mkWalker {
  BlockSize : Z;
  IgnoreFile : string;
  TempNamer : option (string → bool);
  CurrentFiler : option (string → File);
  Suppressor : option (string → FileInfo → bool * bool);
  IgnorePerms : bool
}.

Section Walk.
(** Flag constants of the protocol package, declared outside src/. *)
Variable FlagDeleted FlagDirectory FlagNoPermBits : Z.
(** [runtime.GOOS]. *)
Variable GOOS : os.
(** [norm.NFC.IsNormalString] and [filepath.Match] (false on a bad
    pattern), of the libraries. *)
Variable IsNormalString : string → bool.
Variable Match : string → string → bool.
(** The function [Blocks] of the package, declared outside src/: the
    blocks of a file read in pieces of the given size, [None] on a read
    error. *)
Variable BlocksOf : list ascii → Z → option (list Block).

(** [func PermsEqual(a, b uint32) bool] *)
Definition PermsEqual (a b : Z) : bool :=
  match GOOS with
  | windows => Z.land a 384 =? Z.land b 384
  | _ => Z.land a 511 =? Z.land b 511
  end.

Definition isSpace (c : ascii) : bool :=
  bool_decide (c ∈ [" "; "009"; "010"; "011"; "012"; "013"]%char).

Fixpoint dropSpace (s : list ascii) : list ascii :=
  match s with
  | c :: rest => if isSpace c then dropSpace rest else s
  | [] => []
  end.

(** [strings.TrimSpace] on ASCII. *)
Definition TrimSpace (s : list ascii) : list ascii :=
  reverse (dropSpace (reverse (dropSpace s))).

(** [bytes.Split(bs, "\n")] *)
Fixpoint splitLines (bs : list ascii) (cur : list ascii) : list (list ascii) :=
  match bs with
  | [] => [reverse cur]
  | c :: rest =>
      if bool_decide (c = "010"%char) then reverse cur :: splitLines rest []
      else splitLines rest (c :: cur)
  end.

(** The patterns of an ignore file (walk.go, lines 110-118); a file that
    cannot be read counts as empty. *)
Definition patternsOf (content : option (list ascii)) : list string :=
  omap (λ line, let l := TrimSpace line in
                match l with [] => None | _ => Some (String.string_of_list_ascii l) end)
       (splitLines (default [] content) []).

(** [func (w *Walker) loadIgnoreFiles(...)], the callback of the first
    pass. *)
Definition loadIgnoreFiles (w : Walker) (comps : list string) (nd : node) (err : bool)
    (ign : gmap string (list string)) : gmap string (list string) * action :=
  if err then (ign, Continue)
  else if decide (splitBase comps = IgnoreFile w) then
    (<[cleanDir comps := patternsOf (content_of nd)]> ign, Continue)
  else (ign, Continue).

(** [func (w *Walker) ignoreFile(patterns, file) bool] *)
Definition ignoreFile (patterns : gmap string (list string)) (comps : list string) : bool :=
  let first := splitDir comps in
  let last := splitBase comps in
  existsb (λ e : string * list string,
             (bool_decide (e.1 = ".") || bool_decide (e.1 = first)
              || String.prefix (e.1 +:+ "/") first)
             && existsb (λ pattern, Match pattern last) e.2)
          (map_to_list patterns).

Definition permUnchanged (w : Walker) (cf : File) (info : FileInfo) : bool :=
  IgnorePerms w || negb (protocol.HasPermissionBits FlagNoPermBits (Flags cf))
  || PermsEqual (Flags cf) (Mode info).

(** [func (w *Walker) walkAndHashFiles(...)], the callback of the second
    pass; the state is the list of files found and the clock. *)
Definition walkAndHashFiles (w : Walker) (ign : gmap string (list string))
    (comps : list string) (nd : node) (err : bool)
    (st : list File * lamport.Clock) : (list File * lamport.Clock) * action :=
  match err, info_of nd with
  | true, _ | _, None => (st, Continue)
  | false, Some info =>
      let rn := rel comps in
      if decide (rn = ".") then (st, Continue)
      else if match TempNamer w with Some isTemporary => isTemporary rn | None => false end
      then (st, Continue)
      else if bool_decide (splitBase comps = IgnoreFile w)
              || bool_decide (splitBase comps = ".stversions")
              || ignoreFile ign comps
      then (st, if IsDir info then SkipDir else Continue)
      else if match GOOS with linux | windows => negb (IsNormalString rn) | _ => false end
      then (st, Continue)
      else
        let '(res, c) := st in
        match (if IsDir info then CurrentFiler w else None) with
        | Some currentFile =>
            let cf := currentFile rn in
            if (Modified cf =? ModTime info)
               && protocol.IsDirectory FlagDirectory (Flags cf) && permUnchanged w cf info
            then ((res ++ [cf], c), Continue)
            else
              let flags :=
                if IgnorePerms w then Z.lor FlagDirectory (Z.lor FlagNoPermBits 511)
                else Z.lor FlagDirectory (Z.land (Mode info) ModePerm) in
              let '(v, c') := lamport.Tick c 0 in
              ((res ++ [mkFile rn flags (ModTime info) v 0 [] false], c'), Continue)
        | None =>
            if IsRegular info then
              let rescan :=
                match content_of nd with
                | None => (st, Continue)
                | Some bytes =>
                    match BlocksOf bytes (BlockSize w) with
                    | None => (st, Continue)
                    | Some blocks =>
                        let flags := if IgnorePerms w then Z.lor FlagNoPermBits 438
                                     else Z.land (Mode info) ModePerm in
                        let '(v, c') := lamport.Tick c 0 in
                        ((res ++ [mkFile rn flags (ModTime info) v (InfoSize info)
                                    blocks false], c'), Continue)
                    end
                end in
              match CurrentFiler w with
              | Some currentFile =>
                  let cf := currentFile rn in
                  if negb (protocol.IsDeleted FlagDeleted (Flags cf))
                     && (Modified cf =? ModTime info) && permUnchanged w cf info
                  then ((res ++ [cf], c), Continue)
                  else
                    match Suppressor w with
                    | Some suppress =>
                        let '(cur, prev) := suppress rn info in
                        if cur && negb prev then
                          ((res ++ [mkFile (Name cf) (Flags cf) (Modified cf)
                                      ((Version cf + 1) mod 2 ^ 64) (Size cf)
                                      (Blocks cf) true], c), Continue)
                        else rescan
                    | None => rescan
                    end
              | None => rescan
              end
            else (st, Continue)
        end
  end.

Inductive walk_error : Type :=
  | LstatFailed       (* the error of os.Lstat *)
  | NotADirectory.    (* errors.New(dir + ": not a directory") *)

(** [func checkDir(dir string) error] on what lstat finds at the base
    directory. *)
Definition checkDir (root : option node) : option walk_error :=
  match root ≫= info_of with
  | None => Some LstatFailed
  | Some info => if IsDir info then None else Some NotADirectory
  end.

(** The base directory at the four moments [Walk] looks at it; other
    processes may change the tree in between. *)
Record moments : Type := mkMoments {
  at_first_check : option node;
  at_ignore_pass : option node;
  at_hash_pass : option node;
  at_last_check : option node
}.

(** [func (w *Walker) Walk() (files []File, ignore map[string][]string,
    err error)]: the three results and the clock; a nil map is [None]. *)
Definition Walk (w : Walker) (fs : moments) (c : lamport.Clock)
    : (list File * option (gmap string (list string)) * option walk_error)
      * lamport.Clock :=
  match checkDir (at_first_check fs) with
  | Some e => (([], None, Some e), c)
  | None =>
      let ignore := filepathWalk (loadIgnoreFiles w) (at_ignore_pass fs) ∅ in
      let '(files, c') :=
        filepathWalk (walkAndHashFiles w ignore) (at_hash_pass fs) ([], c) in
      ((files, Some ignore, checkDir (at_last_check fs)), c')
  end.

(** [func (w *Walker) cleanTempFile(path, info, err) error] keeps the file
    or removes it; [CleanTempFiles] is left out with the file system
    writes. *)

End Walk.

End scanner.

(** ** Package files: the file set *)

Module files.

(** Modelled from the spec: the key type and its two helpers are not
    under src/.  Section 3: a key is the pair (name, version); section
    4.3: [keyFor(file) = (file.name, file.version)] and [a.newerThan(b)]
    is [a.version > b.version]. *)
Record key : Type := Key { Name : string; Version : Z }.

#[global] Instance key_eq_dec : EqDecision key.
Proof. solve_decision. Defined.

#[global] Instance key_countable : Countable key.
Proof.
  apply (inj_countable' (λ k, (Name k, Version k)) (λ p, Key p.1 p.2)).
  by intros [].
Defined.

Definition zeroKey : key := Key "" 0.

Definition keyFor (f : scanner.File) : key :=
  Key (scanner.Name f) (scanner.Version f).

Definition newerThan (a b : key) : bool := Version b <? Version a.

Record fileRecord : Type := mkRecord {
  File : scanner.File;
  Usage : Z;
  Global : bool
}.

Definition zeroRecord : fileRecord := mkRecord scanner.zeroFile 0 false.

(** [type Set struct]; the mutex, the repository name and the database
    handle play no part in the in-memory phase and are left out.  A slot
    of [remoteKey] is [None] while the Go map is nil. *)
Record FileSet : Type := mkSet {
  files : gmap key fileRecord;
  remoteKey : list (option (gmap string key));
  changes : list Z;
  globalAvailability : gmap string Z;
  globalKey : gmap string key;
  globalVersion : gmap string Z
}.

Definition NewSet : FileSet :=
  mkSet ∅ (replicate 64 None) (replicate 64 0) ∅ ∅ ∅.

(** Modelled from the spec: [cid.LocalID] is declared outside src/;
    section 3: slot LocalID is the integer 0. *)
Definition LocalID : nat := 0%nat.

(** Reading [m.remoteKey[i]]: a nil map reads as an empty one. *)
Definition peer (m : FileSet) (i : nat) : gmap string key :=
  match remoteKey m !! i with
  | Some (Some rem) => rem
  | _ => ∅
  end.

(** [1 << cid] at type bitset (uint64). *)
Definition bit (cid : nat) : Z := u64 (Z.shiftl 1 (Z.of_nat cid)).

Definition set_files fs (m : FileSet) : FileSet :=
  mkSet fs (remoteKey m) (changes m) (globalAvailability m) (globalKey m) (globalVersion m).
Definition set_remoteKey rk (m : FileSet) : FileSet :=
  mkSet (files m) rk (changes m) (globalAvailability m) (globalKey m) (globalVersion m).
Definition set_changes ch (m : FileSet) : FileSet :=
  mkSet (files m) (remoteKey m) ch (globalAvailability m) (globalKey m) (globalVersion m).
Definition set_global gk ga (m : FileSet) : FileSet :=
  mkSet (files m) (remoteKey m) (changes m) ga gk (globalVersion m).

(** [f := m.files[k]]: the zero record when the key is missing. *)
Definition getRecord (fs : gmap key fileRecord) (k : key) : fileRecord :=
  default zeroRecord (fs !! k).

Definition setGlobalFlag (b : bool) (k : key) (fs : gmap key fileRecord)
  : gmap key fileRecord :=
  let r := getRecord fs k in <[k := mkRecord (File r) (Usage r) b]> fs.

(** One turn of the loop of [update] (set.go, lines 363-404). *)
Definition update_one (cid : nat) (m : FileSet) (f : scanner.File) : FileSet :=
  let remFiles := peer m cid in
  let n := scanner.Name f in
  let fk := keyFor f in
  if decide (remFiles !! n = Some fk) then m
  else
    let rk' := <[cid := Some (<[n := fk]> remFiles)]> (remoteKey m) in
    let files1 :=
      match files m !! fk with
      | None => <[fk := mkRecord f 1 false]> (files m)
      | Some br => <[fk := mkRecord (File br) (Usage br + 1) (Global br)]> (files m)
      end in
    let m1 := set_remoteKey rk' (set_files files1 m) in
    match globalKey m !! n with
    | Some gk =>
        if decide (fk = gk) then
          let av := default 0 (globalAvailability m !! n) in
          set_global (globalKey m1) (<[n := Z.lor av (bit cid)]> (globalAvailability m1)) m1
        else if newerThan fk gk then
          let files2 := setGlobalFlag true fk (setGlobalFlag false gk files1) in
          set_global (<[n := fk]> (globalKey m1)) (<[n := bit cid]> (globalAvailability m1))
            (set_files files2 m1)
        else m1
    | None =>
        if newerThan fk zeroKey then
          let files2 := setGlobalFlag true fk files1 in
          set_global (<[n := fk]> (globalKey m1)) (<[n := bit cid]> (globalAvailability m1))
            (set_files files2 m1)
        else m1
    end.

(** [func (m *Set) update(cid uint, fs []scanner.File)] *)
Definition update (cid : nat) (fs : list scanner.File) (m : FileSet) : result FileSet :=
  match remoteKey m !! cid with
  | None => Stop IndexOutOfRange
  | Some None => Stop UpdateBeforeReplace
  | Some (Some _) => Done (foldl (update_one cid) m fs)
  end.

(** First loop of [replace] (lines 410-419): drop one use of a key. *)
Definition release (fs : gmap key fileRecord) (fk : key) : gmap key fileRecord :=
  match fs !! fk with
  | Some br =>
      if Usage br =? 1 then delete fk fs
      else if 1 <? Usage br then <[fk := mkRecord (File br) (Usage br - 1) (Global br)]> fs
      else fs
  | None => fs
  end.

(** Inner loop of the recalculation (lines 429-439), from slot [i] on;
    [nk] is the newest key so far and [na] its availability. *)
Fixpoint newest (n : string) (i : nat) (rems : list (option (gmap string key)))
    (nk : key) (na : Z) : key * Z :=
  match rems with
  | [] => (nk, na)
  | rem :: rest =>
      match default ∅ rem !! n with
      | Some rk =>
          if decide (rk = nk) then newest n (S i) rest nk (Z.lor na (bit i))
          else if newerThan rk nk then newest n (S i) rest rk (bit i)
          else newest n (S i) rest nk na
      | None => newest n (S i) rest nk na
      end
  end.

(** One turn of the outer loop (lines 425-453). *)
Definition recompute_one (m : FileSet) (n : string) : FileSet :=
  let '(nk, na) := newest n 0 (remoteKey m) zeroKey 0 in
  if na =? 0 then
    set_global (delete n (globalKey m)) (delete n (globalAvailability m)) m
  else
    set_global (<[n := nk]> (globalKey m)) (<[n := na]> (globalAvailability m))
      (set_files (setGlobalFlag true nk (files m)) m).

(** The order in which Go ranges over a map is unspecified; the loops
    below take the entries in the order of [map_to_list], and the
    theorems about them only use which entries are visited. *)
Definition values {A} (mp : gmap string A) : list A := (map_to_list mp).*2.
Definition names {A} (mp : gmap string A) : list string := (map_to_list mp).*1.

(** [replace] up to its last statement: the uses of the peer's keys are
    dropped, its index is emptied and the global view is recalculated. *)
Definition replace_mid (cid : nat) (m : FileSet) : FileSet :=
  let m1 := set_files (foldl release (files m) (values (peer m cid))) m in
  let m2 := set_remoteKey (<[cid := Some ∅]> (remoteKey m1)) m1 in
  foldl recompute_one m2 (names (globalKey m2)).

(** [func (m *Set) replace(cid uint, fs []scanner.File)] *)
Definition replace (cid : nat) (fs : list scanner.File) (m : FileSet) : result FileSet :=
  update cid fs (replace_mid cid m).

(** [m.changes[id]++] on a uint64. *)
Definition bump (id : nat) (m : FileSet) : FileSet :=
  set_changes (alter (λ c, u64 (c + 1)) id (changes m)) m.

(** [func (m *Set) Global() []scanner.File] *)
Definition GlobalFiles (m : FileSet) : list scanner.File :=
  omap (λ e : key * fileRecord, if Global e.2 then Some (File e.2) else None)
       (map_to_list (files m)).

(** [func (m *Set) Get(id uint, file string) scanner.File] *)
Definition Get (id : nat) (file : string) (m : FileSet) : result scanner.File :=
  match remoteKey m !! id with
  | None => Stop IndexOutOfRange
  | Some rem => Done (File (getRecord (files m) (default zeroKey (default ∅ rem !! file))))
  end.

(** [func (m *Set) GetGlobal(file string) scanner.File] *)
Definition GetGlobal (file : string) (m : FileSet) : scanner.File :=
  File (getRecord (files m) (default zeroKey (globalKey m !! file))).

(** [func (m *Set) Availability(name string) bitset] *)
Definition Availability (name : string) (m : FileSet) : Z :=
  default 0 (globalAvailability m !! name).

Section WithFlags.
Variable FlagDeleted : Z.
#[local] Abbreviation IsDeleted := (protocol.IsDeleted FlagDeleted).

(** First loop of [equals] (lines 340-346). *)
Definition curWithoutDeleted (id : nat) (m : FileSet) : gmap string key :=
  foldl (λ cur k,
           let f := File (getRecord (files m) k) in
           if IsDeleted (scanner.Flags f) then cur else <[scanner.Name f := k]> cur)
        ∅ (values (peer m id)).

(** [func (m *Set) equals(id uint, fs []scanner.File) bool] *)
Definition equals (id : nat) (fs : list scanner.File) (m : FileSet) : bool :=
  let cur := curWithoutDeleted id m in
  if decide (size cur ≠ length fs) then false
  else forallb (λ f, bool_decide (default zeroKey (cur !! scanner.Name f) = keyFor f)) fs.

(** The guard [len(fs) == 0 || !m.equals(id, fs)] of both replacing calls. *)
Definition mutates (id : nat) (fs : list scanner.File) (m : FileSet) : bool :=
  bool_decide (length fs = 0%nat) || negb (equals id fs m).

(** [func (m *Set) Replace(id uint, fs []scanner.File)] *)
Definition Replace (id : nat) (fs : list scanner.File) (m : FileSet) : result FileSet :=
  if decide (63 < id)%nat then Stop ConnectionIDRange
  else if mutates id fs m then replace id fs (bump id m)
  else Done m.

(** The map [nf] of lines 182-185. *)
Definition nameKeys (fs : list scanner.File) : gmap string key :=
  foldl (λ nf f, <[scanner.Name f := keyFor f]> nf) ∅ fs.

(** The file appended for a key of the local index that is missing from
    the new list (lines 193-200); the clock is ticked only for a file
    that is not yet deleted. *)
Definition deletedFile (cf : scanner.File) (c : lamport.Clock)
    : scanner.File * lamport.Clock :=
  if IsDeleted (scanner.Flags cf) then (cf, c)
  else
    let '(v, c') := lamport.Tick c (scanner.Version cf) in
    (scanner.mkFile (scanner.Name cf) (Z.lor (scanner.Flags cf) FlagDeleted)
       (scanner.Modified cf) v 0 [] (scanner.Suppressed cf), c').

(** One turn of the loop of lines 191-205. *)
Definition addDeleted (nf : gmap string key) (recs : gmap key fileRecord)
    (acc : list scanner.File * lamport.Clock) (ck : key)
    : list scanner.File * lamport.Clock :=
  match nf !! Name ck with
  | Some _ => acc
  | None =>
      let '(cf, c') := deletedFile (File (getRecord recs ck)) acc.2 in
      (acc.1 ++ [cf], c')
  end.

(** The list handed to [replace] by [ReplaceWithDelete], and the clock
    after the ticks. *)
Definition withDeleted (fs : list scanner.File) (c : lamport.Clock) (m : FileSet)
    : list scanner.File * lamport.Clock :=
  foldl (addDeleted (nameKeys fs) (files m)) (fs, c) (values (peer m LocalID)).

(** [func (m *Set) ReplaceWithDelete(id uint, fs []scanner.File)] *)
Definition ReplaceWithDelete (id : nat) (fs : list scanner.File)
    (c : lamport.Clock) (m : FileSet) : result (lamport.Clock * FileSet) :=
  if decide (63 < id)%nat then Stop ConnectionIDRange
  else if mutates id fs m then
    let m1 := bump id m in
    let '(fs', c') := withDeleted fs c m1 in
    match replace id fs' m1 with
    | Done m' => Done (c', m')
    | Stop e => Stop e
    end
  else Done (c, m).

(** [func (m *Set) Update(id uint, fs []scanner.File)] *)
Definition Update (id : nat) (fs : list scanner.File) (m : FileSet) : result FileSet :=
  match update id fs m with
  | Done m' => Done (bump id m')
  | Stop e => Stop e
  end.

(** The test of one record in the loop of [Need] (lines 232-245). *)
Definition needed (id : nat) (m : FileSet) (gk : key) (gf : fileRecord) : bool :=
  if negb (Global gf) || scanner.Suppressed (File gf) then false
  else
    let ok := peer m id !! Name gk in
    let rk := default zeroKey ok in
    if newerThan gk rk then
      if IsDeleted (scanner.Flags (File gf))
         && (negb (bool_decide (is_Some ok))
             || IsDeleted (scanner.Flags (File (getRecord (files m) rk))))
      then false
      else true
    else false.

(** [func (m *Set) Need(id uint) []scanner.File] *)
Definition Need (id : nat) (m : FileSet) : result (list scanner.File) :=
  match remoteKey m !! id with
  | None => Stop IndexOutOfRange
  | Some _ =>
      Done (omap (λ e, if needed id m e.1 e.2 then Some (File e.2) else None)
                 (map_to_list (files m)))
  end.

(** [func (m *Set) Changes(id uint) uint64] *)
Definition Changes (id : nat) (m : FileSet) : result Z :=
  match changes m !! id with
  | Some c => Done c
  | None => Stop IndexOutOfRange
  end.

End WithFlags.

End files.

(** ** Calls and histories *)

Import files.

(** The three public mutations of a set, as data; the clock is ticked by
    ReplaceWithDelete only. *)
Inductive call : Type :=
  | CallReplace (id : nat) (fs : list scanner.File)
  | CallReplaceWithDelete (id : nat) (fs : list scanner.File)
  | CallUpdate (id : nat) (fs : list scanner.File).

Definition caller (cl : call) : nat :=
  match cl with
  | CallReplace id _ | CallReplaceWithDelete id _ | CallUpdate id _ => id
  end.

Definition exec (FlagDeleted : Z) (cl : call) (w : lamport.Clock * FileSet)
    : result (lamport.Clock * FileSet) :=
  match cl with
  | CallReplace id fs =>
      match Replace FlagDeleted id fs w.2 with
      | Done m' => Done (w.1, m')
      | Stop e => Stop e
      end
  | CallReplaceWithDelete id fs => ReplaceWithDelete FlagDeleted id fs w.1 w.2
  | CallUpdate id fs =>
      match Update id fs w.2 with
      | Done m' => Done (w.1, m')
      | Stop e => Stop e
      end
  end.

Fixpoint run (FlagDeleted : Z) (cls : list call) (w : lamport.Clock * FileSet)
    : result (lamport.Clock * FileSet) :=
  match cls with
  | [] => Done w
  | cl :: rest =>
      match exec FlagDeleted cl w with
      | Done w' => run FlagDeleted rest w'
      | Stop e => Stop e
      end
  end.

(** Both arrays of a set have their 64 slots. *)
Definition sized (m : FileSet) : Prop :=
  length (remoteKey m) = 64%nat ∧ length (changes m) = 64%nat.

(** What a call of peer [cid] leaves alone: the other slots of both
    arrays, and the map globalVersion. *)
Definition same_but (cid : nat) (m m' : FileSet) : Prop :=
  globalVersion m' = globalVersion m ∧
  length (remoteKey m') = length (remoteKey m) ∧
  length (changes m') = length (changes m) ∧
  ∀ j, j ≠ cid →
    remoteKey m' !! j = remoteKey m !! j ∧ changes m' !! j = changes m !! j.

(** ** Example data *)

(** The value the examples take for the Deleted bit. *)
Definition FlagDeleted12 : Z := Z.shiftl 1 12.

(** A regular file with mode 0644 and no blocks. *)
Definition plain (n : string) (v : Z) : scanner.File :=
  scanner.mkFile n 420 0 v 0 [] false.

(** The set reached from a new one (clock at zero) by a history; a new set
    again if a call stops the program. *)
Definition after (cls : list call) : FileSet :=
  match run FlagDeleted12 cls (0, NewSet) with
  | Done w => w.2
  | Stop _ => NewSet
  end.

(** ** The properties the claims speak of *)

(** The number of peer indices that hold [k] as a value. *)
Definition refs (m : FileSet) (k : key) : nat :=
  length (filter (λ rem, k ∈ values (default ∅ rem)) (remoteKey m)).

(** Usage counting: every record is used as often as it is referenced, and
    every reference has its record. *)
Definition usage_counted (m : FileSet) : Prop :=
  (∀ k r, files m !! k = Some r → Usage r = Z.of_nat (refs m k)) ∧
  (∀ i n k, peer m i !! n = Some k → is_Some (files m !! k)).

(** globalVersion follows globalKey. *)
Definition globalVersion_consistent (m : FileSet) : Prop :=
  ∀ n gk, globalKey m !! n = Some gk → globalVersion m !! n = Some (Version gk).

(** The change counter of Replace as the claim words it: one more exactly
    when the list is non-empty or differs. *)
Definition counts_nonempty_or_differs (FlagDeleted : Z) (id : nat)
    (fs : list scanner.File) (m : FileSet) : Prop :=
  ∀ c, changes m !! id = Some c →
    (∃ m', Replace FlagDeleted id fs m = Done m' ∧ changes m' !! id = Some (u64 (c + 1)))
    ↔ (fs ≠ [] ∨ equals FlagDeleted id fs m = false).

(** The index of peer [id] holds no tombstone, and each of its keys has a
    record filed under the key of its own file. *)
Definition tombstone_free (FlagDeleted : Z) (id : nat) (m : FileSet) : Prop :=
  ∀ n k, peer m id !! n = Some k →
    ∃ r, files m !! k = Some r ∧ keyFor (File r) = k ∧
         protocol.IsDeleted FlagDeleted (scanner.Flags (File r)) = false.

(** The record [gf] under key [gk] is one that peer [id] lacks: global, not
    suppressed, of a greater version than the key the peer holds for the
    name (version 0 when it holds none), and not a deletion the peer need
    not learn of. *)
Definition lacks (FlagDeleted : Z) (id : nat) (m : FileSet) (gk : key) (gf : fileRecord)
    : Prop :=
  let ok := peer m id !! Name gk in
  let rk := default zeroKey ok in
  Global gf = true ∧ scanner.Suppressed (File gf) = false ∧
  Version rk < Version gk ∧
  ¬ (protocol.IsDeleted FlagDeleted (scanner.Flags (File gf)) = true ∧
     (ok = None ∨
      protocol.IsDeleted FlagDeleted (scanner.Flags (File (getRecord (files m) rk))) = true)).

(** The same with a missing entry counting as older than every key. *)
Definition lacks_absent_older (FlagDeleted : Z) (id : nat) (m : FileSet) (gk : key)
    (gf : fileRecord) : Prop :=
  let ok := peer m id !! Name gk in
  let rk := default zeroKey ok in
  Global gf = true ∧ scanner.Suppressed (File gf) = false ∧
  match ok with Some rk => Version rk < Version gk | None => True end ∧
  ¬ (protocol.IsDeleted FlagDeleted (scanner.Flags (File gf)) = true ∧
     (ok = None ∨
      protocol.IsDeleted FlagDeleted (scanner.Flags (File (getRecord (files m) rk))) = true)).

(** Need as the claim words it, in two parts: what the list contains, and
    that a peer whose entry is the global key needs nothing of that name. *)
Definition Need_contents_claim (FlagDeleted : Z) (id : nat) (m : FileSet) : Prop :=
  ∃ l, Need FlagDeleted id m = Done l ∧
    ∀ f, f ∈ l ↔ ∃ gk gf, files m !! gk = Some gf ∧ f = File gf ∧
                    lacks_absent_older FlagDeleted id m gk gf.

Definition Need_global_claim (FlagDeleted : Z) (id : nat) (m : FileSet) : Prop :=
  ∃ l, Need FlagDeleted id m = Done l ∧
    ∀ n gk, globalKey m !! n = Some gk → peer m id !! n = Some gk →
      ∀ f, f ∈ l → scanner.Name f ≠ n.

(** Histories used by the examples. *)
Definition two_peers : list call :=
  [CallReplace 0 [plain "a" 5]; CallReplace 1 [plain "a" 7]].

Definition overwrite : list call :=
  [CallReplace 0 [plain "a" 1]; CallUpdate 0 [plain "a" 2]].

Definition empty_name : list call :=
  [CallReplace 0 [plain "" 5]; CallReplace 1 [plain "" 0]; CallReplace 0 []].

Definition stale_flag : list call :=
  [CallReplace 0 [plain "a" 3]; CallReplace 1 [plain "a" 5]; CallUpdate 1 [plain "a" 6];
   CallUpdate 0 [plain "a" 5]; CallReplace 1 []; CallReplace 0 [];
   CallReplace 2 [plain "a" 1]].

(** What Replace does to the change counter [c] of the peer: one more when
    the list is empty or differs from the view without tombstones, nothing
    at all otherwise; and a second Replace with the keys of a first one
    does nothing when the list is non-empty, names no file twice and the
    index it left holds no tombstone. *)
Definition Replace_counting (FlagDeleted : Z) (id : nat) (fs : list scanner.File)
    (m : FileSet) (c : Z) : Prop :=
  ((fs = [] ∨ equals FlagDeleted id fs m = false) →
     ∃ m', Replace FlagDeleted id fs m = Done m' ∧ changes m' !! id = Some (u64 (c + 1))) ∧
  (¬ (fs = [] ∨ equals FlagDeleted id fs m = false) →
     Replace FlagDeleted id fs m = Done m) ∧
  (∀ m1 fs', Replace FlagDeleted id fs m = Done m1 → fs ≠ [] →
     NoDup (scanner.Name <$> fs) → tombstone_free FlagDeleted id m1 →
     keyFor <$> fs' ≡ₚ keyFor <$> fs →
     Replace FlagDeleted id fs' m1 = Done m1).

(** The index entry that [update] writes for a file. *)
Definition entry (f : scanner.File) : string * key := (scanner.Name f, keyFor f).

(** [t] is the tombstone made of [cf]: the same name and modification
    time, the Deleted flag added, no blocks, size 0, and a version ticked
    from the version of [cf]. *)
Definition tombstone_of (FlagDeleted : Z) (cf t : scanner.File) : Prop :=
  scanner.Name t = scanner.Name cf ∧
  scanner.Flags t = Z.lor (scanner.Flags cf) FlagDeleted ∧
  protocol.IsDeleted FlagDeleted (scanner.Flags t) = true ∧
  scanner.Modified t = scanner.Modified cf ∧
  scanner.Blocks t = [] ∧ scanner.Size t = 0 ∧
  scanner.Version cf < scanner.Version t ∧
  ∃ c0, scanner.Version t = (lamport.Tick c0 (scanner.Version cf)).1.

(** What the list [tombs] holds for the current file [cf] of a name that
    the new list lacks: [cf] itself when it is deleted already, its
    tombstone otherwise. *)
Definition appended_for (FlagDeleted : Z) (cf : scanner.File)
    (tombs : list scanner.File) : Prop :=
  if protocol.IsDeleted FlagDeleted (scanner.Flags cf) then cf ∈ tombs
  else ∃ t, t ∈ tombs ∧ tombstone_of FlagDeleted cf t.

(** The mutation of ReplaceWithDelete: [replace] runs on the list with
    the files [tombs] appended, one for each name of the local index that
    the list lacks, and nothing else. *)
Definition tombstone_synthesis (FlagDeleted : Z) (id : nat) (fs : list scanner.File)
    (c : lamport.Clock) (m : FileSet) : Prop :=
  ∃ tombs c',
    ReplaceWithDelete FlagDeleted id fs c m
    = match replace id (fs ++ tombs) (bump id m) with
      | Done m' => Done (c', m')
      | Stop e => Stop e
      end ∧
    (∀ n ck, peer m LocalID !! n = Some ck → Name ck = n →
       n ∉ (scanner.Name <$> fs) →
       appended_for FlagDeleted (File (getRecord (files m) ck)) tombs) ∧
    (∀ t, t ∈ tombs →
       ∃ n ck, peer m LocalID !! n = Some ck ∧ (Name ck ∉ (scanner.Name <$> fs)) ∧
         (t = File (getRecord (files m) ck) ∨
          tombstone_of FlagDeleted (File (getRecord (files m) ck)) t)).

(** The scenario of the claim: Replace(LocalID, [b@3]) on a new set, then
    ReplaceWithDelete(LocalID, []), for any clock and any file b@3 that is
    not deleted. *)
Definition tombstone_example (FlagDeleted : Z) : Prop :=
  ∀ c b3, scanner.Name b3 = "b" → scanner.Version b3 = 3 →
    protocol.IsDeleted FlagDeleted (scanner.Flags b3) = false →
    ∃ m1 c' m2 v r,
      Replace FlagDeleted LocalID [b3] NewSet = Done m1 ∧
      ReplaceWithDelete FlagDeleted LocalID [] c m1 = Done (c', m2) ∧
      4 ≤ v ∧ peer m2 LocalID !! "b" = Some (Key "b" v) ∧
      files m2 !! Key "b" v = Some r ∧
      scanner.Name (File r) = "b" ∧ scanner.Version (File r) = v ∧
      protocol.IsDeleted FlagDeleted (scanner.Flags (File r)) = true ∧
      scanner.Size (File r) = 0 ∧ scanner.Blocks (File r) = [].

(** ** The global view *)

(** [gk] with availability [av] is the global view of the name [n]: some
    peer holds [gk] for [n], no peer holds a greater version, and the bits
    of [av] are the peers that hold [gk]. *)
Definition newest_of (m : FileSet) (n : string) (gk : key) (av : Z) : Prop :=
  (∃ i, peer m i !! n = Some gk) ∧
  (∀ i k, peer m i !! n = Some k → Version k ≤ Version gk) ∧
  (∀ i : nat, Z.testbit av (Z.of_nat i) = true ↔ peer m i !! n = Some gk).

(** The global view is right for every name that some peer reports. *)
Definition global_view_correct (m : FileSet) : Prop :=
  ∀ n, (∃ i k, peer m i !! n = Some k) →
    ∃ gk av, globalKey m !! n = Some gk ∧ globalAvailability m !! n = Some av ∧
             newest_of m n gk av.

(** A list that [update] may fold into the index [rem] without lowering a
    version: every file has a positive version, and none is older than the
    key the index holds for its name when its turn comes. *)
Fixpoint admissible (rem : gmap string key) (fs : list scanner.File) : bool :=
  match fs with
  | [] => true
  | f :: fs' =>
      (0 <? scanner.Version f)
      && match rem !! scanner.Name f with
         | Some ck => Version ck <=? scanner.Version f
         | None => true
         end
      && admissible (<[scanner.Name f := keyFor f]> rem) fs'
  end.

Definition admissible_call (cl : call) (w : lamport.Clock * FileSet) : bool :=
  match cl with
  | CallReplace _ fs | CallReplaceWithDelete _ fs => admissible ∅ fs
  | CallUpdate id fs => admissible (peer w.2 id) fs
  end.

(** The sets (with the clock) reached from a new set by admissible calls
    that return. *)
Inductive reachable (FlagDeleted : Z) : lamport.Clock * FileSet → Prop :=
  | reach_new c : reachable FlagDeleted (c, NewSet)
  | reach_call cl w w' :
      reachable FlagDeleted w → admissible_call cl w = true →
      exec FlagDeleted cl w = Done w' → reachable FlagDeleted w'.

(** The number of peer indices that hold [k] under its own name. *)
Definition uses (m : FileSet) (k : key) : nat :=
  length (filter (λ rem, default ∅ rem !! Name k = Some k) (remoteKey m)).

(** A record without its global flag. *)
Definition strip (r : fileRecord) : scanner.File * Z := (File r, Usage r).

(** What the calls keep of the indices and the records: every index entry
    is a key of its own name with a positive version and has a record;
    every record is filed under the key of its file and is used at least
    as often as it is referenced. *)
Record base_inv (m : FileSet) : Prop := BaseInv {
  inv_sized : sized m;
  inv_keys : ∀ i n k, peer m i !! n = Some k → Name k = n ∧ 0 < Version k;
  inv_filed : ∀ k r, files m !! k = Some r → keyFor (File r) = k;
  inv_held : ∀ i n k, peer m i !! n = Some k → is_Some (files m !! k);
  inv_uses : ∀ k r, files m !! k = Some r → Z.of_nat (uses m k) ≤ Usage r
}.

(** Every name that a peer reports has a global key. *)
Definition names_known (m : FileSet) : Prop :=
  ∀ i n k, peer m i !! n = Some k → is_Some (globalKey m !! n).

(** Every global key is the newest of its name. *)
Definition global_inv (m : FileSet) : Prop :=
  ∀ n gk, globalKey m !! n = Some gk →
    ∃ av, globalAvailability m !! n = Some av ∧ newest_of m n gk av.

Definition set_inv (m : FileSet) : Prop :=
  base_inv m ∧ names_known m ∧ global_inv m.

(** A key that ties in version with no other key of the name [n]. *)
Definition key_like (n : string) (nk : key) : Prop :=
  ∀ k, Name k = n → 0 < Version k → Version k = Version nk → k = nk.

(** The set once [replace] has dropped the keys of the peer and emptied
    its index, before the global view is recalculated. *)
Definition cleared (cid : nat) (m : FileSet) : FileSet :=
  let m1 := set_files (foldl release (files m) (values (peer m cid))) m in
  set_remoteKey (<[cid := Some ∅]> (remoteKey m1)) m1.

Definition three_peers : list call :=
  [CallReplace 0 [plain "a" 5]; CallReplace 1 [plain "a" 7]; CallReplace 2 [plain "a" 7]].

Definition version_zero : list call := [CallReplace 0 [plain "a" 0]].

Definition version_lowered : list call :=
  [CallReplace 0 [plain "a" 7]; CallUpdate 0 [plain "a" 5]].

(** A character of the base32 alphabet. *)
Definition alpha (c : ascii) : Prop := c ∈ protocol.encodeStd.

(** The characters of an identifier as [String] prints it. *)
Definition idchar (c : ascii) : Prop := alpha c ∨ c = "-"%char.

(** The identifier with its two check characters, before the grouping. *)
Definition checked (Generate : list ascii → ascii) (n : list Z) : list ascii :=
  let id := protocol.Trim "="%char (protocol.EncodeToString n) in
  take 26 id ++ Generate (take 26 id) :: drop 26 id ++ [Generate (drop 26 id)].

(** ** The walker: examples and the claim *)

(** A base directory with one file, a.txt, of five bytes. *)
Definition one_file : scanner.node :=
  scanner.Folder (scanner.mkInfo (Z.lor scanner.ModeDir 493) 100 4096)
    (Some [("a.txt", scanner.Leaf (scanner.mkInfo 420 200 5) (Some (protocol.str "hello")))]).

(** The directory is there during both passes and gone at the last check. *)
Definition vanishing : scanner.moments :=
  scanner.mkMoments (Some one_file) (Some one_file) (Some one_file) None.

Definition plain_walker : scanner.Walker :=
  scanner.mkWalker 131072 ".stignore" None None None false.

(** Stand-ins for the library functions in the examples: every name is
    normalised, a pattern matches the name equal to it, and a file is one
    block without a hash. *)
Definition always_normal (s : string) : bool := true.
Definition literal_match (pattern name : string) : bool := bool_decide (pattern = name).
Definition one_block (bytes : list ascii) (size : Z) : option (list scanner.Block) :=
  Some [scanner.mkBlock 0 (Z.of_nat (length bytes)) []].

Definition example_Walk (w : scanner.Walker) (fs : scanner.moments)
    : list scanner.File * option (gmap string (list string)) * option scanner.walk_error :=
  (scanner.Walk FlagDeleted12 (Z.shiftl 1 14) (Z.shiftl 1 15) scanner.linux
     always_normal literal_match one_block w fs 0).1.

(** The claim on the walker: an error from Walk comes with no file. *)
Definition no_partial_result
    (r : list scanner.File * option (gmap string (list string)) * option scanner.walk_error)
    : Prop :=
  r.2 ≠ None → r.1.1 = [].

(** ** Properties beyond the claims *)

(** Every record is filed under a key of positive version. *)
Definition keys_positive (m : FileSet) : Prop :=
  ∀ k r, files m !! k = Some r → 0 < Version k.

(** The global view lists the names that some peer reports, and no other. *)
Definition global_names_reported (m : FileSet) : Prop :=
  ∀ n, is_Some (globalKey m !! n) ↔ ∃ i k, peer m i !! n = Some k.

(** The text of an identifier as [UnmarshalText] hands it to the decoder
    (part_001, lines 54-58). *)
Definition stripped (bs : list ascii) : list ascii :=
  protocol.Remove " "%char
    (protocol.Remove "-"%char (protocol.ToUpper (protocol.Trim "="%char bs))).

(** A character of the base32 alphabet in lower case. *)
Definition lower_alpha (c : ascii) : Prop :=
  c ∈ protocol.str "abcdefghijklmnopqrstuvwxyz234567".

(** A character that is neither padding nor a line break. *)
Definition plain_char (c : ascii) : bool :=
  negb (bool_decide (c = "="%char)) && negb (bool_decide (protocol.newline c)).

(** ** cmd/stcli (tls.go) *)

Module stcli.
Section CertID.
(** [crypto/sha256]: the digest of a byte sequence. *)
Variable sha256 : list Z → list Z.

(** [func certID(bs []byte) string]; [hf.Sum(nil)] appends the digest to
    a nil slice. *)
Definition certID (bs : list Z) : protocol.gostring :=
  let sum := (protocol.append (protocol.mkSlice [] 0 0) (sha256 bs)).1 in
  let id := protocol.EncodeToString (take (protocol.slen sum) (protocol.base sum)) in
  let id := protocol.Trim "="%char id in
  protocol.ToLower id.
End CertID.
End stcli.

(** ** The walker: what a scan without a CurrentFiler returns *)

(** An entry that the hash pass makes for a regular file it has read: a
    path below the base directory that no rule excludes, with the
    metadata that lstat reports. *)
Definition hashed_entry (FlagNoPermBits : Z) (GOOS : scanner.os)
    (IsNormalString : string → bool) (Match : string → string → bool)
    (w : scanner.Walker) (ign : gmap string (list string)) (f : scanner.File) : Prop :=
  ∃ comps info,
    scanner.Name f = scanner.rel comps ∧ scanner.Name f ≠ "." ∧
    scanner.IsRegular info = true ∧
    scanner.splitBase comps ≠ scanner.IgnoreFile w ∧
    scanner.splitBase comps ≠ ".stversions" ∧
    scanner.ignoreFile Match ign comps = false ∧
    (∀ isTemporary, scanner.TempNamer w = Some isTemporary →
                    isTemporary (scanner.Name f) = false) ∧
    (GOOS = scanner.linux ∨ GOOS = scanner.windows →
     IsNormalString (scanner.Name f) = true) ∧
    scanner.Flags f = (if scanner.IgnorePerms w then Z.lor FlagNoPermBits 438
                       else Z.land (scanner.Mode info) scanner.ModePerm) ∧
    scanner.Modified f = scanner.ModTime info ∧
    scanner.Size f = scanner.InfoSize info ∧
    scanner.Suppressed f = false.

(** The versions of a list are the ticks that follow [c], in order. *)
Definition consecutive_from (c : Z) (fs : list scanner.File) : Prop :=
  ∀ (i : nat) f, fs !! i = Some f → scanner.Version f = c + 1 + Z.of_nat i.


(** A base directory with an ignore file that names b.txt, between a blank
    line and a line that ends in a carriage return, and two files. *)
Definition ignoring : scanner.node :=
  scanner.Folder (scanner.mkInfo (Z.lor scanner.ModeDir 493) 100 4096)
    (Some [(".stignore",
            scanner.Leaf (scanner.mkInfo 420 150 14)
              (Some (protocol.str " *.tmp " ++ "013"%char :: "010"%char :: "010"%char
                     :: protocol.str "b.txt" ++ ["010"%char])));
           ("a.txt", scanner.Leaf (scanner.mkInfo 420 200 5) (Some (protocol.str "hello")));
           ("b.txt", scanner.Leaf (scanner.mkInfo 420 210 5) (Some (protocol.str "world")))]).

(** The same tree at the four moments of a walk. *)
Definition steady (t : scanner.node) : scanner.moments :=
  scanner.mkMoments (Some t) (Some t) (Some t) (Some t).

(** A tree on which lstat and the listing of directories agree: what is
    listed as a directory has the directory bit in its mode, and a file
    has not. *)
Fixpoint well_formed (nd : scanner.node) : bool :=
  match nd with
  | scanner.Leaf info _ => negb (scanner.IsDir info)
  | scanner.Folder info entries =>
      scanner.IsDir info &&
      match entries with
      | None => true
      | Some es => forallb (λ e, let '(_, child) := e in well_formed child) es
      end
  | scanner.Broken => true
  end.

(** The test of the hash pass that leaves a directory out together with
    all that is below it (walk.go, lines 143-163): the path is not the
    base directory, has no temporary name, and is the ignore file,
    .stversions or matched by a pattern. *)
Definition skipped (Match : string → string → bool) (w : scanner.Walker)
    (ign : gmap string (list string)) (comps : list string) : bool :=
  negb (bool_decide (scanner.rel comps = "."))
  && negb (match scanner.TempNamer w with
           | Some isTemporary => isTemporary (scanner.rel comps)
           | None => false
           end)
  && (bool_decide (scanner.splitBase comps = scanner.IgnoreFile w)
      || bool_decide (scanner.splitBase comps = ".stversions")
      || scanner.ignoreFile Match ign comps).

(** The file stands for a path that is neither left out nor below a
    directory that is. *)
Definition outside_skipped (Match : string → string → bool) (w : scanner.Walker)
    (ign : gmap string (list string)) (f : scanner.File) : Prop :=
  ∃ comps, scanner.Name f = scanner.rel comps ∧
           ∀ p, p `prefix_of` comps → skipped Match w ign p = false.

(** A base directory with a file below .stversions, one below a directory
    that the ignore file names, and one beside them. *)
Definition versioned : scanner.node :=
  let dir := scanner.mkInfo (Z.lor scanner.ModeDir 493) 100 4096 in
  let file := scanner.mkInfo 420 200 5 in
  scanner.Folder dir
    (Some [(".stignore", scanner.Leaf file (Some (protocol.str "cache")));
           (".stversions",
            scanner.Folder dir
              (Some [("old.txt", scanner.Leaf file (Some (protocol.str "older")))]));
           ("cache",
            scanner.Folder dir
              (Some [("tmp.txt", scanner.Leaf file (Some (protocol.str "cache")))]));
           ("keep.txt", scanner.Leaf file (Some (protocol.str "hello")))]).

Section Unchanged.
Variable FlagDeleted FlagDirectory FlagNoPermBits : Z.
Variable GOOS : scanner.os.
Variable w : scanner.Walker.
Variable currentFile : string → scanner.File.

(** The tests of the hash pass for an entry that has not changed since
    the last scan (walk.go, lines 174-175 for a directory and 205-206 for
    a regular file). *)
Definition entry_unchanged (rn : string) (info : scanner.FileInfo) : bool :=
  let cf := currentFile rn in
  if scanner.IsDir info then
    (scanner.Modified cf =? scanner.ModTime info)
    && protocol.IsDirectory FlagDirectory (scanner.Flags cf)
    && scanner.permUnchanged FlagNoPermBits GOOS w cf info
  else if scanner.IsRegular info then
    negb (protocol.IsDeleted FlagDeleted (scanner.Flags cf))
    && (scanner.Modified cf =? scanner.ModTime info)
    && scanner.permUnchanged FlagNoPermBits GOOS w cf info
  else true.

(** Every entry of the tree below the base directory passes the test. *)
Fixpoint tree_unchanged (comps : list string) (nd : scanner.node) : bool :=
  match nd with
  | scanner.Leaf info _ =>
      bool_decide (scanner.rel comps = ".") || entry_unchanged (scanner.rel comps) info
  | scanner.Folder info entries =>
      (bool_decide (scanner.rel comps = ".") || entry_unchanged (scanner.rel comps) info)
      && match entries with
         | None => true
         | Some es =>
             forallb (λ e, let '(name, child) := e in tree_unchanged (comps ++ [name]) child)
               es
         end
  | scanner.Broken => true
  end.
End Unchanged.

(** A CurrentFiler that knows the tree [ignoring] as it is. *)
Definition last_scan (rn : string) : scanner.File :=
  if decide (rn = "a.txt") then scanner.mkFile "a.txt" 420 200 7 5 [] false
  else if decide (rn = "b.txt") then scanner.mkFile "b.txt" 420 210 8 5 [] false
  else if decide (rn = ".stignore") then scanner.mkFile ".stignore" 420 150 3 14 [] false
  else scanner.zeroFile.

Definition rescanning : scanner.Walker :=
  scanner.mkWalker 131072 ".stignore" None (Some last_scan) None false.

(** The key has a record, and the record carries the Global flag. *)
Definition flagged (fs : gmap key fileRecord) (k : key) : Prop :=
  ∃ r, fs !! k = Some r ∧ Global r = true.

(** The record of every global key carries the Global flag. *)
Definition global_flagged (m : FileSet) : Prop :=
  ∀ n gk, globalKey m !! n = Some gk → flagged (files m) gk.

(** * Proofs *)

(** ** What a call leaves alone *)

Lemma same_but_refl cid m : same_but cid m m.
Proof. by repeat split. Qed.

Lemma same_but_trans cid m1 m2 m3 :
  same_but cid m1 m2 → same_but cid m2 m3 → same_but cid m1 m3.
Proof.
  intros (Hv & Hl & Hc & H) (Hv' & Hl' & Hc' & H').
  repeat split; try congruence.
  - destruct (H' j) as [-> _]; [done|]. by destruct (H j) as [-> _].
  - destruct (H' j) as [_ ->]; [done|]. by destruct (H j) as [_ ->].
Qed.

Lemma same_but_foldl {A} cid (f : FileSet → A → FileSet) l :
  (∀ m x, same_but cid m (f m x)) → ∀ m, same_but cid m (foldl f m l).
Proof.
  intros Hf. induction l as [|x l IH]; intros m; simpl.
  - apply same_but_refl.
  - eapply same_but_trans; [apply Hf | apply IH].
Qed.

Lemma same_but_remoteKey cid v m :
  same_but cid m (set_remoteKey (<[cid := v]> (remoteKey m)) m).
Proof.
  repeat split; simpl; try done.
  - by rewrite length_insert.
  - by rewrite list_lookup_insert_ne.
Qed.

Lemma same_but_set_files cid fs m : same_but cid m (set_files fs m).
Proof. by repeat split. Qed.

Lemma same_but_set_global cid gk ga m : same_but cid m (set_global gk ga m).
Proof. by repeat split. Qed.

Lemma same_but_update_one cid m f : same_but cid m (update_one cid m f).
Proof.
  unfold update_one.
  case_decide; [apply same_but_refl|].
  set (m1 := set_remoteKey _ _).
  assert (H1 : same_but cid m m1).
  { unfold m1. eapply same_but_trans; [apply same_but_set_files|].
    apply (same_but_remoteKey cid _ (set_files _ m)). }
  destruct (globalKey m !! scanner.Name f) as [gk|].
  - case_decide.
    + eapply same_but_trans; [exact H1 | apply same_but_set_global].
    + destruct (newerThan _ gk); [|exact H1].
      eapply same_but_trans; [exact H1|].
      eapply same_but_trans; [apply same_but_set_files | apply same_but_set_global].
  - destruct (newerThan _ zeroKey); [|exact H1].
    eapply same_but_trans; [exact H1|].
    eapply same_but_trans; [apply same_but_set_files | apply same_but_set_global].
Qed.

Lemma same_but_recompute_one cid m n : same_but cid m (recompute_one m n).
Proof.
  unfold recompute_one. destruct (newest _ _ _ _ _) as [nk na].
  destruct (na =? 0).
  - apply same_but_set_global.
  - eapply same_but_trans; [apply same_but_set_files | apply same_but_set_global].
Qed.

Lemma update_Done cid fs m :
  is_Some (mjoin (remoteKey m !! cid)) →
  update cid fs m = Done (foldl (update_one cid) m fs).
Proof.
  unfold update. intros [rem H].
  destruct (remoteKey m !! cid) as [[?|]|]; by simplify_eq/=.
Qed.

Lemma same_but_update cid fs m m' :
  update cid fs m = Done m' → same_but cid m m'.
Proof.
  unfold update. intros H.
  destruct (remoteKey m !! cid) as [[?|]|]; simplify_eq.
  apply same_but_foldl. intros. apply same_but_update_one.
Qed.

Lemma replace_unfold cid fs m : replace cid fs m = update cid fs (replace_mid cid m).
Proof. reflexivity. Qed.

Lemma same_but_replace_mid cid m : same_but cid m (replace_mid cid m).
Proof.
  unfold replace_mid.
  eapply same_but_trans; [apply same_but_set_files|].
  eapply same_but_trans; [apply same_but_remoteKey|].
  apply same_but_foldl. intros. apply same_but_recompute_one.
Qed.

Lemma remoteKey_foldl_recompute m ns :
  remoteKey (foldl recompute_one m ns) = remoteKey m.
Proof.
  revert m. induction ns as [|n ns IH]; intros m; simpl; [done|].
  rewrite IH. unfold recompute_one. destruct (newest _ _ _ _ _) as [nk na].
  by destruct (na =? 0).
Qed.

Lemma replace_mid_slot cid m :
  (cid < length (remoteKey m))%nat →
  remoteKey (replace_mid cid m) !! cid = Some (Some ∅).
Proof.
  intros H. unfold replace_mid. rewrite remoteKey_foldl_recompute. simpl.
  by rewrite list_lookup_insert_eq.
Qed.

Lemma replace_Done cid fs m :
  (cid < length (remoteKey m))%nat →
  replace cid fs m = Done (foldl (update_one cid) (replace_mid cid m) fs).
Proof.
  intros H. rewrite replace_unfold. apply update_Done.
  rewrite replace_mid_slot; [|done]. by eexists.
Qed.

Lemma same_but_replace cid fs m m' :
  replace cid fs m = Done m' → same_but cid m m'.
Proof.
  rewrite replace_unfold. intros H.
  eapply same_but_trans; [apply same_but_replace_mid | by eapply same_but_update].
Qed.

Lemma same_but_bump cid m : same_but cid m (bump cid m).
Proof.
  repeat split; simpl; try done.
  - by rewrite length_alter.
  - by rewrite list_lookup_alter_ne.
Qed.

Lemma same_but_Replace FD id fs m m' :
  Replace FD id fs m = Done m' → same_but id m m'.
Proof.
  unfold Replace. case_decide; [done|].
  destruct (mutates FD id fs m); intros Hr.
  - eapply same_but_trans; [apply same_but_bump | by eapply same_but_replace].
  - simplify_eq. apply same_but_refl.
Qed.

Lemma same_but_ReplaceWithDelete FD id fs c m c' m' :
  ReplaceWithDelete FD id fs c m = Done (c', m') → same_but id m m'.
Proof.
  unfold ReplaceWithDelete. case_decide; [done|].
  destruct (mutates FD id fs m); intros Hr.
  - destruct (withDeleted _ _ _ _) as [fs' c''].
    destruct (replace id fs' (bump id m)) as [m''|] eqn:E; simplify_eq.
    eapply same_but_trans; [apply same_but_bump | by eapply same_but_replace].
  - simplify_eq. apply same_but_refl.
Qed.

Lemma same_but_Update id fs m m' :
  Update id fs m = Done m' → same_but id m m'.
Proof.
  unfold Update. destruct (update id fs m) as [m''|] eqn:E; intros H; simplify_eq.
  eapply same_but_trans; [by eapply same_but_update | apply same_but_bump].
Qed.

Lemma same_but_exec FD cl w w' :
  exec FD cl w = Done w' → same_but (caller cl) w.2 w'.2.
Proof.
  destruct cl as [id fs|id fs|id fs], w as [c m], w' as [c' m']; simpl.
  - destruct (Replace FD id fs m) eqn:E; intros H; simplify_eq.
    by eapply same_but_Replace.
  - apply same_but_ReplaceWithDelete.
  - destruct (Update id fs m) eqn:E; intros H; simplify_eq.
    by eapply same_but_Update.
Qed.

(** ** The map globalVersion *)

(** C3, as the code has it: globalVersion is empty in a new set and no
    public mutation writes it, whichever key the call promotes to global;
    the version of the global key is read off globalKey alone. *)
Theorem globalVersion_never_written FD cl w :
  globalVersion NewSet = ∅ ∧
  match exec FD cl w with
  | Done w' => globalVersion w'.2 = globalVersion w.2
  | Stop _ => True
  end.
Proof.
  split; [done|].
  destruct (exec FD cl w) as [w'|] eqn:E; [|done].
  by destruct (same_but_exec _ _ _ _ E) as [-> _].
Qed.

(** C3, as the claim states it, fails: after Replace(0, [a@1]) on a new set
    the name a is in globalKey and not in globalVersion. *)
Lemma globalVersion_stays_empty :
  ¬ globalVersion_consistent (after [CallReplace 0 [plain "a" 1]]).
Proof.
  intros H. specialize (H "a" (Key "a" 1)).
  assert (Hg : globalKey (after [CallReplace 0 [plain "a" 1]]) !! "a" = Some (Key "a" 1))
    by (vm_compute; reflexivity).
  specialize (H Hg). vm_compute in H. discriminate.
Qed.

(** ** The frame of a call *)

(** C10: a call of one peer leaves the index and the change counter of
    every other peer as they were. *)
Theorem other_peers_untouched FD cl w w' j :
  exec FD cl w = Done w' → j ≠ caller cl →
  remoteKey w'.2 !! j = remoteKey w.2 !! j ∧ changes w'.2 !! j = changes w.2 !! j.
Proof.
  intros E Hj. destruct (same_but_exec _ _ _ _ E) as (_ & _ & _ & H). by apply H.
Qed.

Lemma other_peers_untouched_witness :
  exec FlagDeleted12 (CallUpdate 1 [plain "a" 9]) (0, after two_peers)
    = Done (0, after (two_peers ++ [CallUpdate 1 [plain "a" 9]])) ∧
  0%nat ≠ caller (CallUpdate 1 [plain "a" 9]) ∧
  remoteKey (after (two_peers ++ [CallUpdate 1 [plain "a" 9]])) !! 0%nat
    = remoteKey (after two_peers) !! 0%nat ∧
  changes (after (two_peers ++ [CallUpdate 1 [plain "a" 9]])) !! 0%nat
    = changes (after two_peers) !! 0%nat.
Proof.
  assert (E : exec FlagDeleted12 (CallUpdate 1 [plain "a" 9]) (0, after two_peers)
              = Done (0, after (two_peers ++ [CallUpdate 1 [plain "a" 9]])))
    by (vm_compute; reflexivity).
  split; [exact E|]. split; [simpl; lia|].
  exact (other_peers_untouched _ _ _ _ 0%nat E ltac:(simpl; lia)).
Defined.

(** ** Usage counting *)

(** C1 fails on the code: after Replace(0, [a@1]) and Update(0, [a@2]) the
    record a@1 is still in the files map with usage 1 although no index
    refers to it; [update] overwrites the entry of the peer without
    dropping the use of the key it held, which [replace] does for the keys
    it removes. *)
Theorem update_leaves_orphan :
  ∃ r, files (after overwrite) !! Key "a" 1 = Some r ∧ Usage r = 1 ∧
       refs (after overwrite) (Key "a" 1) = 0%nat ∧
       ¬ usage_counted (after overwrite).
Proof.
  assert (Hr : files (after overwrite) !! Key "a" 1
               = Some (mkRecord (plain "a" 1) 1 false)) by (vm_compute; reflexivity).
  assert (H0 : refs (after overwrite) (Key "a" 1) = 0%nat) by (vm_compute; reflexivity).
  eexists. split; [exact Hr|]. split; [done|]. split; [exact H0|].
  intros [H _]. specialize (H _ _ Hr). rewrite H0 in H. simpl in H. lia.
Qed.

(** ** Need *)

Lemma needed_lacks FD id m gk gf :
  needed FD id m gk gf = true ↔ lacks FD id m gk gf.
Proof.
  unfold needed, lacks, newerThan.
  destruct (Global gf), (scanner.Suppressed (File gf)); simpl;
    try (split; [done | intros (? & ? & _); done]).
  destruct (Z.ltb_spec (Version (default zeroKey (peer m id !! Name gk))) (Version gk))
    as [Hlt|Hge]; [|split; [done | intros (_ & _ & ? & _); lia]].
  destruct (protocol.IsDeleted FD (scanner.Flags (File gf))); simpl.
  - destruct (peer m id !! Name gk) as [rk|] eqn:Ek; simpl.
    + destruct (protocol.IsDeleted FD _); simpl.
      * split; [done|]. intros (_ & _ & _ & Hn). destruct Hn. auto.
      * split; [|done]. intros _. repeat split; try done.
        intros [_ [?|?]]; done.
    + split; [done|]. intros (_ & _ & _ & Hn). destruct Hn. auto.
  - split; [|done]. intros _. repeat split; try done. intros [? _]; done.
Qed.

(** C5, as the code has it: for a peer id in range, Need(peer) holds
    exactly the files of the records that are marked global, are not
    suppressed and have a greater version than the key the peer holds for
    the name, a missing entry counting as version 0, leaving out deleted
    globals when the peer has no entry or its entry's record is deleted
    too; the record of a key that the peer itself holds for its name is
    never among them. *)
Theorem Need_contents FD id m :
  is_Some (remoteKey m !! id) →
  ∃ l, Need FD id m = Done l ∧
    (∀ f, f ∈ l ↔ ∃ gk gf, files m !! gk = Some gf ∧ f = File gf ∧ lacks FD id m gk gf) ∧
    (∀ gk gf, files m !! gk = Some gf → peer m id !! Name gk = Some gk →
       ¬ lacks FD id m gk gf).
Proof.
  intros [rem Hrem]. unfold Need. rewrite Hrem. eexists. split; [reflexivity|]. split.
  - intros f. rewrite list_elem_of_omap. split.
    + intros ([gk gf] & Hin & Hf). simpl in Hf.
      destruct (needed FD id m gk gf) eqn:En; simplify_eq.
      exists gk, gf. split; [by apply elem_of_map_to_list|]. split; [done|].
      by apply needed_lacks.
    + intros (gk & gf & Hk & -> & Hl). exists (gk, gf).
      split; [by apply elem_of_map_to_list|]. simpl.
      apply needed_lacks in Hl. by rewrite Hl.
  - intros gk gf _ Hp (_ & _ & Hlt & _). rewrite Hp in Hlt. simpl in Hlt. lia.
Qed.

Lemma Need_contents_witness :
  is_Some (remoteKey (after two_peers) !! 0%nat) ∧
  ∃ l, Need FlagDeleted12 0 (after two_peers) = Done l ∧
    (∀ f, f ∈ l ↔ ∃ gk gf, files (after two_peers) !! gk = Some gf ∧ f = File gf ∧
                    lacks FlagDeleted12 0 (after two_peers) gk gf) ∧
    (∀ gk gf, files (after two_peers) !! gk = Some gf →
       peer (after two_peers) 0 !! Name gk = Some gk →
       ¬ lacks FlagDeleted12 0 (after two_peers) gk gf).
Proof.
  assert (H : is_Some (remoteKey (after two_peers) !! 0%nat))
    by (vm_compute; eexists; reflexivity).
  split; [exact H|]. exact (Need_contents FlagDeleted12 0 (after two_peers) H).
Defined.

(** C5, as the claim states it, fails in both parts.  With a missing entry
    counted as older than every key, peer 2 would need the global record
    of version 0 that [empty_name] leaves, and Need(2) is empty.  After
    [stale_flag] the entry of peer 2 for a is the global key a@1, and
    Need(2) still holds a@5, whose global flag no call took back. *)
Lemma Need_claim_fails :
  ¬ Need_contents_claim FlagDeleted12 2 (after empty_name) ∧
  ¬ Need_global_claim FlagDeleted12 2 (after stale_flag).
Proof.
  split.
  - intros (l & Hl & H).
    assert (El : Need FlagDeleted12 2 (after empty_name) = Done [])
      by (vm_compute; reflexivity).
    rewrite El in Hl. injection Hl as <-.
    assert (Hin : plain "" 0 ∈ @nil scanner.File); [|by apply elem_of_nil in Hin].
    apply H. exists (Key "" 0), (mkRecord (plain "" 0) 1 true).
    split; [vm_compute; reflexivity|]. split; [reflexivity|].
    unfold lacks_absent_older.
    assert (Ep : peer (after empty_name) 2 !! Name (Key "" 0) = None)
      by (vm_compute; reflexivity).
    rewrite Ep. cbn [default File Global scanner.Suppressed scanner.Flags plain].
    split; [reflexivity|]. split; [reflexivity|]. split; [exact I|].
    intros [Hd _]. vm_compute in Hd. discriminate Hd.
  - intros (l & Hl & H).
    assert (El : Need FlagDeleted12 2 (after stale_flag) = Done [plain "a" 5])
      by (vm_compute; reflexivity).
    rewrite El in Hl. injection Hl as <-.
    assert (Hg : globalKey (after stale_flag) !! "a" = Some (Key "a" 1))
      by (vm_compute; reflexivity).
    assert (Hp : peer (after stale_flag) 2 !! "a" = Some (Key "a" 1))
      by (vm_compute; reflexivity).
    refine (H "a" (Key "a" 1) Hg Hp (plain "a" 5) _ eq_refl).
    apply list_elem_of_singleton. reflexivity.
Qed.

(** ** The change counter of Replace *)

Lemma changes_update_one cid m f : changes (update_one cid m f) = changes m.
Proof. unfold update_one. repeat (case_decide || case_match); done. Qed.

Lemma changes_foldl_update cid fs m :
  changes (foldl (update_one cid) m fs) = changes m.
Proof.
  revert m. induction fs as [|f fs IH]; intros m; simpl; [done|].
  by rewrite IH, changes_update_one.
Qed.

Lemma changes_recompute_one m n : changes (recompute_one m n) = changes m.
Proof.
  unfold recompute_one. destruct (newest _ _ _ _ _) as [nk na]. by destruct (na =? 0).
Qed.

Lemma changes_foldl_recompute m ns : changes (foldl recompute_one m ns) = changes m.
Proof.
  revert m. induction ns as [|n ns IH]; intros m; simpl; [done|].
  by rewrite IH, changes_recompute_one.
Qed.

Lemma changes_replace_mid cid m : changes (replace_mid cid m) = changes m.
Proof. unfold replace_mid. by rewrite changes_foldl_recompute. Qed.

Lemma Replace_mutating FD id fs m c :
  sized m → (id ≤ 63)%nat → changes m !! id = Some c →
  mutates FD id fs m = true →
  ∃ m', Replace FD id fs m = Done m' ∧ changes m' !! id = Some (u64 (c + 1)).
Proof.
  intros [Hl Hc] Hid Hch Hm. unfold Replace.
  rewrite decide_False by lia. rewrite Hm.
  rewrite replace_Done by (simpl; lia).
  eexists. split; [reflexivity|].
  rewrite changes_foldl_update, changes_replace_mid. simpl.
  rewrite list_lookup_alter_eq, Hch. done.
Qed.

Lemma Replace_idle FD id fs m :
  (id ≤ 63)%nat → mutates FD id fs m = false → Replace FD id fs m = Done m.
Proof. intros Hid Hm. unfold Replace. rewrite decide_False by lia. by rewrite Hm. Qed.

Lemma mutates_true FD id fs m :
  mutates FD id fs m = true ↔ fs = [] ∨ equals FD id fs m = false.
Proof.
  unfold mutates. rewrite orb_true_iff, bool_decide_eq_true, negb_true_iff.
  by rewrite length_zero_iff_nil.
Qed.


Lemma length_remoteKey_update_one cid m f :
  length (remoteKey (update_one cid m f)) = length (remoteKey m).
Proof. by destruct (same_but_update_one cid m f) as (_ & ? & _). Qed.

Lemma peer_update_one cid m f :
  (cid < length (remoteKey m))%nat →
  peer (update_one cid m f) cid = <[scanner.Name f := keyFor f]> (peer m cid).
Proof.
  intros Hlt. unfold update_one. case_decide as Hd.
  - by rewrite insert_id.
  - assert (Hp : ∀ m', remoteKey m' = <[cid := Some (<[scanner.Name f := keyFor f]> (peer m cid))]>
                                         (remoteKey m) →
                 peer m' cid = <[scanner.Name f := keyFor f]> (peer m cid)).
    { intros m' E. unfold peer at 1. rewrite E. by rewrite list_lookup_insert_eq. }
    repeat case_match; apply Hp; done.
Qed.

Lemma foldl_insert_list_to_map {K A} `{Countable K} (l : list (K * A)) (acc : gmap K A) :
  foldl (λ cur p, <[p.1 := p.2]> cur) acc l = list_to_map (reverse l) ∪ acc.
Proof.
  revert acc. induction l as [|[k a] l IH]; intros acc; simpl.
  - by rewrite (left_id_L ∅ (∪)).
  - rewrite IH, reverse_cons, list_to_map_app. simpl.
    rewrite <- (assoc_L (∪)). f_equal.
    by rewrite <- insert_union_l, (left_id_L ∅ (∪)).
Qed.

Lemma peer_foldl_update cid fs m :
  (cid < length (remoteKey m))%nat →
  peer (foldl (update_one cid) m fs) cid
  = list_to_map (reverse (entry <$> fs)) ∪ peer m cid.
Proof.
  intros Hlt.
  rewrite <- foldl_insert_list_to_map.
  revert m Hlt. induction fs as [|f fs IH]; intros m Hlt; simpl; [done|].
  rewrite IH by (by rewrite length_remoteKey_update_one).
  by rewrite peer_update_one.
Qed.

Lemma peer_replace_mid cid m :
  (cid < length (remoteKey m))%nat → peer (replace_mid cid m) cid = ∅.
Proof. intros Hlt. unfold peer. by rewrite replace_mid_slot. Qed.

Lemma peer_replace cid fs m m' :
  (cid < length (remoteKey m))%nat → replace cid fs m = Done m' →
  peer m' cid = list_to_map (reverse (entry <$> fs)).
Proof.
  intros Hlt. rewrite replace_Done by done. intros [= <-].
  rewrite peer_foldl_update.
  - rewrite peer_replace_mid by done. by rewrite (right_id_L ∅ (∪)).
  - by destruct (same_but_replace_mid cid m) as (_ & -> & _).
Qed.

Lemma list_to_map_reverse {A} (l : list (string * A)) :
  NoDup l.*1 → (list_to_map (reverse l) : gmap string A) = list_to_map l.
Proof.
  intros Hnd. apply list_to_map_proper.
  - by rewrite fmap_reverse, reverse_Permutation.
  - apply reverse_Permutation.
Qed.

Lemma curWithoutDeleted_index FD id m :
  tombstone_free FD id m → (∀ n k, peer m id !! n = Some k → Name k = n) →
  curWithoutDeleted FD id m = peer m id.
Proof.
  intros Htf Hnm. unfold curWithoutDeleted, values.
  assert (Hl : ∀ (l : list (string * key)) (acc : gmap string key),
             (∀ n k, (n, k) ∈ l → peer m id !! n = Some k) →
             foldl (λ cur k,
                      let f := File (getRecord (files m) k) in
                      if protocol.IsDeleted FD (scanner.Flags f) then cur
                      else <[scanner.Name f := k]> cur) acc l.*2
             = foldl (λ cur p, <[p.1 := p.2]> cur) acc l).
  { induction l as [|[n k] l IH]; intros acc Hin; simpl; [done|].
    assert (Hp : peer m id !! n = Some k) by (apply Hin; left).
    destruct (Htf n k Hp) as (r & Hr & Hk & Hd).
    assert (Hg : getRecord (files m) k = r) by (unfold getRecord; by rewrite Hr).
    rewrite Hg, Hd.
    assert (scanner.Name (File r) = n) as ->.
    { rewrite <- (Hnm n k Hp), <- Hk. done. }
    apply IH. intros n' k' Hin'. apply Hin. by right. }
  rewrite Hl by (intros n k; apply elem_of_map_to_list).
  rewrite foldl_insert_list_to_map, (right_id_L ∅ (∪)).
  rewrite list_to_map_reverse by apply NoDup_fst_map_to_list.
  apply list_to_map_to_list.
Qed.

Lemma entry_fst fs : (entry <$> fs).*1 = scanner.Name <$> fs.
Proof. induction fs as [|f fs IH]; [done|]. rewrite !fmap_cons. by rewrite IH. Qed.

Lemma index_of_list_name fs n k :
  (list_to_map (reverse (entry <$> fs)) : gmap string key) !! n = Some k → Name k = n.
Proof.
  intros H. apply elem_of_list_to_map_2 in H.
  apply elem_of_reverse, list_elem_of_fmap in H as (f & [= -> ->] & _). done.
Qed.

Lemma equals_of_index FD id fs m :
  NoDup (scanner.Name <$> fs) → tombstone_free FD id m →
  peer m id = list_to_map (reverse (entry <$> fs)) →
  equals FD id fs m = true.
Proof.
  intros Hnd Htf Hp. unfold equals.
  rewrite curWithoutDeleted_index; [|done|].
  2:{ intros n k. rewrite Hp. apply index_of_list_name. }
  rewrite Hp, list_to_map_reverse by (by rewrite entry_fst).
  rewrite decide_False.
  - apply forallb_forall. intros f Hf. apply bool_decide_eq_true.
    rewrite (elem_of_list_to_map_1 _ (scanner.Name f) (keyFor f)); [done| |].
    + by rewrite entry_fst.
    + apply list_elem_of_fmap. exists f. split; [done|]. by apply list_elem_of_In.
  - intros Hne. apply Hne.
    rewrite map_size_list_to_map by (by rewrite entry_fst). by rewrite length_fmap.
Qed.

Lemma equals_same_keys FD id fs fs' m :
  keyFor <$> fs' ≡ₚ keyFor <$> fs →
  equals FD id fs m = true → equals FD id fs' m = true.
Proof.
  intros Hperm. unfold equals.
  assert (Hlen : length fs' = length fs).
  { apply Permutation_length in Hperm. by rewrite !length_fmap in Hperm. }
  rewrite Hlen. case_decide as Hsz; [done|].
  rewrite !forallb_forall. intros Hall f' Hf'.
  assert (Hk : keyFor f' ∈ keyFor <$> fs).
  { rewrite <- Hperm. apply list_elem_of_fmap. exists f'. split; [done|].
    by apply list_elem_of_In. }
  apply list_elem_of_fmap in Hk as (f & Hk & Hf).
  specialize (Hall f ltac:(by apply list_elem_of_In)).
  assert (scanner.Name f' = scanner.Name f) as -> by (by injection Hk).
  by rewrite Hk.
Qed.

(** C4, as the code has it: Replace(peer, files) adds one to
    changes[peer] when the list is empty or differs (per equals) from the
    peer's view without tombstones, and otherwise leaves the set as it is;
    a Replace followed by a Replace of the same keys leaves the set, and so
    Changes(peer), as the first call left it, when the list is non-empty,
    names no file twice and the index left by the first call holds no
    record with the Deleted flag. *)
Theorem Replace_counts_changes FD id fs m c :
  sized m → (id ≤ 63)%nat → changes m !! id = Some c →
  Replace_counting FD id fs m c.
Proof.
  intros Hs Hid Hc. split; [|split].
  - intros Hm. apply mutates_true in Hm. by apply Replace_mutating.
  - intros Hm. apply Replace_idle; [done|].
    destruct (mutates FD id fs m) eqn:E; [|done].
    apply mutates_true in E. done.
  - intros m1 fs' Hr Hne Hnd Htf Hperm.
    assert (He : equals FD id fs m1 = true).
    { destruct (mutates FD id fs m) eqn:E.
      - apply equals_of_index; [done..|].
        unfold Replace in Hr. rewrite decide_False in Hr by lia. rewrite E in Hr.
        refine (peer_replace _ _ _ _ _ Hr). destruct Hs as [Hs1 Hs2]. simpl. lia.
      - rewrite Replace_idle in Hr by done. injection Hr as <-.
        destruct (equals FD id fs m) eqn:E'; [done|].
        rewrite (proj2 (mutates_true FD id fs m)) in E by auto. done. }
    apply Replace_idle; [done|].
    destruct (mutates FD id fs' m1) eqn:E; [|done].
    apply mutates_true in E as [->|E].
    + apply Permutation_length in Hperm. rewrite !length_fmap in Hperm.
      destruct fs; [done|]. simpl in Hperm. lia.
    + rewrite (equals_same_keys _ _ _ _ _ Hperm He) in E. done.
Qed.

Lemma Replace_counts_changes_witness :
  sized NewSet ∧ (0 ≤ 63)%nat ∧ changes NewSet !! 0%nat = Some 0 ∧
  Replace_counting FlagDeleted12 0 [plain "a" 1] NewSet 0.
Proof.
  assert (Hs : sized NewSet) by (split; reflexivity).
  assert (Hid : (0 ≤ 63)%nat) by lia.
  assert (Hc : changes NewSet !! 0%nat = Some 0) by reflexivity.
  split; [exact Hs|]. split; [exact Hid|]. split; [exact Hc|].
  exact (Replace_counts_changes FlagDeleted12 0 [plain "a" 1] NewSet 0 Hs Hid Hc).
Defined.

(** C4, as the claim states it, fails: a Replace with the non-empty list
    the peer already holds does not add to its change counter. *)
Lemma Replace_same_list_counts_nothing :
  ¬ counts_nonempty_or_differs FlagDeleted12 0 [plain "a" 1]
      (after [CallReplace 0 [plain "a" 1]]).
Proof.
  intros H.
  assert (Hc : changes (after [CallReplace 0 [plain "a" 1]]) !! 0%nat = Some 1)
    by (vm_compute; reflexivity).
  destruct (proj2 (H 1 Hc)) as (m' & Hr & Hc').
  - left. discriminate.
  - assert (Er : Replace FlagDeleted12 0 [plain "a" 1] (after [CallReplace 0 [plain "a" 1]])
                 = Done (after [CallReplace 0 [plain "a" 1]]))
      by (vm_compute; reflexivity).
    rewrite Er in Hr. injection Hr as <-.
    rewrite Hc in Hc'. vm_compute in Hc'. discriminate Hc'.
Qed.

(** ** ReplaceWithDelete *)

Lemma IsDeleted_lor FD x : FD ≠ 0 → protocol.IsDeleted FD (Z.lor x FD) = true.
Proof.
  intros Hne. unfold protocol.IsDeleted.
  assert (E : Z.land (Z.lor x FD) FD = FD).
  { apply Z.bits_inj'. intros n _. rewrite Z.land_spec, Z.lor_spec.
    destruct (Z.testbit x n), (Z.testbit FD n); done. }
  rewrite E. apply negb_true_iff. by apply Z.eqb_neq.
Qed.

Lemma nameKeys_list fs :
  nameKeys fs = list_to_map (reverse (entry <$> fs)).
Proof.
  unfold nameKeys.
  rewrite <- (right_id_L ∅ (∪) (list_to_map _)), <- foldl_insert_list_to_map.
  generalize (∅ : gmap string key). induction fs as [|f fs IH]; intros acc; simpl; [done|].
  apply IH.
Qed.

Lemma nameKeys_None fs n :
  nameKeys fs !! n = None ↔ n ∉ (scanner.Name <$> fs).
Proof.
  rewrite nameKeys_list, <- not_elem_of_list_to_map.
  by rewrite fmap_reverse, elem_of_reverse, entry_fst.
Qed.

Lemma deletedFile_appended FD cf c :
  FD ≠ 0 →
  (protocol.IsDeleted FD (scanner.Flags cf) = true ∧ (deletedFile FD cf c).1 = cf) ∨
  (protocol.IsDeleted FD (scanner.Flags cf) = false ∧
   tombstone_of FD cf (deletedFile FD cf c).1).
Proof.
  intros Hne. unfold deletedFile.
  destruct (protocol.IsDeleted FD (scanner.Flags cf)) eqn:Ed; [by left|right].
  split; [done|]. unfold tombstone_of, lamport.Tick. simpl.
  split; [done|]. split; [done|]. split; [by apply IsDeleted_lor|].
  split; [done|]. split; [done|]. split; [done|]. split; [lia|]. by exists c.
Qed.

Lemma addDeleted_fold FD nf recs ks acc c :
  FD ≠ 0 →
  ∃ tombs c',
    foldl (addDeleted FD nf recs) (acc, c) ks = (acc ++ tombs, c') ∧
    (∀ ck, ck ∈ ks → nf !! Name ck = None →
       appended_for FD (File (getRecord recs ck)) tombs) ∧
    (∀ t, t ∈ tombs → ∃ ck, ck ∈ ks ∧ nf !! Name ck = None ∧
       (t = File (getRecord recs ck) ∨ tombstone_of FD (File (getRecord recs ck)) t)).
Proof.
  intros Hne. revert acc c. induction ks as [|ck ks IH]; intros acc c; simpl.
  - exists [], c. rewrite (right_id_L [] (++)). split; [done|].
    split; [by intros ? ?%elem_of_nil | by intros ? ?%elem_of_nil].
  - unfold addDeleted at 2. simpl.
    destruct (nf !! Name ck) as [k'|] eqn:En.
    + destruct (IH acc c) as (tombs & c' & E & Ha & Hb).
      exists tombs, c'. split; [done|]. split.
      * intros ck' [->|Hin]%elem_of_cons Hn; [congruence | by apply Ha].
      * intros t Ht. destruct (Hb t Ht) as (ck' & ? & ? & ?).
        exists ck'. split; [by right | done].
    + destruct (deletedFile FD (File (getRecord recs ck)) c) as [t c1] eqn:Et.
      destruct (IH (acc ++ [t]) c1) as (tombs & c' & E & Ha & Hb).
      exists (t :: tombs), c'. split; [by rewrite E, <- (assoc_L (++))|].
      pose proof (deletedFile_appended FD (File (getRecord recs ck)) c Hne) as Hd.
      rewrite Et in Hd. simpl in Hd. split.
      * intros ck' [->|Hin]%elem_of_cons Hn.
        -- unfold appended_for. destruct Hd as [[-> ->]|[-> Ht]].
           ++ by left.
           ++ exists t. split; [by left | done].
        -- specialize (Ha ck' Hin Hn). unfold appended_for in *.
           destruct (protocol.IsDeleted FD _); [by right|].
           destruct Ha as (t' & ? & ?). exists t'. split; [by right | done].
      * intros t' [->|Ht']%elem_of_cons.
        -- exists ck. split; [by left|]. split; [done|].
           destruct Hd as [[_ ->]|[_ Ht]]; auto.
        -- destruct (Hb t' Ht') as (ck' & ? & ? & ?).
           exists ck'. split; [by right | done].
Qed.

Lemma ReplaceWithDelete_synthesis FD id fs c m :
  FD ≠ 0 → (id ≤ 63)%nat → mutates FD id fs m = true →
  tombstone_synthesis FD id fs c m.
Proof.
  intros Hne Hid Hm.
  destruct (addDeleted_fold FD (nameKeys fs) (files m) (values (peer m LocalID)) fs c Hne)
    as (tombs & c' & E & Ha & Hb).
  exists tombs, c'. split; [|split].
  - unfold ReplaceWithDelete. rewrite decide_False by lia. rewrite Hm.
    change (withDeleted FD fs c (bump id m))
      with (foldl (addDeleted FD (nameKeys fs) (files m)) (fs, c) (values (peer m LocalID))).
    by rewrite E.
  - intros n ck Hp Hn Hnot. apply Ha.
    + unfold values. apply list_elem_of_fmap. exists (n, ck).
      split; [done | by apply elem_of_map_to_list].
    + apply nameKeys_None. by rewrite Hn.
  - intros t Ht. destruct (Hb t Ht) as (ck & Hin & Hn & Hok).
    unfold values in Hin. apply list_elem_of_fmap in Hin as ([n ck'] & -> & Hin).
    apply elem_of_map_to_list in Hin. exists n, ck'.
    split; [done|]. split; [by apply nameKeys_None | done].
Qed.

Lemma ReplaceWithDelete_example FD : FD ≠ 0 → tombstone_example FD.
Proof.
  intros Hne c [nm fl md ver sz bl sp]. simpl. intros -> -> Hd.
  set (b3 := scanner.mkFile "b" fl md 3 sz bl sp).
  set (v := Z.max c 3 + 1).
  set (t := scanner.mkFile "b" (Z.lor fl FD) md v 0 [] sp).
  set (m1 := foldl (update_one 0) (replace_mid 0 (bump 0 NewSet)) [b3]).
  assert (E1 : Replace FD LocalID [b3] NewSet = Done m1) by (vm_compute; reflexivity).
  set (mid := replace_mid 0 (bump 0 m1)).
  set (m2 := update_one 0 mid t).
  assert (Hv : 4 ≤ v) by (unfold v; lia).
  assert (Emf : files mid = ∅) by (vm_compute; reflexivity).
  assert (Emg : globalKey mid = ∅) by (vm_compute; reflexivity).
  assert (Emp : peer mid 0 = ∅) by (vm_compute; reflexivity).
  assert (Eml : length (remoteKey mid) = 64%nat) by (vm_compute; reflexivity).
  assert (E2 : ReplaceWithDelete FD LocalID [] c m1 = Done (v, m2)).
  { unfold ReplaceWithDelete, LocalID. rewrite decide_False by lia.
    change (mutates FD 0 [] m1) with true. cbv iota.
    assert (Ew : withDeleted FD [] c (bump 0 m1) = ([t], v)).
    { unfold withDeleted.
      assert (Ev : values (peer (bump 0 m1) LocalID) = [Key "b" 3])
        by (vm_compute; reflexivity).
      rewrite Ev. simpl. unfold addDeleted.
      assert (En : nameKeys [] !! "b" = None) by (vm_compute; reflexivity).
      simpl. rewrite En.
      assert (Eg : getRecord (files m1) (Key "b" 3) = mkRecord b3 1 true)
        by (vm_compute; reflexivity).
      rewrite Eg. unfold deletedFile. simpl. rewrite Hd. reflexivity. }
    rewrite Ew. rewrite replace_Done by (vm_compute; lia). reflexivity. }
  assert (Ef : files m2 !! Key "b" v = Some (mkRecord t 1 true)
               ∧ peer m2 0 !! "b" = Some (Key "b" v)).
  { unfold m2. split.
    - unfold update_one. rewrite Emp, Emf, Emg. simpl.
      rewrite !lookup_empty. rewrite decide_False by done.
      unfold newerThan. simpl. replace (0 <? v) with true by (symmetry; apply Z.ltb_lt; lia).
      simpl. unfold setGlobalFlag, getRecord.
      rewrite lookup_insert_eq. simpl. by rewrite lookup_insert_eq.
    - rewrite peer_update_one by lia. rewrite Emp. simpl. by rewrite lookup_insert_eq. }
  destruct Ef as [Ef Ep].
  exists m1, v, m2, v, (mkRecord t 1 true).
  split; [exact E1|]. split; [exact E2|]. split; [exact Hv|].
  split; [exact Ep|]. split; [exact Ef|]. simpl.
  split; [done|]. split; [done|]. split; [by apply IsDeleted_lor|]. done.
Qed.

(** C6: when ReplaceWithDelete(peer, files) mutates the set, [replace]
    runs on the list with one file appended for every name of the local
    index that the list lacks: a tombstone (Deleted flag set, no blocks,
    size 0, version ticked above the old one) when the current record is
    not deleted, the current file itself when it is.  After
    Replace(LocalID, [b@3]) on a new set, ReplaceWithDelete(LocalID, [])
    leaves a record b with the Deleted flag, a version of at least 4,
    size 0 and no blocks. *)
Theorem ReplaceWithDelete_tombstones FD id fs c m :
  FD ≠ 0 → (id ≤ 63)%nat → mutates FD id fs m = true →
  tombstone_synthesis FD id fs c m ∧ tombstone_example FD.
Proof.
  intros Hne Hid Hm. split.
  - by apply ReplaceWithDelete_synthesis.
  - by apply ReplaceWithDelete_example.
Qed.

Lemma ReplaceWithDelete_tombstones_witness :
  FlagDeleted12 ≠ 0 ∧ (0 ≤ 63)%nat ∧
  mutates FlagDeleted12 0 [] (after [CallReplace 0 [plain "b" 3]]) = true ∧
  tombstone_synthesis FlagDeleted12 0 [] 0 (after [CallReplace 0 [plain "b" 3]]) ∧
  tombstone_example FlagDeleted12.
Proof.
  assert (Hne : FlagDeleted12 ≠ 0) by (vm_compute; discriminate).
  assert (Hid : (0 ≤ 63)%nat) by lia.
  assert (Hm : mutates FlagDeleted12 0 [] (after [CallReplace 0 [plain "b" 3]]) = true)
    by reflexivity.
  split; [exact Hne|]. split; [exact Hid|]. split; [exact Hm|].
  exact (ReplaceWithDelete_tombstones FlagDeleted12 0 [] 0
           (after [CallReplace 0 [plain "b" 3]]) Hne Hid Hm).
Defined.

(** ** The invariant of admissible histories *)

Lemma peer_slot m i x : remoteKey m !! i = Some x → peer m i = default ∅ x.
Proof. intros H. unfold peer. rewrite H. by destruct x. Qed.

Lemma peer_holds m i n k :
  peer m i !! n = Some k → ∃ x, remoteKey m !! i = Some x ∧ default ∅ x !! n = Some k.
Proof.
  unfold peer. destruct (remoteKey m !! i) as [[rem|]|] eqn:E; intros H.
  - by exists (Some rem).
  - by rewrite lookup_empty in H.
  - by rewrite lookup_empty in H.
Qed.

Lemma peer_same_slots m m' i :
  remoteKey m' !! i = remoteKey m !! i → peer m' i = peer m i.
Proof. unfold peer. by intros ->. Qed.

Lemma peer_lt m i n k : peer m i !! n = Some k → (i < length (remoteKey m))%nat.
Proof. intros (x & Hx & _)%peer_holds. by eapply lookup_lt_Some. Qed.

Lemma count_insert {A} (P : A → Prop) `{∀ x, Decision (P x)} (l : list A) i x y :
  l !! i = Some x →
  (length (filter P (<[i := y]> l)) + (if decide (P x) then 1 else 0)
   = length (filter P l) + (if decide (P y) then 1 else 0))%nat.
Proof.
  revert i. induction l as [|a l IH]; intros [|i] Hi; simplify_eq/=.
  - rewrite !filter_cons. destruct (decide (P x)), (decide (P y)); simpl; lia.
  - specialize (IH i Hi). rewrite !filter_cons.
    destruct (decide (P x)), (decide (P y)), (decide (P a)); simpl in *; lia.
Qed.

Lemma uses_holder m i k :
  peer m i !! Name k = Some k → (1 ≤ uses m k)%nat.
Proof.
  intros (x & Hx & Hk)%peer_holds. unfold uses.
  assert (Hin : x ∈ filter (λ rem, default ∅ rem !! Name k = Some k) (remoteKey m)).
  { apply list_elem_of_filter. split; [done|]. by eapply list_elem_of_lookup_2. }
  destruct (filter _ _); [by apply elem_of_nil in Hin | simpl; lia].
Qed.

Lemma uses_insert m cid x rem' k :
  remoteKey m !! cid = Some x →
  (uses (set_remoteKey (<[cid := Some rem']> (remoteKey m)) m) k
   + (if decide (default ∅ x !! Name k = Some k) then 1 else 0)
   = uses m k + (if decide (rem' !! Name k = Some k) then 1 else 0))%nat.
Proof.
  intros Hx. unfold uses. simpl.
  pose proof (count_insert (λ rem : option (gmap string key),
                              default ∅ rem !! Name k = Some k)
                (remoteKey m) cid x (Some rem') Hx) as Hc.
  simpl in Hc. rewrite Hc. repeat f_equal.
Qed.

Lemma strip_lookup (fs fs' : gmap key fileRecord) k r' :
  strip <$> fs' = strip <$> fs → fs' !! k = Some r' →
  ∃ r, fs !! k = Some r ∧ File r = File r' ∧ Usage r = Usage r'.
Proof.
  intros E H. assert (E' : (strip <$> fs') !! k = (strip <$> fs) !! k) by by rewrite E.
  rewrite !lookup_fmap, H in E'. simpl in E'.
  destruct (fs !! k) as [r|]; [|done]. exists r. split; [done|].
  injection E' as E1 E2. by split.
Qed.

Lemma strip_dom (fs fs' : gmap key fileRecord) k :
  strip <$> fs' = strip <$> fs → is_Some (fs !! k) → is_Some (fs' !! k).
Proof.
  intros E [r H]. assert (E' : (strip <$> fs') !! k = (strip <$> fs) !! k) by by rewrite E.
  rewrite !lookup_fmap, H in E'. destruct (fs' !! k); [by eexists | done].
Qed.

Lemma setGlobalFlag_strip b k (fs : gmap key fileRecord) :
  is_Some (fs !! k) → strip <$> setGlobalFlag b k fs = strip <$> fs.
Proof.
  intros [r Hr]. unfold setGlobalFlag, getRecord. rewrite Hr. simpl.
  rewrite fmap_insert. apply insert_id. by rewrite lookup_fmap, Hr.
Qed.

Lemma setGlobalFlag_dom b k k' (fs : gmap key fileRecord) :
  is_Some (fs !! k') → is_Some (setGlobalFlag b k fs !! k').
Proof.
  intros H. unfold setGlobalFlag. destruct (decide (k = k')) as [->|Hne].
  - rewrite lookup_insert_eq. by eexists.
  - by rewrite lookup_insert_ne.
Qed.

Lemma base_inv_transport m m' :
  remoteKey m' = remoteKey m → length (changes m') = length (changes m) →
  strip <$> files m' = strip <$> files m →
  base_inv m → base_inv m'.
Proof.
  intros Er Ec Ef [Hs Hk Hf Hh Hu].
  assert (Ep : ∀ i, peer m' i = peer m i) by (intros i; apply peer_same_slots; by rewrite Er).
  split.
  - destruct Hs. split; congruence.
  - intros i n k. rewrite Ep. apply Hk.
  - intros k r' H. destruct (strip_lookup _ _ _ _ Ef H) as (r & Hr & <- & _). by eapply Hf.
  - intros i n k. rewrite Ep. intros H. eapply strip_dom; [done|]. by eapply Hh.
  - intros k r' H. destruct (strip_lookup _ _ _ _ Ef H) as (r & Hr & _ & <-).
    unfold uses. rewrite Er. by apply Hu.
Qed.

Lemma uses_pos_holder m k :
  (1 ≤ uses m k)%nat → ∃ i, peer m i !! Name k = Some k.
Proof.
  unfold uses. intros H.
  destruct (filter _ (remoteKey m)) as [|x l] eqn:E; [simpl in H; lia|].
  assert (Hin : x ∈ filter (λ rem, default ∅ rem !! Name k = Some k) (remoteKey m))
    by (rewrite E; left).
  apply list_elem_of_filter in Hin as [Hx Hin].
  apply list_elem_of_lookup in Hin as [i Hi].
  exists i. by rewrite (peer_slot _ _ _ Hi).
Qed.

Lemma peer_update_one_lookup cid m f i n :
  (cid < length (remoteKey m))%nat →
  peer (update_one cid m f) i !! n
  = if decide (i = cid ∧ n = scanner.Name f) then Some (keyFor f) else peer m i !! n.
Proof.
  intros Hlt. case_decide as Hd.
  - destruct Hd as [-> ->]. rewrite peer_update_one by done. by rewrite lookup_insert_eq.
  - destruct (decide (i = cid)) as [->|Hi].
    + rewrite peer_update_one by done. rewrite lookup_insert_ne; [done|].
      intros <-. by apply Hd.
    + destruct (same_but_update_one cid m f) as (_ & _ & _ & Hs).
      destruct (Hs i Hi) as [Hr _]. by rewrite (peer_same_slots _ _ _ Hr).
Qed.

(** The records after the first half of a turn of [update]. *)
Lemma files_update_one cid m f :
  peer m cid !! scanner.Name f ≠ Some (keyFor f) →
  (∀ n gk, globalKey m !! n = Some gk → is_Some (files m !! gk)) →
  strip <$> files (update_one cid m f)
  = strip <$> (<[keyFor f := match files m !! keyFor f with
                              | None => mkRecord f 1 false
                              | Some br => mkRecord (File br) (Usage br + 1) (Global br)
                              end]> (files m)).
Proof.
  intros Hne Hg. unfold update_one. rewrite decide_False by done.
  set (fk := keyFor f). set (n := scanner.Name f).
  set (r1 := match files m !! fk with
             | None => mkRecord f 1 false
             | Some br => mkRecord (File br) (Usage br + 1) (Global br)
             end).
  assert (E1 : match files m !! fk with
               | None => <[fk := mkRecord f 1 false]> (files m)
               | Some br => <[fk := mkRecord (File br) (Usage br + 1) (Global br)]> (files m)
               end = <[fk := r1]> (files m)).
  { unfold r1. by destruct (files m !! fk). }
  rewrite E1.
  assert (Hfk : is_Some (<[fk := r1]> (files m) !! fk))
    by (rewrite lookup_insert_eq; by eexists).
  destruct (globalKey m !! n) as [gk|] eqn:Egk.
  - case_decide; [done|]. destruct (newerThan fk gk); [|done]. simpl.
    rewrite setGlobalFlag_strip.
    + apply setGlobalFlag_strip.
      destruct (decide (fk = gk)) as [->|?]; [done|].
      rewrite lookup_insert_ne by done. by eapply Hg.
    + by apply setGlobalFlag_dom.
  - destruct (newerThan fk zeroKey); [|done]. simpl. by apply setGlobalFlag_strip.
Qed.

Lemma global_key_filed m :
  base_inv m → global_inv m → ∀ n gk, globalKey m !! n = Some gk → is_Some (files m !! gk).
Proof.
  intros Hb Hg n gk H. destruct (Hg n gk H) as (av & _ & [i Hi] & _).
  by eapply inv_held.
Qed.

Lemma base_inv_update_one cid m f :
  base_inv m → global_inv m → (cid < length (remoteKey m))%nat →
  0 < scanner.Version f →
  base_inv (update_one cid m f).
Proof.
  intros Hb Hg Hlt Hv.
  destruct (decide (peer m cid !! scanner.Name f = Some (keyFor f))) as [Hsk|Hne].
  { unfold update_one. by rewrite decide_True. }
  pose proof (files_update_one cid m f Hne (global_key_filed m Hb Hg)) as Ef.
  set (m' := update_one cid m f) in *.
  set (fk := keyFor f) in *. set (n := scanner.Name f) in *.
  assert (Hp : ∀ i n', peer m' i !! n'
               = if decide (i = cid ∧ n' = n) then Some fk else peer m i !! n')
    by (intros; by apply peer_update_one_lookup).
  destruct (same_but_update_one cid m f) as (_ & Hlr & Hlc & Hsame).
  destruct Hb as [[Hs1 Hs2] Hk Hf Hh Hu].
  split.
  - split; fold m' in Hlr, Hlc; congruence.
  - intros i n' k. rewrite Hp. case_decide as Hd.
    + destruct Hd as [_ ->]. intros [= <-]. split; [done | exact Hv].
    + apply Hk.
  - intros k r' H. destruct (strip_lookup _ _ _ _ Ef H) as (r & Hr & <- & _).
    destruct (decide (k = fk)) as [->|Hkf].
    + rewrite lookup_insert_eq in Hr. injection Hr as <-.
      destruct (files m !! fk) as [br|] eqn:Eb; simpl; [by eapply Hf | done].
    + rewrite lookup_insert_ne in Hr by done. by eapply Hf.
  - intros i n' k. rewrite Hp. intros H.
    eapply strip_dom; [exact Ef|].
    case_decide as Hd.
    + injection H as <-. rewrite lookup_insert_eq. by eexists.
    + destruct (decide (fk = k)) as [->|Hkf].
      * rewrite lookup_insert_eq. by eexists.
      * rewrite lookup_insert_ne by done. by eapply Hh.
  - intros k r' H. destruct (strip_lookup _ _ _ _ Ef H) as (r & Hr & _ & <-).
    destruct (lookup_lt_is_Some_2 (remoteKey m) cid Hlt) as [x Hx].
    assert (Hux : (uses m' k + (if decide (default ∅ x !! Name k = Some k) then 1 else 0)
                   = uses m k + (if decide (<[n := fk]> (peer m cid) !! Name k = Some k)
                                 then 1 else 0))%nat).
    { rewrite <- (uses_insert m cid x (<[n := fk]> (peer m cid)) k Hx).
      f_equal. unfold uses. f_equal. f_equal.
      unfold m', update_one. rewrite decide_False by done.
      repeat case_match; done. }
    rewrite <- (peer_slot _ _ _ Hx) in Hux.
    destruct (decide (k = fk)) as [->|Hkf].
    + rewrite lookup_insert_eq in Hr. injection Hr as <-.
      change (Name fk) with n in Hux.
      rewrite lookup_insert_eq in Hux.
      rewrite decide_False in Hux by done. rewrite decide_True in Hux by done.
      destruct (files m !! fk) as [br|] eqn:Eb; simpl.
      * specialize (Hu _ _ Eb). lia.
      * destruct (decide (1 ≤ uses m fk)%nat) as [Hge|]; [|lia].
        destruct (uses_pos_holder _ _ Hge) as [i Hi].
        destruct (Hh _ _ _ Hi) as [? ?]. congruence.
    + rewrite lookup_insert_ne in Hr by done. specialize (Hu _ _ Hr).
      destruct (decide (Name k = n)) as [En|En].
      * rewrite En, lookup_insert_eq in Hux.
        rewrite (decide_False (P := Some fk = Some k)) in Hux by congruence.
        lia.
      * rewrite lookup_insert_ne in Hux by done. lia.
Qed.

Lemma bit_pow c : (c < 64)%nat → bit c = 2 ^ Z.of_nat c.
Proof.
  intros Hc. unfold bit, u64. rewrite Z.shiftl_1_l.
  apply Z.mod_small. split; [lia|]. apply Z.pow_lt_mono_r; lia.
Qed.

Lemma testbit_bit c i :
  (c < 64)%nat → Z.testbit (bit c) (Z.of_nat i) = true ↔ i = c.
Proof.
  intros Hc. rewrite bit_pow by done. rewrite Z.pow2_bits_eqb by lia.
  rewrite Z.eqb_eq. lia.
Qed.

(** The global maps after a turn of [update] that changes the index. *)
Lemma update_one_global cid m f :
  peer m cid !! scanner.Name f ≠ Some (keyFor f) →
  let m' := update_one cid m f in
  let n := scanner.Name f in
  let fk := keyFor f in
  (∀ n', n' ≠ n → globalKey m' !! n' = globalKey m !! n' ∧
                   globalAvailability m' !! n' = globalAvailability m !! n') ∧
  match globalKey m !! n with
  | Some gk =>
      if decide (fk = gk) then
        globalKey m' !! n = Some gk ∧
        globalAvailability m' !! n
        = Some (Z.lor (default 0 (globalAvailability m !! n)) (bit cid))
      else if newerThan fk gk then
        globalKey m' !! n = Some fk ∧ globalAvailability m' !! n = Some (bit cid)
      else
        globalKey m' !! n = Some gk ∧
        globalAvailability m' !! n = globalAvailability m !! n
  | None =>
      if newerThan fk zeroKey then
        globalKey m' !! n = Some fk ∧ globalAvailability m' !! n = Some (bit cid)
      else
        globalKey m' !! n = None ∧
        globalAvailability m' !! n = globalAvailability m !! n
  end.
Proof.
  intros Hne. simpl. unfold update_one. rewrite decide_False by done.
  destruct (globalKey m !! scanner.Name f) as [gk|] eqn:Egk.
  - case_decide as Hd.
    + simpl. split.
      * intros n' Hn'. by rewrite lookup_insert_ne.
      * by rewrite lookup_insert_eq.
    + destruct (newerThan (keyFor f) gk); simpl.
      * split; [intros n' Hn'; by rewrite !lookup_insert_ne|].
        by rewrite !lookup_insert_eq.
      * done.
  - destruct (newerThan (keyFor f) zeroKey); simpl.
    + split; [intros n' Hn'; by rewrite !lookup_insert_ne|].
      by rewrite !lookup_insert_eq.
    + done.
Qed.

Lemma newest_of_same m m' n gk av :
  (∀ i, peer m' i !! n = peer m i !! n) → newest_of m n gk av → newest_of m' n gk av.
Proof.
  intros Hp ([i Hi] & Hmax & Hbits). split; [|split].
  - exists i. by rewrite Hp.
  - intros j k. rewrite Hp. apply Hmax.
  - intros j. rewrite Hp. apply Hbits.
Qed.

Lemma global_inv_update_one cid m f :
  base_inv m → names_known m → global_inv m → (cid < 64)%nat →
  0 < scanner.Version f →
  (∀ ck, peer m cid !! scanner.Name f = Some ck → Version ck ≤ scanner.Version f) →
  names_known (update_one cid m f) ∧ global_inv (update_one cid m f).
Proof.
  intros Hb Hkn Hg Hcid Hv Hmono.
  destruct (decide (peer m cid !! scanner.Name f = Some (keyFor f))) as [Hsk|Hne].
  { unfold update_one. by rewrite decide_True. }
  assert (Hlt : (cid < length (remoteKey m))%nat) by (destruct Hb as [[-> _] _]; done).
  destruct (update_one_global cid m f Hne) as [Hoth Hn].
  set (m' := update_one cid m f) in *.
  set (fk := keyFor f) in *. set (n := scanner.Name f) in *.
  assert (Hp : ∀ i n', peer m' i !! n'
               = if decide (i = cid ∧ n' = n) then Some fk else peer m i !! n')
    by (intros; by apply peer_update_one_lookup).
  assert (Hpo : ∀ n', n' ≠ n → ∀ i, peer m' i !! n' = peer m i !! n').
  { intros n' Hn' i. rewrite Hp. rewrite decide_False; [done|]. by intros [_ ?]. }
  assert (Hpc : peer m' cid !! n = Some fk) by (rewrite Hp; by rewrite decide_True).
  assert (Hpn : ∀ i, i ≠ cid → peer m' i !! n = peer m i !! n).
  { intros i Hi. rewrite Hp. rewrite decide_False; [done|]. by intros [? _]. }
  assert (Hcase :
    ∃ gk av, globalKey m' !! n = Some gk ∧ globalAvailability m' !! n = Some av ∧
             newest_of m' n gk av).
  { destruct (globalKey m !! n) as [gk|] eqn:Egk.
    - destruct (Hg n gk Egk) as (av & Eav & [i0 Hi0] & Hmax & Hbits).
      destruct (inv_keys m Hb _ _ _ Hi0) as [Hgn Hgv].
      case_decide as Hd.
      + destruct Hn as [Hn1 Hn2]. rewrite Eav in Hn2. simpl in Hn2.
        exists gk, (Z.lor av (bit cid)). split; [done|]. split; [done|].
        split; [|split].
        * exists cid. by rewrite Hpc, Hd.
        * intros i k. destruct (decide (i = cid)) as [->|Hi].
          -- rewrite Hpc. intros [= <-]. rewrite Hd. lia.
          -- rewrite Hpn by done. apply Hmax.
        * intros i. rewrite Z.lor_spec, orb_true_iff, testbit_bit by done.
          destruct (decide (i = cid)) as [->|Hi].
          -- rewrite Hpc, Hd. split; [done | by right].
          -- rewrite Hpn by done. rewrite Hbits. split; [by intros [?|?] | by left].
      + unfold newerThan in Hn.
        destruct (Z.ltb_spec (Version gk) (Version fk)) as [Hnew|Hold].
        * destruct Hn as [Hn1 Hn2].
          exists fk, (bit cid). split; [done|]. split; [done|].
          split; [|split].
          -- by exists cid.
          -- intros i k. destruct (decide (i = cid)) as [->|Hi].
             ++ rewrite Hpc. intros [= <-]. lia.
             ++ rewrite Hpn by done. intros Hk. specialize (Hmax _ _ Hk). lia.
          -- intros i. rewrite testbit_bit by done.
             destruct (decide (i = cid)) as [->|Hi]; [done|].
             rewrite Hpn by done. split; [done|].
             intros Hk. specialize (Hmax _ _ Hk). lia.
        * destruct Hn as [Hn1 Hn2]. rewrite Eav in Hn2.
          assert (Hlt' : Version fk < Version gk).
          { destruct (decide (Version fk = Version gk)) as [Ev|]; [|lia].
            destruct Hd. destruct gk as [gn gv]. unfold fk, keyFor in *. simpl in *.
            by subst. }
          assert (Hc : peer m cid !! n ≠ Some gk).
          { intros Hc. specialize (Hmono _ Hc). unfold fk, keyFor in Hlt'. simpl in Hlt'. lia. }
          exists gk, av. split; [done|]. split; [done|].
          split; [|split].
          -- exists i0. rewrite Hpn; [done|]. intros ->. done.
          -- intros i k. destruct (decide (i = cid)) as [->|Hi].
             ++ rewrite Hpc. intros [= <-]. lia.
             ++ rewrite Hpn by done. apply Hmax.
          -- intros i. rewrite Hbits. destruct (decide (i = cid)) as [->|Hi].
             ++ rewrite Hpc. split; [done|]. intros [= E]. by destruct Hd.
             ++ by rewrite Hpn.
    - assert (Hnone : ∀ i, peer m i !! n = None).
      { intros i. destruct (peer m i !! n) as [k|] eqn:Ek; [|done].
        destruct (Hkn _ _ _ Ek) as [? ?]. congruence. }
      assert (E0 : newerThan fk zeroKey = true) by (apply Z.ltb_lt; exact Hv).
      rewrite E0 in Hn. destruct Hn as [Hn1 Hn2].
      exists fk, (bit cid). split; [done|]. split; [done|].
      split; [|split].
      + by exists cid.
      + intros i k. destruct (decide (i = cid)) as [->|Hi].
        * rewrite Hpc. intros [= <-]. lia.
        * rewrite Hpn, Hnone by done. done.
      + intros i. rewrite testbit_bit by done.
        destruct (decide (i = cid)) as [->|Hi]; [done|].
        rewrite Hpn, Hnone by done. done. }
  split.
  - intros i n' k. destruct (decide (n' = n)) as [->|Hn'].
    + intros _. destruct Hcase as (gk & _ & -> & _). by eexists.
    + rewrite Hpo by done. destruct (Hoth n' Hn') as [-> _]. apply Hkn.
  - intros n' gk' Hgk'. destruct (decide (n' = n)) as [->|Hn'].
    + destruct Hcase as (gk & av & E1 & E2 & Hnew). rewrite E1 in Hgk'.
      injection Hgk' as <-. by exists av.
    + destruct (Hoth n' Hn') as [E1 E2]. rewrite E1 in Hgk'.
      destruct (Hg n' gk' Hgk') as (av & Eav & Hnew).
      exists av. split; [by rewrite E2|].
      apply (newest_of_same m); [|done]. intros i. by apply Hpo.
Qed.

Lemma set_inv_update_one cid m f :
  set_inv m → (cid < 64)%nat → 0 < scanner.Version f →
  (∀ ck, peer m cid !! scanner.Name f = Some ck → Version ck ≤ scanner.Version f) →
  set_inv (update_one cid m f).
Proof.
  intros (Hb & Hk & Hg) Hcid Hv Hmono. split.
  - apply base_inv_update_one; try done. by destruct Hb as [[-> _] _].
  - by apply global_inv_update_one.
Qed.

Lemma set_inv_update cid fs m :
  set_inv m → (cid < 64)%nat → admissible (peer m cid) fs = true →
  set_inv (foldl (update_one cid) m fs).
Proof.
  intros Hinv Hcid. revert m Hinv. induction fs as [|f fs IH]; intros m Hinv Hadm; [done|].
  simpl in *. apply andb_true_iff in Hadm as [Hadm Hrest].
  apply andb_true_iff in Hadm as [Hv Hold]. apply Z.ltb_lt in Hv.
  assert (Hlt : (cid < length (remoteKey m))%nat)
    by (destruct Hinv as [[[-> _] _] _]; done).
  apply IH.
  - apply set_inv_update_one; try done.
    intros ck Hck. rewrite Hck in Hold. by apply Z.leb_le.
  - by rewrite peer_update_one.
Qed.

(** *** The first loop of [replace] *)

Lemma release_other (fs : gmap key fileRecord) fk k :
  k ≠ fk → release fs fk !! k = fs !! k.
Proof.
  intros Hne. unfold release. destruct (fs !! fk) as [br|]; [|done].
  destruct (Usage br =? 1); [by rewrite lookup_delete_ne|].
  destruct (1 <? Usage br); [by rewrite lookup_insert_ne | done].
Qed.

Lemma release_at (fs : gmap key fileRecord) k :
  release fs k !! k
  = br ← fs !! k;
    if Usage br =? 1 then None
    else if 1 <? Usage br then Some (mkRecord (File br) (Usage br - 1) (Global br))
    else Some br.
Proof.
  unfold release. destruct (fs !! k) as [br|] eqn:E; simpl; [|done].
  destruct (Usage br =? 1); [by rewrite lookup_delete_eq|].
  destruct (1 <? Usage br); [by rewrite lookup_insert_eq | done].
Qed.

Lemma release_fold_other (fs : gmap key fileRecord) ks k :
  k ∉ ks → foldl release fs ks !! k = fs !! k.
Proof.
  revert fs. induction ks as [|a ks IH]; intros fs Hk; simpl; [done|].
  apply not_elem_of_cons in Hk as [Hne Hk]. rewrite IH by done. by apply release_other.
Qed.

Lemma release_fold_in (fs : gmap key fileRecord) ks k :
  NoDup ks → k ∈ ks → foldl release fs ks !! k = release fs k !! k.
Proof.
  revert fs. induction ks as [|a ks IH]; intros fs Hnd Hk; simpl.
  - by apply elem_of_nil in Hk.
  - inversion Hnd as [|? ? Ha Hnd']; subst. apply elem_of_cons in Hk as [->|Hk].
    + by apply release_fold_other.
    + rewrite IH by done. rewrite !release_at.
      rewrite release_other; [done|]. intros ->. by apply Ha.
Qed.

Lemma values_holds (rem : gmap string key) k :
  (∀ n k', rem !! n = Some k' → Name k' = n) →
  k ∈ values rem ↔ rem !! Name k = Some k.
Proof.
  intros Hw. unfold values. rewrite list_elem_of_fmap. split.
  - intros ([n k'] & -> & Hin). apply elem_of_map_to_list in Hin.
    simpl. by rewrite (Hw _ _ Hin).
  - intros H. exists (Name k, k). split; [done|]. by apply elem_of_map_to_list.
Qed.

Lemma values_NoDup (rem : gmap string key) :
  (∀ n k, rem !! n = Some k → Name k = n) → NoDup (values rem).
Proof.
  intros Hw. unfold values. apply NoDup_fmap_2_strong; [|apply NoDup_map_to_list].
  intros [n1 k1] [n2 k2] H1%elem_of_map_to_list H2%elem_of_map_to_list. simpl.
  intros <-. by rewrite <- (Hw _ _ H1), <- (Hw _ _ H2).
Qed.


Lemma replace_mid_cleared cid m :
  replace_mid cid m
  = foldl recompute_one (cleared cid m) (names (globalKey (cleared cid m))).
Proof. reflexivity. Qed.

Lemma peer_cleared cid m i :
  (cid < length (remoteKey m))%nat →
  peer (cleared cid m) i = if decide (i = cid) then ∅ else peer m i.
Proof.
  intros Hlt. unfold cleared, peer. simpl. case_decide as Hd.
  - subst. by rewrite list_lookup_insert_eq.
  - by rewrite list_lookup_insert_ne.
Qed.

Lemma base_inv_cleared cid m :
  base_inv m → (cid < 64)%nat → base_inv (cleared cid m).
Proof.
  intros [[Hs1 Hs2] Hk Hf Hh Hu] Hcid.
  assert (Hlt : (cid < length (remoteKey m))%nat) by lia.
  pose proof (peer_cleared cid m) as Hp.
  set (rem := peer m cid) in *.
  assert (Hw : ∀ n k, rem !! n = Some k → Name k = n) by (intros n k H; by eapply Hk).
  pose proof (values_NoDup rem Hw) as Hnd.
  destruct (lookup_lt_is_Some_2 (remoteKey m) cid Hlt) as [x Hx].
  assert (Hux : ∀ k, (uses (cleared cid m) k
                      + (if decide (rem !! Name k = Some k) then 1 else 0)
                      = uses m k)%nat).
  { intros k. pose proof (uses_insert m cid x ∅ k Hx) as H.
    rewrite <- (peer_slot _ _ _ Hx) in H. rewrite lookup_empty in H.
    rewrite (decide_False (P := None = Some k)) in H by done.
    rewrite Nat.add_0_r in H. rewrite <- H. done. }
  assert (Hfl : ∀ k, files (cleared cid m) !! k
                = if decide (rem !! Name k = Some k) then release (files m) k !! k
                  else files m !! k).
  { intros k. unfold cleared. simpl. fold rem. case_decide as Hd.
    - apply release_fold_in; [done|]. by apply values_holds.
    - apply release_fold_other. by rewrite values_holds. }
  split.
  - split; simpl; [by rewrite length_insert | done].
  - intros i n k. rewrite Hp by done. case_decide; [by rewrite lookup_empty | apply Hk].
  - intros k r. rewrite Hfl. case_decide; [|apply Hf].
    rewrite release_at. destruct (files m !! k) as [br|] eqn:Eb; simpl; [|done].
    destruct (Usage br =? 1); [done|].
    destruct (1 <? Usage br); intros [= <-]; simpl; by eapply Hf.
  - intros i n k. rewrite Hp by done. case_decide as Hi; [by rewrite lookup_empty|].
    intros Hik. destruct (Hh _ _ _ Hik) as [br Eb].
    rewrite Hfl. case_decide as Hd; [|by eexists].
    rewrite release_at, Eb. simpl.
    destruct (Hk _ _ _ Hik) as [<- _].
    assert (H1 : (1 ≤ uses (cleared cid m) k)%nat).
    { apply (uses_holder _ i). rewrite Hp by done. by rewrite decide_False. }
    specialize (Hux k). rewrite decide_True in Hux by done.
    specialize (Hu _ _ Eb).
    destruct (Z.eqb_spec (Usage br) 1); [lia|].
    destruct (Z.ltb_spec 1 (Usage br)); by eexists.
  - intros k r. rewrite Hfl. specialize (Hux k). case_decide as Hd.
    + rewrite release_at. destruct (files m !! k) as [br|] eqn:Eb; simpl; [|done].
      specialize (Hu _ _ Eb).
      destruct (Z.eqb_spec (Usage br) 1); [done|].
      destruct (Z.ltb_spec 1 (Usage br)); intros [= <-]; simpl; lia.
    + intros Eb. specialize (Hu _ _ Eb). lia.
Qed.

Lemma names_known_cleared cid m :
  (cid < length (remoteKey m))%nat → names_known m → names_known (cleared cid m).
Proof.
  intros Hlt Hkn i n k. rewrite peer_cleared by done.
  case_decide; [by rewrite lookup_empty | apply Hkn].
Qed.

(** *** The recalculation of the global view *)

Lemma newest_none n rest i nk na :
  (∀ x, x ∈ rest → default ∅ x !! n = None) → newest n i rest nk na = (nk, na).
Proof.
  revert i. induction rest as [|x rest IH]; intros i Hn; simpl; [done|].
  rewrite (Hn x) by left. apply IH. intros y Hy. apply Hn. by right.
Qed.

Lemma key_like_zero n : key_like n zeroKey.
Proof. intros k _ Hv Hv'. simpl in Hv'. lia. Qed.

Lemma key_like_named n nk : Name nk = n → key_like n nk.
Proof. intros Hn [kn kv] Hk _ Hv. destruct nk as [nn nv]. simpl in *. by subst. Qed.

Lemma newest_run n rest : ∀ i nk na,
  (i + length rest ≤ 64)%nat →
  (∀ j x k, rest !! j = Some x → default ∅ x !! n = Some k → Name k = n ∧ 0 < Version k) →
  key_like n nk →
  ∃ nk' na', newest n i rest nk na = (nk', na') ∧
    Version nk ≤ Version nk' ∧
    (∀ j x k, rest !! j = Some x → default ∅ x !! n = Some k → Version k ≤ Version nk') ∧
    (nk' = nk ∨ (Version nk < Version nk' ∧
                 ∃ j x, rest !! j = Some x ∧ default ∅ x !! n = Some nk')) ∧
    (∀ z : nat, Z.testbit na' (Z.of_nat z) = true ↔
       (nk' = nk ∧ Z.testbit na (Z.of_nat z) = true) ∨
       (∃ j x, z = (i + j)%nat ∧ rest !! j = Some x ∧ default ∅ x !! n = Some nk')).
Proof.
  induction rest as [|x rest IH]; intros i nk na Hlen Hw Hkl; simpl.
  - exists nk, na. split; [done|]. split; [lia|]. split; [by intros [|?] ? ? ?|].
    split; [by left|]. intros z. split; [by left|].
    intros [[_ ?]|(j & y & _ & Hj & _)]; [done | by destruct j].
  - simpl in Hlen.
    assert (Hw' : ∀ j y k, rest !! j = Some y → default ∅ y !! n = Some k →
                           Name k = n ∧ 0 < Version k).
    { intros j y k Hj. apply (Hw (S j)). done. }
    destruct (default ∅ x !! n) as [rk|] eqn:Erk.
    + destruct (Hw 0%nat x rk eq_refl Erk) as [Hrn Hrv].
      case_decide as Hd.
      * (* the same key: one more bit *)
        subst rk.
        destruct (IH (S i) nk (Z.lor na (bit i)) ltac:(lia) Hw' Hkl)
          as (nk' & na' & E & Hge & Hmax & Hsrc & Hbits).
        exists nk', na'. split; [done|]. split; [done|]. split; [|split].
        -- intros [|j] y k Hj Hk; simpl in Hj; [|by eapply Hmax].
           injection Hj as <-. rewrite Erk in Hk. injection Hk as <-. lia.
        -- destruct Hsrc as [-> |(Hlt & j & y & Hj & Hy)]; [by left|].
           right. split; [done|]. by exists (S j), y.
        -- intros z. rewrite Hbits. rewrite Z.lor_spec, orb_true_iff, testbit_bit by lia.
           split.
           ++ intros [[-> [?| ->]]|(j & y & -> & Hj & Hy)].
              ** by left.
              ** right. exists 0%nat, x. split; [lia|]. done.
              ** right. exists (S j), y. split; [lia|]. done.
           ++ intros [[-> ?]|(j & y & -> & Hj & Hy)]; [left; split; [done | by left]|].
              destruct j as [|j]; simpl in Hj.
              ** injection Hj as <-. rewrite Erk in Hy. injection Hy as <-.
                 left. split; [done|]. right. lia.
              ** right. exists j, y. split; [lia|]. done.
      * unfold newerThan. destruct (Z.ltb_spec (Version nk) (Version rk)) as [Hnew|Hold].
        -- (* a newer key *)
           destruct (IH (S i) rk (bit i) ltac:(lia) Hw' (key_like_named n rk Hrn))
             as (nk' & na' & E & Hge & Hmax & Hsrc & Hbits).
           exists nk', na'. split; [done|]. split; [lia|]. split; [|split].
           ++ intros [|j] y k Hj Hk; simpl in Hj; [|by eapply Hmax].
           injection Hj as <-. rewrite Erk in Hk. injection Hk as <-. lia.
           ++ right. split; [lia|].
              destruct Hsrc as [-> |(Hlt & j & y & Hj & Hy)]; [by exists 0%nat, x|].
              by exists (S j), y.
           ++ intros z. rewrite Hbits, testbit_bit by lia. split.
              ** intros [[-> ->]|(j & y & -> & Hj & Hy)]; right.
                 --- exists 0%nat, x. split; [lia|]. done.
                 --- exists (S j), y. split; [lia|]. done.
              ** intros [[-> ?]|(j & y & -> & Hj & Hy)]; [lia|].
                 destruct j as [|j]; simpl in Hj.
                 --- injection Hj as <-. rewrite Erk in Hy. injection Hy as <-.
                     left. split; [done | lia].
                 --- right. exists j, y. split; [lia|]. done.
        -- (* an older key *)
           assert (Hlt : Version rk < Version nk).
           { destruct (decide (Version rk = Version nk)) as [Ev|]; [|lia].
             destruct Hd. by apply Hkl. }
           destruct (IH (S i) nk na ltac:(lia) Hw' Hkl)
             as (nk' & na' & E & Hge & Hmax & Hsrc & Hbits).
           exists nk', na'. split; [done|]. split; [done|]. split; [|split].
           ++ intros [|j] y k Hj Hk; simpl in Hj; [|by eapply Hmax].
           injection Hj as <-. rewrite Erk in Hk. injection Hk as <-. lia.
           ++ destruct Hsrc as [-> |(Hlt' & j & y & Hj & Hy)]; [by left|].
              right. split; [done|]. by exists (S j), y.
           ++ intros z. rewrite Hbits. split.
              ** intros [?|(j & y & -> & Hj & Hy)]; [by left|].
                 right. exists (S j), y. split; [lia|]. done.
              ** intros [?|(j & y & -> & Hj & Hy)]; [by left|].
                 destruct j as [|j]; simpl in Hj.
                 --- injection Hj as <-. rewrite Erk in Hy. injection Hy as <-. lia.
                 --- right. exists j, y. split; [lia|]. done.
    + destruct (IH (S i) nk na ltac:(lia) Hw' Hkl)
        as (nk' & na' & E & Hge & Hmax & Hsrc & Hbits).
      exists nk', na'. split; [done|]. split; [done|]. split; [|split].
      * intros [|j] y k Hj Hk; simpl in Hj; [|by eapply Hmax].
        injection Hj as <-. by rewrite Erk in Hk.
      * destruct Hsrc as [-> |(Hlt' & j & y & Hj & Hy)]; [by left|].
        right. split; [done|]. by exists (S j), y.
      * intros z. rewrite Hbits. split.
        -- intros [?|(j & y & -> & Hj & Hy)]; [by left|].
           right. exists (S j), y. split; [lia|]. done.
        -- intros [?|(j & y & -> & Hj & Hy)]; [by left|].
           destruct j as [|j]; simpl in Hj.
           ++ injection Hj as <-. by rewrite Erk in Hy.
           ++ right. exists j, y. split; [lia|]. done.
Qed.

Lemma newest_top m n :
  base_inv m →
  ∃ nk na, newest n 0 (remoteKey m) zeroKey 0 = (nk, na) ∧
    (((∀ i, peer m i !! n = None) ∧ na = 0) ∨ (na ≠ 0 ∧ newest_of m n nk na)).
Proof.
  intros Hb.
  assert (Hw : ∀ j x k, remoteKey m !! j = Some x → default ∅ x !! n = Some k →
                        Name k = n ∧ 0 < Version k).
  { intros j x k Hj Hk. apply (inv_keys m Hb j). by rewrite (peer_slot _ _ _ Hj). }
  destruct (newest_run n (remoteKey m) 0 zeroKey 0
              ltac:(destruct Hb as [[-> _] _]; lia) Hw (key_like_zero n))
    as (nk & na & E & _ & Hmax & Hsrc & Hbits).
  destruct Hsrc as [-> |(_ & j & y & Hj & Hy)].
  - assert (Hnone : ∀ x, x ∈ remoteKey m → default ∅ x !! n = None).
    { intros x Hx. apply list_elem_of_lookup in Hx as [i Hi].
      destruct (default ∅ x !! n) as [k|] eqn:Ek; [|done].
      destruct (Hw _ _ _ Hi Ek) as [_ Hpos]. specialize (Hmax _ _ _ Hi Ek).
      simpl in Hmax. lia. }
    rewrite (newest_none n _ 0 zeroKey 0 Hnone) in E. injection E as <-.
    exists zeroKey, 0. split; [by apply newest_none|]. left. split; [|done].
    intros i. destruct (peer m i !! n) as [k|] eqn:Ek; [|done].
    destruct (peer_holds _ _ _ _ Ek) as (x & Hx & Hxk).
    rewrite (Hnone x) in Hxk; [done|]. by eapply list_elem_of_lookup_2.
  - exists nk, na. split; [done|]. right.
    assert (Hb' : ∀ z : nat, Z.testbit na (Z.of_nat z) = true ↔ peer m z !! n = Some nk).
    { intros z. rewrite Hbits. split.
      - intros [[_ Hz]|(j' & y' & -> & Hj' & Hy')]; [by rewrite Z.bits_0 in Hz|].
        simpl. by rewrite (peer_slot _ _ _ Hj').
      - intros Hz. right. destruct (peer_holds _ _ _ _ Hz) as (y' & Hy1 & Hy2).
        by exists z, y'. }
    assert (Hpj : peer m j !! n = Some nk) by (by rewrite (peer_slot _ _ _ Hj)).
    split.
    + intros ->. apply Hb' in Hpj. by rewrite Z.bits_0 in Hpj.
    + split; [by exists j|]. split; [|done].
      intros i' k' Hk'. destruct (peer_holds _ _ _ _ Hk') as (y' & Hy1 & Hy2).
      by eapply Hmax.
Qed.

Lemma recompute_one_global m n0 n :
  let r := newest n0 0 (remoteKey m) zeroKey 0 in
  globalKey (recompute_one m n0) !! n
  = (if decide (n = n0) then (if r.2 =? 0 then None else Some r.1) else globalKey m !! n) ∧
  globalAvailability (recompute_one m n0) !! n
  = (if decide (n = n0) then (if r.2 =? 0 then None else Some r.2)
     else globalAvailability m !! n).
Proof.
  simpl. unfold recompute_one. destruct (newest n0 0 (remoteKey m) zeroKey 0) as [nk na].
  simpl. destruct (na =? 0); simpl; case_decide as Hd; subst;
    rewrite ?lookup_delete_eq, ?lookup_insert_eq, ?lookup_delete_ne, ?lookup_insert_ne by done;
    done.
Qed.

Lemma remoteKey_recompute_one m n : remoteKey (recompute_one m n) = remoteKey m.
Proof.
  unfold recompute_one. destruct (newest _ _ _ _ _) as [nk na]. by destruct (na =? 0).
Qed.

Lemma recompute_fold_global ns : ∀ m n,
  let r := newest n 0 (remoteKey m) zeroKey 0 in
  globalKey (foldl recompute_one m ns) !! n
  = (if decide (n ∈ ns) then (if r.2 =? 0 then None else Some r.1) else globalKey m !! n) ∧
  globalAvailability (foldl recompute_one m ns) !! n
  = (if decide (n ∈ ns) then (if r.2 =? 0 then None else Some r.2)
     else globalAvailability m !! n).
Proof.
  induction ns as [|n0 ns IH]; intros m n r.
  - destruct (decide (n ∈ [])) as [Hin|_]; [by apply elem_of_nil in Hin | done].
  - cbn [foldl]. destruct (IH (recompute_one m n0) n) as [E1 E2].
    rewrite remoteKey_recompute_one in E1, E2. fold r in E1, E2. rewrite E1, E2.
    destruct (recompute_one_global m n0 n) as [F1 F2]. fold r in F1, F2.
    destruct (decide (n ∈ ns)) as [Hin|Hin].
    + destruct (decide (n ∈ n0 :: ns)) as [_|Hn]; [done|]. destruct Hn. by right.
    + rewrite F1, F2. destruct (decide (n = n0)) as [->|Hne].
      * destruct (decide (n0 ∈ n0 :: ns)) as [_|Hn]; [done|]. destruct Hn. by left.
      * destruct (decide (n ∈ n0 :: ns)) as [[?|?]%elem_of_cons|_]; done.
Qed.

Lemma recompute_fold_files ns : ∀ m,
  (∀ n, let r := newest n 0 (remoteKey m) zeroKey 0 in
        r.2 ≠ 0 → is_Some (files m !! r.1)) →
  strip <$> files (foldl recompute_one m ns) = strip <$> files m.
Proof.
  induction ns as [|n0 ns IH]; intros m Hm; simpl; [done|].
  assert (E : strip <$> files (recompute_one m n0) = strip <$> files m).
  { specialize (Hm n0). simpl in Hm. unfold recompute_one.
    destruct (newest n0 0 (remoteKey m) zeroKey 0) as [nk na]. simpl in Hm.
    destruct (Z.eqb_spec na 0); [done|]. simpl. by apply setGlobalFlag_strip, Hm. }
  rewrite IH; [done|].
  intros n. simpl. rewrite remoteKey_recompute_one. intros Hna.
  eapply strip_dom; [exact E|]. by apply Hm.
Qed.

Lemma set_inv_replace_mid cid m :
  base_inv m → names_known m → (cid < 64)%nat → set_inv (replace_mid cid m).
Proof.
  intros Hb Hkn Hcid.
  assert (Hlt : (cid < length (remoteKey m))%nat) by (destruct Hb as [[-> _] _]; done).
  pose proof (base_inv_cleared cid m Hb Hcid) as Hbc.
  pose proof (names_known_cleared cid m Hlt Hkn) as Hkc.
  rewrite replace_mid_cleared.
  set (mc := cleared cid m) in *. set (ns := names (globalKey mc)).
  set (m3 := foldl recompute_one mc ns).
  assert (Er : remoteKey m3 = remoteKey mc) by apply remoteKey_foldl_recompute.
  assert (Ep : ∀ i, peer m3 i = peer mc i) by (intros i; apply peer_same_slots; by rewrite Er).
  assert (Hfiles : ∀ n, let r := newest n 0 (remoteKey mc) zeroKey 0 in
                        r.2 ≠ 0 → is_Some (files mc !! r.1)).
  { intros n. cbv zeta. destruct (newest_top mc n Hbc) as (nk & na & -> & Hcase).
    cbn [fst snd]. intros Hna. destruct Hcase as [[_ ?]|[_ ([i Hi] & _)]]; [done|]. by eapply inv_held. }
  assert (Hns : ∀ n, is_Some (globalKey mc !! n) → n ∈ ns).
  { intros n [gk Hgk]. unfold ns, names. apply list_elem_of_fmap. exists (n, gk).
    split; [done|]. by apply elem_of_map_to_list. }
  assert (Hns' : ∀ n, n ∈ ns → is_Some (globalKey mc !! n)).
  { intros n. unfold ns, names. intros ([n' gk] & -> & Hin)%list_elem_of_fmap.
    apply elem_of_map_to_list in Hin. by eexists. }
  split; [|split].
  - apply (base_inv_transport mc); try done.
    + unfold m3. by rewrite changes_foldl_recompute.
    + by apply recompute_fold_files.
  - intros i n k. rewrite Ep. intros Hik.
    destruct (recompute_fold_global ns mc n) as [E1 _]. cbv zeta in E1. fold m3 in E1.
    rewrite E1. rewrite decide_True by (apply Hns; by eapply Hkc).
    destruct (newest_top mc n Hbc) as (nk & na & -> & Hcase). cbn [fst snd].
    destruct Hcase as [[Hnone _]|[Hna _]]; [by rewrite Hnone in Hik|].
    destruct (Z.eqb_spec na 0); [done | by eexists].
  - intros n gk Hgk.
    destruct (recompute_fold_global ns mc n) as [E1 E2]. cbv zeta in E1, E2.
    fold m3 in E1, E2. rewrite E1 in Hgk. rewrite E2.
    destruct (decide (n ∈ ns)) as [Hin|Hin].
    + destruct (newest_top mc n Hbc) as (nk & na & E & Hcase). rewrite E in *.
      cbn [fst snd] in *.
      destruct (Z.eqb_spec na 0); [done|]. injection Hgk as <-.
      exists na. split; [done|].
      destruct Hcase as [[_ ?]|[_ Hnew]]; [done|].
      apply (newest_of_same mc); [|done]. intros i. by rewrite Ep.
    + destruct Hin. apply Hns. by eexists.
Qed.

Lemma set_inv_replace cid fs m m' :
  base_inv m → names_known m → (cid < 64)%nat → admissible ∅ fs = true →
  replace cid fs m = Done m' → set_inv m'.
Proof.
  intros Hb Hkn Hcid Hadm.
  assert (Hlt : (cid < length (remoteKey m))%nat) by (destruct Hb as [[-> _] _]; done).
  rewrite replace_Done by done. intros [= <-].
  apply set_inv_update; [by apply set_inv_replace_mid | done |].
  by rewrite peer_replace_mid.
Qed.

Lemma set_inv_same m m' :
  remoteKey m' = remoteKey m → files m' = files m →
  globalKey m' = globalKey m → globalAvailability m' = globalAvailability m →
  length (changes m') = length (changes m) →
  set_inv m → set_inv m'.
Proof.
  intros Er Ef Egk Ega Ec (Hb & Hkn & Hg).
  assert (Ep : ∀ i, peer m' i = peer m i) by (intros i; apply peer_same_slots; by rewrite Er).
  split; [|split].
  - apply (base_inv_transport m); try done. by rewrite Ef.
  - intros i n k. rewrite Ep, Egk. apply Hkn.
  - intros n gk. rewrite Egk, Ega. intros Hgk.
    destruct (Hg n gk Hgk) as (av & Eav & Hnew). exists av. split; [done|].
    apply (newest_of_same m); [|done]. intros i. by rewrite Ep.
Qed.

Lemma set_inv_bump id m : set_inv m → set_inv (bump id m).
Proof. apply set_inv_same; try done. simpl. by rewrite length_alter. Qed.

Lemma peer_NewSet i : peer NewSet i = ∅.
Proof.
  unfold peer. destruct (remoteKey NewSet !! i) as [[rem|]|] eqn:E; try done.
  change (remoteKey NewSet) with (replicate 64 (@None (gmap string key))) in E.
  by apply lookup_replicate in E as [? _].
Qed.

Lemma set_inv_NewSet : set_inv NewSet.
Proof.
  split; [split|split].
  - by split.
  - intros i n k. by rewrite peer_NewSet, lookup_empty.
  - intros k r. simpl. by rewrite lookup_empty.
  - intros i n k. by rewrite peer_NewSet, lookup_empty.
  - intros k r. simpl. by rewrite lookup_empty.
  - intros i n k. by rewrite peer_NewSet, lookup_empty.
  - intros n gk. simpl. by rewrite lookup_empty.
Qed.

(** *** The list of ReplaceWithDelete is admissible *)

Lemma admissible_app rem l1 l2 :
  admissible rem (l1 ++ l2)
  = admissible rem l1
    && admissible (foldl (λ r f, <[scanner.Name f := keyFor f]> r) rem l1) l2.
Proof.
  revert rem. induction l1 as [|f l1 IH]; intros rem; simpl; [done|].
  rewrite IH. by rewrite andb_assoc.
Qed.

Lemma admissible_fresh rem l :
  NoDup (scanner.Name <$> l) →
  (∀ f, f ∈ l → rem !! scanner.Name f = None ∧ 0 < scanner.Version f) →
  admissible rem l = true.
Proof.
  revert rem. induction l as [|f l IH]; intros rem Hnd Hl; simpl; [done|].
  rewrite fmap_cons in Hnd. inversion Hnd as [|? ? Hf Hnd']; subst.
  destruct (Hl f ltac:(left)) as [-> Hv].
  rewrite (proj2 (Z.ltb_lt _ _) Hv). simpl.
  apply IH; [done|]. intros f' Hf'. destruct (Hl f' ltac:(by right)) as [Hn' Hv'].
  split; [|done]. rewrite lookup_insert_ne; [done|].
  intros E. apply Hf. rewrite E. apply list_elem_of_fmap. by exists f'.
Qed.

Lemma deletedFile_name FD cf c :
  scanner.Name (deletedFile FD cf c).1 = scanner.Name cf ∧
  scanner.Version cf ≤ scanner.Version (deletedFile FD cf c).1.
Proof.
  unfold deletedFile. destruct (protocol.IsDeleted FD _); simpl; (split; [done | lia]).
Qed.

Lemma addDeleted_names FD nf recs ks acc c :
  ∃ tombs c',
    foldl (addDeleted FD nf recs) (acc, c) ks = (acc ++ tombs, c') ∧
    scanner.Name <$> tombs
    = (λ ck, scanner.Name (File (getRecord recs ck)))
        <$> filter (λ ck, nf !! Name ck = None) ks ∧
    (∀ t, t ∈ tombs → ∃ ck, ck ∈ ks ∧
       scanner.Version (File (getRecord recs ck)) ≤ scanner.Version t).
Proof.
  revert acc c. induction ks as [|ck ks IH]; intros acc c; simpl.
  - exists [], c. rewrite (right_id_L [] (++)). split; [done|]. split; [done|].
    by intros ? ?%elem_of_nil.
  - unfold addDeleted at 2. simpl. rewrite filter_cons.
    destruct (nf !! Name ck) as [k'|] eqn:En.
    + rewrite decide_False by done.
      destruct (IH acc c) as (tombs & c' & E & Hn & Hv).
      exists tombs, c'. split; [done|]. split; [done|].
      intros t Ht. destruct (Hv t Ht) as (ck' & ? & ?). exists ck'. split; [by right | done].
    + rewrite decide_True by done.
      pose proof (deletedFile_name FD (File (getRecord recs ck)) c) as [Hdn Hdv].
      destruct (deletedFile FD (File (getRecord recs ck)) c) as [t c1] eqn:Et.
      simpl in Hdn, Hdv.
      destruct (IH (acc ++ [t]) c1) as (tombs & c' & E & Hn & Hv).
      exists (t :: tombs), c'. split; [by rewrite E, <- (assoc_L (++))|]. split.
      * rewrite !fmap_cons. by rewrite Hn, Hdn.
      * intros t' [->|Ht']%elem_of_cons.
        -- exists ck. split; [by left | done].
        -- destruct (Hv t' Ht') as (ck' & ? & ?). exists ck'. split; [by right | done].
Qed.

Lemma names_foldl_insert fs (rem : gmap string key) n :
  foldl (λ r f, <[scanner.Name f := keyFor f]> r) rem fs !! n = None ↔
  rem !! n = None ∧ n ∉ (scanner.Name <$> fs).
Proof.
  revert rem. induction fs as [|f fs IH]; intros rem; simpl.
  - split; [intros ?; split; [done | apply not_elem_of_nil] | by intros [? _]].
  - rewrite IH, not_elem_of_cons.
    destruct (decide (n = scanner.Name f)) as [->|Hne].
    + rewrite lookup_insert_eq. split; [by intros [? _] | by intros (_ & ? & _)].
    + rewrite lookup_insert_ne by done. tauto.
Qed.

Lemma withDeleted_admissible FD id fs c m :
  base_inv m → admissible ∅ fs = true →
  admissible ∅ (withDeleted FD fs c (bump id m)).1 = true.
Proof.
  intros Hb Hadm.
  change (withDeleted FD fs c (bump id m))
    with (foldl (addDeleted FD (nameKeys fs) (files m)) (fs, c) (values (peer m LocalID))).
  set (rem := peer m LocalID).
  assert (Hw : ∀ n k, rem !! n = Some k → Name k = n) by (intros n k H; by eapply inv_keys).
  destruct (addDeleted_names FD (nameKeys fs) (files m) (values rem) fs c)
    as (tombs & c' & E & Hn & Hv).
  rewrite E. simpl. rewrite admissible_app, Hadm. simpl.
  assert (Hrec : ∀ ck, ck ∈ values rem →
            scanner.Name (File (getRecord (files m) ck)) = Name ck ∧
            scanner.Version (File (getRecord (files m) ck)) = Version ck ∧
            0 < Version ck).
  { intros ck Hck. apply (values_holds _ _ Hw) in Hck.
    destruct (inv_held m Hb _ _ _ Hck) as [r Hr].
    pose proof (inv_filed m Hb _ _ Hr) as Hk.
    destruct (inv_keys m Hb _ _ _ Hck) as [_ Hpos].
    unfold getRecord. rewrite Hr. simpl. rewrite <- Hk. simpl. rewrite <- Hk in Hpos. done. }
  apply admissible_fresh.
  - rewrite Hn. apply NoDup_fmap_2_strong.
    + intros k1 k2 [_ H1]%list_elem_of_filter [_ H2]%list_elem_of_filter.
      destruct (Hrec k1 H1) as (-> & _ & _). destruct (Hrec k2 H2) as (-> & _ & _).
      intros En. apply (values_holds _ _ Hw) in H1, H2.
      rewrite En in H1. rewrite H1 in H2. by injection H2.
    + apply list.NoDup_filter. by apply values_NoDup.
  - intros t Ht. split.
    + apply names_foldl_insert. split; [done|].
      assert (Hin : scanner.Name t ∈ scanner.Name <$> tombs)
        by (apply list_elem_of_fmap; by exists t).
      rewrite Hn in Hin. apply list_elem_of_fmap in Hin as (ck & Hck & Hin).
      apply list_elem_of_filter in Hin as [Hnone Hin].
      destruct (Hrec ck Hin) as (Hnm & _ & _). rewrite Hck, Hnm.
      by apply nameKeys_None.
    + destruct (Hv t Ht) as (ck & Hck & Hle).
      destruct (Hrec ck Hck) as (_ & Hver & Hpos). lia.
Qed.

Lemma set_inv_exec FD cl w w' :
  set_inv w.2 → admissible_call cl w = true → exec FD cl w = Done w' → set_inv w'.2.
Proof.
  destruct w as [c m], w' as [c' m']. simpl. intros Hinv Hadm.
  destruct cl as [id fs|id fs|id fs]; simpl in *.
  - unfold Replace. case_decide as Hid; [done|].
    destruct (mutates FD id fs m).
    + destruct (replace id fs (bump id m)) as [m''|] eqn:E; intros [= <- <-].
      destruct (set_inv_bump id m Hinv) as (Hb & Hkn & _).
      apply (set_inv_replace id fs (bump id m) m'' Hb Hkn ltac:(lia) Hadm E).
    + by intros [= <- <-].
  - unfold ReplaceWithDelete. case_decide as Hid; [done|].
    destruct (mutates FD id fs m).
    + pose proof (withDeleted_admissible FD id fs c m (proj1 Hinv) Hadm) as Hadm'.
      destruct (withDeleted FD fs c (bump id m)) as [fs' c''].
      destruct (replace id fs' (bump id m)) as [m''|] eqn:E; intros [= <- <-].
      destruct (set_inv_bump id m Hinv) as (Hb & Hkn & _).
      apply (set_inv_replace id fs' (bump id m) m'' Hb Hkn ltac:(lia) Hadm' E).
    + by intros [= <- <-].
  - unfold Update, update.
    destruct (remoteKey m !! id) as [[rem|]|] eqn:E; try done.
    intros [= <- <-]. apply set_inv_bump, set_inv_update; [done| |done].
    apply lookup_lt_Some in E. destruct Hinv as [[[Hl _] _] _]. lia.
Qed.

Lemma set_inv_reachable FD w : reachable FD w → set_inv w.2.
Proof.
  induction 1 as [c|cl w w' _ IH Hadm Hex]; [apply set_inv_NewSet|].
  by eapply set_inv_exec.
Qed.

Lemma set_inv_view m : set_inv m → global_view_correct m.
Proof.
  intros (_ & Hkn & Hg) n (i & k & Hik).
  destruct (Hkn _ _ _ Hik) as [gk Hgk].
  destruct (Hg _ _ Hgk) as (av & Hav & Hnew). by exists gk, av.
Qed.

(** ** The global view *)

(** C2, as the code has it: in every set reached from a new one by calls
    that return and in which every file of a list has a positive version
    and none lowers the version that the calling peer holds for its name
    when [update] comes to it, each name present in a peer index has a
    global key that some peer holds for the name, of the greatest version
    over all peer indices, and the bits of its availability are exactly
    the peers whose entry for the name is the global key. *)
Theorem global_view_of_admissible_histories FD w :
  reachable FD w → global_view_correct w.2.
Proof. intros H. by apply set_inv_view, (set_inv_reachable FD). Qed.

Lemma global_view_of_admissible_histories_witness :
  reachable FlagDeleted12 (0, after three_peers) ∧
  global_view_correct (after three_peers).
Proof.
  assert (H : reachable FlagDeleted12 (0, after three_peers)).
  { apply (reach_call _ (CallReplace 2 [plain "a" 7])
             (0, after [CallReplace 0 [plain "a" 5]; CallReplace 1 [plain "a" 7]]));
      [|reflexivity | vm_compute; reflexivity].
    apply (reach_call _ (CallReplace 1 [plain "a" 7]) (0, after [CallReplace 0 [plain "a" 5]]));
      [|reflexivity | vm_compute; reflexivity].
    apply (reach_call _ (CallReplace 0 [plain "a" 5]) (0, NewSet));
      [|reflexivity | vm_compute; reflexivity].
    apply reach_new. }
  split; [exact H|].
  exact (global_view_of_admissible_histories FlagDeleted12 (0, after three_peers) H).
Defined.

(** C2, as the claim states it, fails.  A file of version 0 never becomes
    global: after Replace(0, [a@0]) the name a is in the index of peer 0
    and has no global key.  And a list that lowers a version leaves the
    old global key behind: after Replace(0, [a@7]) and Update(0, [a@5])
    the global key of a is still a@7, with the bit of peer 0, which now
    holds a@5. *)
Lemma global_view_fails :
  ¬ global_view_correct (after version_zero) ∧
  ¬ global_view_correct (after version_lowered).
Proof.
  split.
  - intros H. destruct (H "a") as (gk & av & Hgk & _).
    + exists 0%nat, (Key "a" 0). vm_compute. reflexivity.
    + vm_compute in Hgk. discriminate Hgk.
  - intros H. destruct (H "a") as (gk & av & Hgk & Hav & _ & _ & Hbits).
    + exists 0%nat, (Key "a" 5). vm_compute. reflexivity.
    + assert (Eg : globalKey (after version_lowered) !! "a" = Some (Key "a" 7))
        by (vm_compute; reflexivity).
      assert (Ea : globalAvailability (after version_lowered) !! "a" = Some 1)
        by (vm_compute; reflexivity).
      assert (Ep : peer (after version_lowered) 0 !! "a" = Some (Key "a" 5))
        by (vm_compute; reflexivity).
      rewrite Eg in Hgk. injection Hgk as <-.
      rewrite Ea in Hav. injection Hav as <-.
      specialize (Hbits 0%nat). rewrite Ep in Hbits.
      destruct Hbits as [Hb _]. specialize (Hb eq_refl). discriminate Hb.
Qed.

(** ** Node identifiers *)

(** C7 fails on the code: NewNodeID returns the zero identifier for every
    certificate.  [hf.Sum(n[:])] appends the digest to a slice that is
    full already, so the digest goes to a fresh array (or, were the digest
    empty, nowhere) and [n] keeps its zero bytes; it equals the SHA-256
    digest only if that is all zero. *)
Theorem NewNodeID_is_zero sha256 rawCert :
  protocol.NewNodeID sha256 rawCert = protocol.zeroNodeID ∧
  (sha256 rawCert ≠ protocol.zeroNodeID →
   protocol.NewNodeID sha256 rawCert ≠ sha256 rawCert).
Proof.
  assert (E : protocol.NewNodeID sha256 rawCert = protocol.zeroNodeID).
  { unfold protocol.NewNodeID, protocol.append, protocol.whole. simpl.
    destruct (sha256 rawCert) as [|d ds] eqn:Ed; simpl; [reflexivity|].
    destruct (length ds); reflexivity. }
  split; [exact E|]. intros Hne. rewrite E. congruence.
Qed.

Lemma alpha_all (P : ascii → bool) :
  forallb P protocol.encodeStd = true → ∀ c, alpha c → P c = true.
Proof.
  intros H c Hc. rewrite forallb_forall in H. apply H. by apply list_elem_of_In.
Qed.

Lemma alpha_not_pad c : alpha c → c ≠ "="%char.
Proof.
  intros Hc. apply (alpha_all (λ c, negb (bool_decide (c = "="%char)))) in Hc; [|reflexivity].
  intros ->. done.
Qed.

Lemma alpha_not_hyphen c : alpha c → c ≠ "-"%char.
Proof.
  intros Hc. apply (alpha_all (λ c, negb (bool_decide (c = "-"%char)))) in Hc; [|reflexivity].
  intros ->. done.
Qed.

Lemma alpha_not_space c : alpha c → c ≠ " "%char.
Proof.
  intros Hc. apply (alpha_all (λ c, negb (bool_decide (c = " "%char)))) in Hc; [|reflexivity].
  intros ->. done.
Qed.

Lemma alpha_not_newline c : alpha c → ¬ protocol.newline c.
Proof.
  intros Hc.
  apply (alpha_all (λ c, negb (bool_decide (protocol.newline c)))) in Hc; [|reflexivity].
  intros Hn. by rewrite bool_decide_eq_true_2 in Hc.
Qed.

Lemma alpha_upper c : alpha c → protocol.upper c = c.
Proof.
  intros Hc. apply (alpha_all (λ c, bool_decide (protocol.upper c = c))) in Hc; [|reflexivity].
  by apply bool_decide_eq_true in Hc.
Qed.

Lemma alpha_decodeMap c : alpha c → is_Some (protocol.decodeMap c).
Proof.
  intros Hc.
  apply (alpha_all (λ c, bool_decide (is_Some (protocol.decodeMap c)))) in Hc; [|reflexivity].
  by apply bool_decide_eq_true in Hc.
Qed.

Lemma b32char_alpha v : alpha (protocol.b32char v).
Proof.
  unfold alpha, protocol.b32char. apply list_elem_of_In, nth_In.
  change (length protocol.encodeStd) with 32%nat.
  assert (0 ≤ Z.land v 31 < 32).
  { change 31 with (Z.ones 5). rewrite Z.land_ones by lia. apply Z.mod_pos_bound. lia. }
  lia.
Qed.

Lemma luhn32_alpha s : alpha (protocol.luhn32 s).
Proof. apply b32char_alpha. Qed.

Lemma trimLeft_keep c s : Forall (λ x, x ≠ c) s → protocol.trimLeft c s = s.
Proof. intros H. destruct H as [|x s Hx Hs]; simpl; [done|]. by rewrite decide_False. Qed.

Lemma trimLeft_pad c k s :
  protocol.trimLeft c (replicate k c ++ s) = protocol.trimLeft c s.
Proof. induction k as [|k IH]; simpl; [done|]. by rewrite decide_True. Qed.

Lemma Trim_pad c k s :
  Forall (λ x, x ≠ c) s → protocol.Trim c (s ++ replicate k c) = s.
Proof.
  intros Hs. unfold protocol.Trim. destruct Hs as [|x s Hx Hs].
  - rewrite app_nil_l. rewrite <- (app_nil_r (replicate k c)), trimLeft_pad. done.
  - assert (E1 : protocol.trimLeft c ((x :: s) ++ replicate k c)
                 = (x :: s) ++ replicate k c) by (simpl; by rewrite decide_False).
    rewrite E1, reverse_app, reverse_replicate, trimLeft_pad.
    rewrite trimLeft_keep; [by rewrite reverse_involutive|].
    apply Forall_reverse. by constructor.
Qed.

Lemma Trim_keep c s : Forall (λ x, x ≠ c) s → protocol.Trim c s = s.
Proof. intros Hs. rewrite <- (app_nil_r s) at 1. by apply (Trim_pad c 0). Qed.

Lemma Remove_keep c s : Forall (λ x, x ≠ c) s → protocol.Remove c s = s.
Proof.
  unfold protocol.Remove. induction 1 as [|x s Hx Hs IH]; [done|].
  rewrite filter_cons, decide_True by done. by rewrite IH.
Qed.

Lemma Remove_trimLeft c s :
  protocol.Remove c (protocol.trimLeft c s) = protocol.Remove c s.
Proof.
  unfold protocol.Remove. induction s as [|x s IH]; simpl; [done|].
  case_decide as Hx; [|done]. subst. rewrite filter_cons, decide_False by (by intros ?). done.
Qed.

Lemma Remove_reverse c s :
  protocol.Remove c (reverse s) = reverse (protocol.Remove c s).
Proof. unfold protocol.Remove. by rewrite list.filter_reverse. Qed.

Lemma Remove_Trim c s : protocol.Remove c (protocol.Trim c s) = protocol.Remove c s.
Proof.
  unfold protocol.Trim.
  by rewrite Remove_reverse, Remove_trimLeft, Remove_reverse, Remove_trimLeft,
    reverse_involutive.
Qed.

Lemma Remove_app c s t :
  protocol.Remove c (s ++ t) = protocol.Remove c s ++ protocol.Remove c t.
Proof. unfold protocol.Remove. apply list.filter_app. Qed.

Lemma Remove_group9 fuel s :
  Forall (λ x, x ≠ "-"%char) s →
  protocol.Remove "-"%char (protocol.group9 fuel s) = s.
Proof.
  revert s. induction fuel as [|fuel IH]; intros s Hs; simpl; [by apply Remove_keep|].
  destruct (_ && _).
  - rewrite Remove_app. rewrite (Remove_keep _ (take 9 s)) by (by apply Forall_take).
    unfold protocol.Remove at 1. rewrite filter_cons, decide_False by (by intros ?).
    fold (protocol.Remove "-"%char (protocol.group9 fuel (drop 9 s))).
    rewrite IH by (by apply Forall_drop). apply take_drop.
  - destruct Hs as [|x s Hx Hs]; [done|].
    unfold protocol.Remove. rewrite filter_cons, decide_True by done.
    fold (protocol.Remove "-"%char (protocol.group9 fuel s)). by rewrite IH.
Qed.


Lemma group9_idchar fuel s : Forall alpha s → Forall idchar (protocol.group9 fuel s).
Proof.
  revert s. induction fuel as [|fuel IH]; intros s Hs; simpl.
  - eapply list.Forall_impl; [exact Hs|]. intros ? ?. by left.
  - destruct (_ && _).
    + apply Forall_app. split.
      * apply Forall_take. eapply list.Forall_impl; [exact Hs|]. intros ? ?. by left.
      * constructor; [by right|]. apply IH. by apply Forall_drop.
    + destruct Hs as [|x s Hx Hs]; [done|]. constructor; [by left | by apply IH].
Qed.

Lemma trimLeft_Forall (P : ascii → Prop) c s :
  Forall P s → Forall P (protocol.trimLeft c s).
Proof.
  induction 1 as [|x s Hx Hs IH]; simpl; [done|]. case_decide; [done | by constructor].
Qed.

Lemma Trim_Forall (P : ascii → Prop) c s : Forall P s → Forall P (protocol.Trim c s).
Proof.
  intros H. unfold protocol.Trim.
  by apply Forall_reverse, trimLeft_Forall, Forall_reverse, trimLeft_Forall.
Qed.

Lemma ToUpper_keep s :
  Forall (λ c, protocol.upper c = c) s → protocol.ToUpper s = s.
Proof.
  unfold protocol.ToUpper. induction 1 as [|x s Hx Hs IH]; [done|].
  rewrite fmap_cons. by rewrite Hx, IH.
Qed.

(** The encoder on 32 bytes: 52 characters of the alphabet and four of
    padding. *)
Lemma quantum_chars q :
  ∃ cs, protocol.quantum q
        = cs ++ replicate (8 - length cs) "="%char ∧ Forall alpha cs ∧
        length cs = match length q with
                    | 1 => 2 | 2 => 4 | 3 => 5 | 4 => 7 | _ => 8
                    end%nat.
Proof.
  unfold protocol.quantum.
  set (chars := (λ k, protocol.b32char _) <$> _).
  set (keep := match length q with
               | 1 => 2 | 2 => 4 | 3 => 5 | 4 => 7 | _ => 8
               end%nat).
  assert (Hk : (keep ≤ 8)%nat) by (unfold keep; repeat case_match; lia).
  assert (Hl : length chars = 8%nat) by reflexivity.
  exists (take keep chars). rewrite length_take, Hl.
  replace (keep `min` 8)%nat with keep by lia. split; [done|]. split; [|done].
  apply Forall_take. unfold chars. apply Forall_fmap, Forall_forall.
  intros k _. apply b32char_alpha.
Qed.

Lemma encode_five fuel a b c d e rest :
  protocol.encode (S fuel) (a :: b :: c :: d :: e :: rest)
  = protocol.quantum [a; b; c; d; e] ++ protocol.encode fuel rest.
Proof. reflexivity. Qed.

Lemma EncodeToString_32 n :
  length n = 32%nat →
  ∃ body, protocol.EncodeToString n = body ++ replicate 4 "="%char ∧
          length body = 52%nat ∧ Forall alpha body.
Proof.
  intros Hn. do 32 (destruct n as [|? n]; [discriminate Hn|]).
  destruct n; [|discriminate Hn]. clear Hn.
  unfold protocol.EncodeToString. cbn [length]. rewrite !encode_five.
  change (protocol.encode 26 [z29; z30]) with (protocol.quantum [z29; z30] ++ []).
  rewrite app_nil_r.
  repeat match goal with
         | |- context [protocol.quantum ?q] =>
             let cs := fresh "cs" in let E := fresh "E" in
             let Ha := fresh "Ha" in let Hl := fresh "Hl" in
             destruct (quantum_chars q) as (cs & E & Ha & Hl);
             cbn [length] in Hl; rewrite E, Hl; clear E
         end.
  cbn [Nat.sub replicate]. rewrite !app_nil_r.
  exists (cs ++ cs0 ++ cs1 ++ cs2 ++ cs3 ++ cs4 ++ cs5).
  split; [by rewrite <- !(assoc_L (++))|]. split.
  - rewrite !length_app. lia.
  - repeat (apply Forall_app; split); done.
Qed.

Lemma String_checked Generate n :
  length n = 32%nat → (∀ s, alpha (Generate s)) →
  length (checked Generate n) = 54%nat ∧ Forall alpha (checked Generate n) ∧
  protocol.String Generate n
  = protocol.Trim "-"%char (protocol.group9 54 (checked Generate n)).
Proof.
  intros Hn Hg. destruct (EncodeToString_32 n Hn) as (body & E & Hl & Ha).
  assert (Et : protocol.Trim "="%char (protocol.EncodeToString n) = body).
  { rewrite E. apply Trim_pad. eapply list.Forall_impl; [exact Ha|]. apply alpha_not_pad. }
  assert (Hlc : length (checked Generate n) = 54%nat).
  { unfold checked. rewrite Et.
    repeat (rewrite length_app || rewrite length_take || rewrite length_drop
            || rewrite Hl || cbn [length]). lia. }
  assert (Hac : Forall alpha (checked Generate n)).
  { unfold checked. rewrite Et. apply Forall_app. split; [by apply Forall_take|].
    constructor; [apply Hg|]. apply Forall_app. split; [by apply Forall_drop|].
    constructor; [apply Hg | constructor]. }
  split; [done|]. split; [done|].
  unfold protocol.String. rewrite Et.
  rewrite ToUpper_keep by (eapply list.Forall_impl; [exact Ha|]; apply alpha_upper).
  rewrite (Remove_keep "-"%char) by (eapply list.Forall_impl; [exact Ha|]; apply alpha_not_hyphen).
  rewrite (Remove_keep " "%char) by (eapply list.Forall_impl; [exact Ha|]; apply alpha_not_space).
  rewrite Hl. cbn [Nat.eqb]. cbv zeta.
  fold (checked Generate n) in Hlc. unfold checked in Hlc |- *. rewrite Et in Hlc |- *.
  by rewrite Hlc.
Qed.

Lemma decode_short src : ∀ j dbuf out,
  Forall alpha src → (j < 8)%nat → ((j + length src) `mod` 8 ≠ 0)%nat →
  protocol.decode src j dbuf out = inr protocol.CorruptInput.
Proof.
  induction src as [|c src IH]; intros j dbuf out Ha Hj Hm; cbn [length] in Hm.
  - rewrite Nat.add_0_r, Nat.mod_small in Hm by done. simpl. by destruct j.
  - inversion Ha as [|? ? Hc Ha']; subst. cbn [protocol.decode].
    rewrite (bool_decide_eq_false_2 (c = "="%char)) by (by apply alpha_not_pad).
    cbn [andb].
    destruct (alpha_decodeMap c Hc) as [v ->].
    destruct (Nat.eqb_spec j 7) as [->|Hne].
    + apply IH; [done | lia|]. intros E. apply Hm.
      replace (7 + S (length src))%nat with (0 + length src + 1 * 8)%nat by lia.
      by rewrite Nat.Div0.mod_add.
    + apply IH; [done | lia|].
      by replace (S j + length src)%nat with (j + S (length src))%nat by lia.
Qed.

(** C8 fails on the code: for every 32-byte identifier, UnmarshalText
    rejects the text that String prints, and leaves the receiver as it
    was.  The 54 characters that remain once the hyphens are removed go to
    the base32 decoder as they are, check characters included and without
    the padding that StdEncoding requires, so the decoder reports corrupt
    input before the length and the check characters are looked at. *)
Theorem UnmarshalText_rejects_String Generate n n0 :
  length n = 32%nat → (∀ s, alpha (Generate s)) →
  protocol.UnmarshalText Generate n0 (protocol.String Generate n)
  = (n0, Some protocol.CorruptInput).
Proof.
  intros Hn Hg. destruct (String_checked Generate n Hn Hg) as (Hl & Ha & ->).
  set (id := checked Generate n) in *.
  assert (Hid : Forall idchar (protocol.Trim "-"%char (protocol.group9 54 id)))
    by (by apply Trim_Forall, group9_idchar).
  unfold protocol.UnmarshalText.
  rewrite (Trim_keep "="%char).
  2:{ eapply list.Forall_impl; [exact Hid|]. intros c [Hc| ->]; [by apply alpha_not_pad | done]. }
  rewrite ToUpper_keep.
  2:{ eapply list.Forall_impl; [exact Hid|]. intros c [Hc| ->]; [by apply alpha_upper | done]. }
  rewrite Remove_Trim, Remove_group9.
  2:{ eapply list.Forall_impl; [exact Ha|]. apply alpha_not_hyphen. }
  rewrite (Remove_keep " "%char).
  2:{ eapply list.Forall_impl; [exact Ha|]. apply alpha_not_space. }
  unfold protocol.DecodeString.
  assert (Ef : filter (λ c, ¬ protocol.newline c) id = id).
  { clear -Ha. induction Ha as [|c s Hc Hs IH]; [done|].
    rewrite filter_cons, decide_True by (by apply alpha_not_newline). by rewrite IH. }
  rewrite Ef. rewrite decode_short; [done | done | lia|]. by rewrite Hl.
Qed.

Lemma UnmarshalText_rejects_String_witness :
  length protocol.zeroNodeID = 32%nat ∧ (∀ s, alpha (protocol.luhn32 s)) ∧
  protocol.UnmarshalText protocol.luhn32 protocol.zeroNodeID
    (protocol.String protocol.luhn32 protocol.zeroNodeID)
  = (protocol.zeroNodeID, Some protocol.CorruptInput).
Proof.
  assert (Hn : length protocol.zeroNodeID = 32%nat) by reflexivity.
  split; [exact Hn|]. split; [exact luhn32_alpha|].
  exact (UnmarshalText_rejects_String protocol.luhn32 protocol.zeroNodeID
           protocol.zeroNodeID Hn luhn32_alpha).
Defined.

(** ** The walker *)

(** C9, as the code has it: Walk returns an error exactly when the check
    of the base directory fails before or after the passes.  When it fails
    before them, the error comes with no file and no ignore map, and the
    clock is not ticked.  When it passes, Walk returns the files and the
    patterns that the two passes gather together with the result of the
    last check, be it an error or not. *)
Theorem Walk_checks FD FDir FNoPerm GOOS IsNormalString Match BlocksOf w fs c :
  let r := scanner.Walk FD FDir FNoPerm GOOS IsNormalString Match BlocksOf w fs c in
  (r.1.2 ≠ None ↔ scanner.checkDir (scanner.at_first_check fs) ≠ None ∨
                  scanner.checkDir (scanner.at_last_check fs) ≠ None) ∧
  match scanner.checkDir (scanner.at_first_check fs) with
  | Some e => r = (([], None, Some e), c)
  | None =>
      let ignore := scanner.filepathWalk (scanner.loadIgnoreFiles w)
                      (scanner.at_ignore_pass fs) ∅ in
      let pass := scanner.filepathWalk
                    (scanner.walkAndHashFiles FD FDir FNoPerm GOOS IsNormalString
                       Match BlocksOf w ignore)
                    (scanner.at_hash_pass fs) ([], c) in
      r = ((pass.1, Some ignore, scanner.checkDir (scanner.at_last_check fs)), pass.2)
  end.
Proof.
  unfold scanner.Walk.
  destruct (scanner.checkDir (scanner.at_first_check fs)) as [e|] eqn:E1; cbv zeta.
  - split; [|done]. simpl. split; [by left | done].
  - destruct (scanner.filepathWalk _ (scanner.at_hash_pass fs) _) as [files c'] eqn:E2.
    split; [|done]. simpl. split; [by right | by intros [?|?]].
Qed.

(** C9, as the claim states it, fails: when the base directory is gone at
    the last check, Walk returns the error of lstat together with the file
    that the hash pass found. *)
Lemma Walk_error_with_files :
  ¬ no_partial_result (example_Walk plain_walker vanishing).
Proof.
  intros H.
  assert (E : example_Walk plain_walker vanishing
              = ([scanner.mkFile "a.txt" 420 200 1 5 [scanner.mkBlock 0 5 []] false],
                 Some ∅, Some scanner.LstatFailed)) by (vm_compute; reflexivity).
  rewrite E in H. unfold no_partial_result in H. simpl in H.
  discriminate H. discriminate.
Qed.

(** * Further properties of the code *)

(** ** The file set: when calls stop *)

Lemma sized_same_but cid m m' : same_but cid m m' → sized m → sized m'.
Proof. intros (_ & Hr & Hc & _) [H1 H2]. split; congruence. Qed.

(** X1: the two replacing calls panic exactly for a connection id above
    63; for an id in range, on a set with its 64 slots, they always return
    (the [update] inside [replace] never meets a nil index), and the set
    keeps its 64 slots. *)
Theorem replacing_calls_stop_only_out_of_range FD id fs c m :
  sized m →
  if decide (63 < id)%nat then
    Replace FD id fs m = Stop ConnectionIDRange ∧
    ReplaceWithDelete FD id fs c m = Stop ConnectionIDRange
  else
    (∃ m', Replace FD id fs m = Done m' ∧ sized m') ∧
    (∃ c' m', ReplaceWithDelete FD id fs c m = Done (c', m') ∧ sized m').
Proof.
  intros Hs. unfold Replace, ReplaceWithDelete. case_decide as Hid; [done|].
  assert (Hlt : (id < length (remoteKey (bump id m)))%nat) by (destruct Hs; simpl; lia).
  destruct (mutates FD id fs m).
  - split.
    + rewrite replace_Done by done. eexists. split; [done|].
      eapply sized_same_but; [|exact Hs].
      eapply same_but_trans; [apply same_but_bump|].
      eapply same_but_replace. by apply replace_Done.
    + destruct (withDeleted FD fs c (bump id m)) as [fs' c'].
      rewrite replace_Done by done. eexists _, _. split; [done|].
      eapply sized_same_but; [|exact Hs].
      eapply same_but_trans; [apply same_but_bump|].
      eapply same_but_replace. by apply replace_Done.
  - split; [by exists m | by exists c, m].
Qed.

Lemma replacing_calls_stop_only_out_of_range_witness :
  sized NewSet ∧
  if decide (63 < 64)%nat then
    Replace FlagDeleted12 64 [plain "a" 1] NewSet = Stop ConnectionIDRange ∧
    ReplaceWithDelete FlagDeleted12 64 [plain "a" 1] 0 NewSet = Stop ConnectionIDRange
  else
    (∃ m', Replace FlagDeleted12 64 [plain "a" 1] NewSet = Done m' ∧ sized m') ∧
    (∃ c' m', ReplaceWithDelete FlagDeleted12 64 [plain "a" 1] 0 NewSet = Done (c', m')
              ∧ sized m').
Proof.
  assert (Hs : sized NewSet) by (split; reflexivity).
  split; [exact Hs|].
  exact (replacing_calls_stop_only_out_of_range FlagDeleted12 64 [plain "a" 1] 0 NewSet Hs).
Defined.

Lemma slot_update_one cid m f :
  is_Some (mjoin (remoteKey m !! cid)) →
  is_Some (mjoin (remoteKey (update_one cid m f) !! cid)).
Proof.
  intros Hs. unfold update_one. case_decide; [done|].
  assert (Hlt : (cid < length (remoteKey m))%nat).
  { destruct (remoteKey m !! cid) eqn:E; [by eapply lookup_lt_Some | by destruct Hs]. }
  assert (Hi : ∀ r m', remoteKey m' = <[cid := Some r]> (remoteKey m) →
               is_Some (mjoin (remoteKey m' !! cid))).
  { intros r m' ->. rewrite list_lookup_insert_eq by done. by eexists. }
  repeat case_match; eapply Hi; done.
Qed.

Lemma slot_foldl_update cid fs m :
  is_Some (mjoin (remoteKey m !! cid)) →
  is_Some (mjoin (remoteKey (foldl (update_one cid) m fs) !! cid)).
Proof.
  revert m. induction fs as [|f fs IH]; intros m Hs; [done|].
  simpl. by apply IH, slot_update_one.
Qed.

Lemma curWithoutDeleted_nil FD id m :
  mjoin (remoteKey m !! id) = None → curWithoutDeleted FD id m = ∅.
Proof.
  intros H. unfold curWithoutDeleted, peer.
  destruct (remoteKey m !! id) as [[rem|]|]; [done| |]; unfold values;
    by rewrite map_to_list_empty.
Qed.

(** X2: Update is fatal on a peer whose index was never created, as on
    every peer of a new set, and returns on a peer after any Replace of
    that peer has returned, whether that call changed the set or not. *)
Theorem Update_needs_Replace FD id fs fs' m m1 :
  sized m → (id ≤ 63)%nat →
  Update id fs' NewSet = Stop UpdateBeforeReplace ∧
  (Replace FD id fs m = Done m1 → ∃ m2, Update id fs' m1 = Done m2).
Proof.
  intros Hs Hid. split.
  - unfold Update, update.
    assert (E : remoteKey NewSet !! id = Some None).
    { change (remoteKey NewSet) with (replicate 64 (@None (gmap string key))).
      apply lookup_replicate. split; [done | lia]. }
    by rewrite E.
  - intros Hr.
    assert (Hslot : is_Some (mjoin (remoteKey m1 !! id))).
    { unfold Replace in Hr. rewrite decide_False in Hr by lia.
      destruct (mutates FD id fs m) eqn:Em.
      - rewrite replace_Done in Hr by (destruct Hs; simpl; lia). injection Hr as <-.
        apply slot_foldl_update. rewrite replace_mid_slot by (destruct Hs; simpl; lia).
        by eexists.
      - injection Hr as <-. unfold mutates in Em.
        apply orb_false_iff in Em as [Hlen Heq]. apply negb_false_iff in Heq.
        apply bool_decide_eq_false in Hlen.
        destruct (mjoin (remoteKey m !! id)) eqn:E; [by eexists|].
        unfold equals in Heq. rewrite (curWithoutDeleted_nil FD id m E) in Heq.
        rewrite map_size_empty in Heq. case_decide as Hsz; [done|].
        destruct Hlen. destruct (length fs); [done|]. destruct Hsz. lia. }
    unfold Update. rewrite update_Done by done. by eexists.
Qed.

Lemma Update_needs_Replace_witness :
  sized NewSet ∧ (1 ≤ 63)%nat ∧
  Update 1 [plain "a" 2] NewSet = Stop UpdateBeforeReplace ∧
  (Replace FlagDeleted12 1 [plain "a" 1] NewSet = Done (after [CallReplace 1 [plain "a" 1]]) →
   ∃ m2, Update 1 [plain "a" 2] (after [CallReplace 1 [plain "a" 1]]) = Done m2).
Proof.
  assert (Hs : sized NewSet) by (split; reflexivity).
  assert (Hid : (1 ≤ 63)%nat) by lia.
  split; [exact Hs|]. split; [exact Hid|].
  exact (Update_needs_Replace FlagDeleted12 1 [plain "a" 1] [plain "a" 2] NewSet
           (after [CallReplace 1 [plain "a" 1]]) Hs Hid).
Defined.

(** X3: an Update that returns adds one to the change counter of the
    peer whatever the list, also when the list is empty or changes no
    entry. *)
Theorem Update_always_counts id fs m m' c :
  Update id fs m = Done m' → changes m !! id = Some c →
  changes m' !! id = Some (u64 (c + 1)).
Proof.
  unfold Update, update. intros Hu Hc.
  destruct (remoteKey m !! id) as [[rem|]|]; try done. injection Hu as <-.
  simpl. rewrite changes_foldl_update. by rewrite list_lookup_alter_eq, Hc.
Qed.

Lemma Update_always_counts_witness :
  Update 1 [] (after [CallReplace 1 [plain "a" 1]])
  = Done (after [CallReplace 1 [plain "a" 1]; CallUpdate 1 []]) ∧
  changes (after [CallReplace 1 [plain "a" 1]]) !! 1%nat = Some 1 ∧
  changes (after [CallReplace 1 [plain "a" 1]; CallUpdate 1 []]) !! 1%nat = Some (u64 (1 + 1)).
Proof.
  assert (E : Update 1 [] (after [CallReplace 1 [plain "a" 1]])
              = Done (after [CallReplace 1 [plain "a" 1]; CallUpdate 1 []]))
    by (vm_compute; reflexivity).
  assert (Hc : changes (after [CallReplace 1 [plain "a" 1]]) !! 1%nat = Some 1)
    by (vm_compute; reflexivity).
  split; [exact E|]. split; [exact Hc|].
  exact (Update_always_counts 1 [] _ _ 1 E Hc).
Defined.

(** ** The file set: what the calls install *)

Lemma update_one_skip cid m f :
  peer m cid !! scanner.Name f = Some (keyFor f) → update_one cid m f = m.
Proof. intros H. unfold update_one. by rewrite decide_True. Qed.

Lemma foldl_update_skip cid fs m :
  (∀ f, f ∈ fs → peer m cid !! scanner.Name f = Some (keyFor f)) →
  foldl (update_one cid) m fs = m.
Proof.
  induction fs as [|f fs IH]; intros H; simpl; [done|].
  rewrite update_one_skip by (apply H; left). apply IH. intros f' Hf'. apply H. by right.
Qed.

(** X4: an Update is idempotent but for the counter: when the list names
    no file twice, a second Update of the same peer with the same list
    skips every entry and changes nothing except that the change counter
    of the peer rises once more. *)
Theorem Update_twice id fs m m1 :
  NoDup (scanner.Name <$> fs) → Update id fs m = Done m1 →
  Update id fs m1 = Done (bump id m1).
Proof.
  intros Hnd. unfold Update, update.
  destruct (remoteKey m !! id) as [[rem|]|] eqn:E; try done. intros [= <-].
  set (m0 := foldl (update_one id) m fs).
  assert (Hlt : (id < length (remoteKey m))%nat) by (by eapply lookup_lt_Some).
  assert (Hslot : is_Some (mjoin (remoteKey (bump id m0) !! id))).
  { apply (slot_foldl_update id fs m). rewrite E. by eexists. }
  destruct (remoteKey (bump id m0) !! id) as [[rem'|]|] eqn:E';
    [|by destruct Hslot | by destruct Hslot].
  f_equal. f_equal. apply foldl_update_skip. intros f Hf.
  change (peer (bump id m0) id) with (peer m0 id). unfold m0.
  rewrite peer_foldl_update by done.
  apply lookup_union_Some_l.
  rewrite list_to_map_reverse by (by rewrite entry_fst).
  apply elem_of_list_to_map_1; [by rewrite entry_fst|].
  apply list_elem_of_fmap. by exists f.
Qed.

Lemma Update_twice_witness :
  NoDup (scanner.Name <$> [plain "a" 2; plain "b" 1]) ∧
  Update 1 [plain "a" 2; plain "b" 1] (after [CallReplace 1 [plain "a" 1]])
  = Done (after [CallReplace 1 [plain "a" 1]; CallUpdate 1 [plain "a" 2; plain "b" 1]]) ∧
  Update 1 [plain "a" 2; plain "b" 1]
    (after [CallReplace 1 [plain "a" 1]; CallUpdate 1 [plain "a" 2; plain "b" 1]])
  = Done (bump 1 (after [CallReplace 1 [plain "a" 1];
                         CallUpdate 1 [plain "a" 2; plain "b" 1]])).
Proof.
  assert (Hnd : NoDup (scanner.Name <$> [plain "a" 2; plain "b" 1])).
  { apply NoDup_cons_2; [|apply NoDup_singleton].
    intros H%list_elem_of_singleton. discriminate H. }
  assert (E : Update 1 [plain "a" 2; plain "b" 1] (after [CallReplace 1 [plain "a" 1]])
              = Done (after [CallReplace 1 [plain "a" 1];
                             CallUpdate 1 [plain "a" 2; plain "b" 1]]))
    by (vm_compute; reflexivity).
  split; [exact Hnd|]. split; [exact E|].
  exact (Update_twice 1 _ _ _ Hnd E).
Defined.

Lemma index_of_list_lookup (fs : list scanner.File) n :
  (list_to_map (reverse (entry <$> fs)) : gmap string key) !! n
  = keyFor <$> list.last (filter (λ f, scanner.Name f = n) fs).
Proof.
  induction fs as [|f fs IH] using rev_ind; [done|].
  rewrite fmap_app, reverse_app. simpl. rewrite list.filter_app, filter_cons, filter_nil.
  destruct (decide (scanner.Name f = n)) as [<-|Hne].
  - rewrite lookup_insert_eq. by rewrite last_snoc.
  - rewrite lookup_insert_ne by done. by rewrite app_nil_r.
Qed.

(** X5: a Replace that changes the set installs the list as the view of
    the peer: its index then holds, for every name, the key of the last
    file of the list with that name, and nothing for a name the list
    lacks, whatever the index held before. *)
Theorem Replace_installs_list FD id fs m m' :
  sized m → mutates FD id fs m = true → Replace FD id fs m = Done m' →
  ∀ n, peer m' id !! n = keyFor <$> list.last (filter (λ f, scanner.Name f = n) fs).
Proof.
  intros Hs Hm. unfold Replace. case_decide as Hid; [done|]. rewrite Hm.
  intros Hr n. rewrite <- index_of_list_lookup.
  by rewrite (peer_replace id fs (bump id m) m' ltac:(destruct Hs; simpl; lia) Hr).
Qed.

Lemma Replace_installs_list_witness :
  sized (after two_peers) ∧
  mutates FlagDeleted12 1 [plain "b" 3; plain "b" 4] (after two_peers) = true ∧
  Replace FlagDeleted12 1 [plain "b" 3; plain "b" 4] (after two_peers)
  = Done (after (two_peers ++ [CallReplace 1 [plain "b" 3; plain "b" 4]])) ∧
  ∀ n, peer (after (two_peers ++ [CallReplace 1 [plain "b" 3; plain "b" 4]])) 1 !! n
       = keyFor <$> list.last (filter (λ f, scanner.Name f = n) [plain "b" 3; plain "b" 4]).
Proof.
  assert (Hs : sized (after two_peers)) by (split; vm_compute; reflexivity).
  assert (Hm : mutates FlagDeleted12 1 [plain "b" 3; plain "b" 4] (after two_peers) = true)
    by (vm_compute; reflexivity).
  assert (E : Replace FlagDeleted12 1 [plain "b" 3; plain "b" 4] (after two_peers)
              = Done (after (two_peers ++ [CallReplace 1 [plain "b" 3; plain "b" 4]])))
    by (vm_compute; reflexivity).
  split; [exact Hs|]. split; [exact Hm|]. split; [exact E|].
  exact (Replace_installs_list FlagDeleted12 1 _ _ _ Hs Hm E).
Defined.

(** ** The file set in admissible histories *)

Lemma reachable_three_peers : reachable FlagDeleted12 (0, after three_peers).
Proof.
  apply (reach_call _ (CallReplace 2 [plain "a" 7])
           (0, after [CallReplace 0 [plain "a" 5]; CallReplace 1 [plain "a" 7]]));
    [|reflexivity | vm_compute; reflexivity].
  apply (reach_call _ (CallReplace 1 [plain "a" 7]) (0, after [CallReplace 0 [plain "a" 5]]));
    [|reflexivity | vm_compute; reflexivity].
  apply (reach_call _ (CallReplace 0 [plain "a" 5]) (0, NewSet));
    [|reflexivity | vm_compute; reflexivity].
  apply reach_new.
Defined.

(** X6: in every set reached by admissible calls no index entry dangles:
    each entry is a key of its own name, has a record in the files map
    that is filed under the key of its own file, and the usage of a record
    is never below the number of indices that hold its key.  The global
    view lists exactly the names that some peer reports. *)
Theorem admissible_sets_well_kept FD w :
  reachable FD w → base_inv w.2 ∧ global_names_reported w.2.
Proof.
  intros H. destruct (set_inv_reachable FD w H) as (Hb & Hkn & Hg).
  split; [done|]. intros n. split.
  - intros [gk Hgk]. destruct (Hg n gk Hgk) as (av & _ & [i Hi] & _). by exists i, gk.
  - intros (i & k & Hik). by eapply Hkn.
Qed.

Lemma admissible_sets_well_kept_witness :
  reachable FlagDeleted12 (0, after three_peers) ∧
  base_inv (after three_peers) ∧ global_names_reported (after three_peers).
Proof.
  split; [exact reachable_three_peers|].
  exact (admissible_sets_well_kept FlagDeleted12 (0, after three_peers)
           reachable_three_peers).
Defined.

Lemma keys_positive_strip m m' :
  strip <$> files m' = strip <$> files m → keys_positive m → keys_positive m'.
Proof.
  intros E H k r' Hr'. destruct (strip_lookup _ _ _ _ E Hr') as (r & Hr & _). by eapply H.
Qed.

Lemma keys_positive_update_one cid m f :
  set_inv m → keys_positive m → 0 < scanner.Version f →
  keys_positive (update_one cid m f).
Proof.
  intros (Hb & Hkn & Hg) Hpos Hv.
  destruct (decide (peer m cid !! scanner.Name f = Some (keyFor f))) as [Hsk|Hne].
  { by rewrite update_one_skip. }
  pose proof (files_update_one cid m f Hne (global_key_filed m Hb Hg)) as Ef.
  intros k r' Hr'. destruct (strip_lookup _ _ _ _ Ef Hr') as (r & Hr & _).
  destruct (decide (k = keyFor f)) as [->|Hk]; [done|].
  rewrite lookup_insert_ne in Hr by done. by eapply Hpos.
Qed.

Lemma keys_positive_update cid fs m :
  set_inv m → keys_positive m → (cid < 64)%nat → admissible (peer m cid) fs = true →
  keys_positive (foldl (update_one cid) m fs).
Proof.
  intros Hinv Hpos Hcid. revert m Hinv Hpos.
  induction fs as [|f fs IH]; intros m Hinv Hpos Hadm; [done|].
  simpl in *. apply andb_true_iff in Hadm as [Hadm Hrest].
  apply andb_true_iff in Hadm as [Hv Hold]. apply Z.ltb_lt in Hv.
  assert (Hlt : (cid < length (remoteKey m))%nat)
    by (destruct Hinv as [[[-> _] _] _]; done).
  apply IH.
  - apply set_inv_update_one; try done.
    intros ck Hck. rewrite Hck in Hold. by apply Z.leb_le.
  - by apply keys_positive_update_one.
  - by rewrite peer_update_one.
Qed.

Lemma keys_positive_replace_mid cid m :
  base_inv m → (cid < 64)%nat → keys_positive m → keys_positive (replace_mid cid m).
Proof.
  intros Hb Hcid Hpos.
  pose proof (base_inv_cleared cid m Hb Hcid) as Hbc.
  assert (Hc : keys_positive (cleared cid m)).
  { intros k r. unfold cleared. simpl.
    set (ks := values (peer m cid)). clearbody ks.
    assert (Hgen : ∀ fs0 : gmap key fileRecord,
              (∀ k r, fs0 !! k = Some r → 0 < Version k) →
              ∀ k r, foldl release fs0 ks !! k = Some r → 0 < Version k).
    { induction ks as [|a ks IH]; intros fs0 H0; [done|]. simpl. apply IH.
      intros k0 r0. destruct (decide (k0 = a)) as [->|Hne].
      - rewrite release_at. destruct (fs0 !! a) eqn:Ea; [|done]. intros _. by eapply H0.
      - rewrite release_other by done. apply H0. }
    apply Hgen. exact Hpos. }
  rewrite replace_mid_cleared. eapply keys_positive_strip; [|exact Hc].
  apply recompute_fold_files. intros n. cbv zeta.
  destruct (newest_top (cleared cid m) n Hbc) as (nk & na & -> & Hcase). cbn [fst snd].
  intros Hna. destruct Hcase as [[_ ?]|[_ ([i Hi] & _)]]; [done|]. by eapply inv_held.
Qed.

Lemma keys_positive_exec FD cl w w' :
  set_inv w.2 → keys_positive w.2 → admissible_call cl w = true →
  exec FD cl w = Done w' → keys_positive w'.2.
Proof.
  destruct w as [c m], w' as [c' m']. simpl. intros Hinv Hpos Hadm.
  assert (Hrep : ∀ id fs0 m'', (id < 64)%nat → admissible ∅ fs0 = true →
            replace id fs0 (bump id m) = Done m'' → keys_positive m'').
  { intros id fs0 m'' Hid Ha Hr.
    destruct (set_inv_bump id m Hinv) as (Hb & Hkn & _).
    rewrite replace_Done in Hr by (destruct Hb as [[-> _] _]; done). injection Hr as <-.
    apply keys_positive_update; [by apply set_inv_replace_mid| | done |].
    - by apply keys_positive_replace_mid.
    - rewrite peer_replace_mid; [done|]. by destruct Hb as [[-> _] _]. }
  destruct cl as [id fs|id fs|id fs]; simpl in *.
  - unfold Replace. case_decide as Hid; [done|].
    destruct (mutates FD id fs m).
    + destruct (replace id fs (bump id m)) as [m''|] eqn:E; intros [= <- <-].
      eapply Hrep; [|exact Hadm | exact E]. lia.
    + by intros [= <- <-].
  - unfold ReplaceWithDelete. case_decide as Hid; [done|].
    destruct (mutates FD id fs m).
    + pose proof (withDeleted_admissible FD id fs c m (proj1 Hinv) Hadm) as Hadm'.
      destruct (withDeleted FD fs c (bump id m)) as [fs' c''].
      destruct (replace id fs' (bump id m)) as [m''|] eqn:E; intros [= <- <-].
      eapply Hrep; [|exact Hadm' | exact E]. lia.
    + by intros [= <- <-].
  - unfold Update, update.
    destruct (remoteKey m !! id) as [[rem|]|] eqn:E; try done.
    intros [= <- <-].
    assert (Hid : (id < 64)%nat).
    { apply lookup_lt_Some in E. destruct Hinv as [[[Hl _] _] _]. lia. }
    intros k r. simpl. by apply (keys_positive_update id fs m Hinv Hpos Hid Hadm).
Qed.

Lemma keys_positive_reachable FD w : reachable FD w → keys_positive w.2.
Proof.
  induction 1 as [c|cl w w' Hw IH Hadm Hex].
  - intros k r. simpl. by rewrite lookup_empty.
  - eapply keys_positive_exec; [|exact IH | exact Hadm | exact Hex].
    by apply (set_inv_reachable FD).
Qed.

(** X7: in a set reached by admissible calls, Get(peer, name) returns
    the file filed under the key that the peer holds for the name, which
    has that name and the version of the key; for a name the peer does
    not hold it returns the zero File. *)
Theorem Get_returns_entry FD w id n :
  reachable FD w → (id < 64)%nat →
  ∃ f, Get id n w.2 = Done f ∧
       match peer w.2 id !! n with
       | Some k => keyFor f = k ∧ scanner.Name f = n
       | None => f = scanner.zeroFile
       end.
Proof.
  intros Hr Hid. pose proof (set_inv_reachable FD w Hr) as (Hb & _ & _).
  pose proof (keys_positive_reachable FD w Hr) as Hpos.
  destruct w as [c m]. simpl in *. unfold Get.
  destruct (lookup_lt_is_Some_2 (remoteKey m) id) as [x Hx];
    [destruct Hb as [[-> _] _]; done|].
  rewrite Hx. eexists. split; [done|]. rewrite (peer_slot _ _ _ Hx).
  destruct (default ∅ x !! n) as [k|] eqn:Ek; simpl.
  - assert (Hp : peer m id !! n = Some k) by (by rewrite (peer_slot _ _ _ Hx)).
    destruct (inv_held m Hb _ _ _ Hp) as [r Hrk].
    unfold getRecord. rewrite Hrk. simpl.
    pose proof (inv_filed m Hb _ _ Hrk) as Hk. split; [done|].
    destruct (inv_keys m Hb _ _ _ Hp) as [<- _]. by rewrite <- Hk.
  - unfold getRecord. destruct (files m !! zeroKey) as [r|] eqn:Ez; [|done].
    specialize (Hpos _ _ Ez). simpl in Hpos. lia.
Qed.

Lemma Get_returns_entry_witness :
  reachable FlagDeleted12 (0, after three_peers) ∧ (1 < 64)%nat ∧
  ∃ f, Get 1 "a" (after three_peers) = Done f ∧
       match peer (after three_peers) 1 !! "a" with
       | Some k => keyFor f = k ∧ scanner.Name f = "a"
       | None => f = scanner.zeroFile
       end.
Proof.
  assert (Hid : (1 < 64)%nat) by lia.
  split; [exact reachable_three_peers|]. split; [exact Hid|].
  exact (Get_returns_entry FlagDeleted12 (0, after three_peers) 1 "a"
           reachable_three_peers Hid).
Defined.

(** X8: in a set reached by admissible calls, GetGlobal(name) returns,
    for a name that some peer reports, a file of that name that some peer
    holds and whose version no peer's entry for the name exceeds; for a
    name that no peer reports it returns the zero File. *)
Theorem GetGlobal_returns_newest FD w n :
  reachable FD w →
  let f := GetGlobal n w.2 in
  ((∃ i k, peer w.2 i !! n = Some k) →
     scanner.Name f = n ∧ (∃ i, peer w.2 i !! n = Some (keyFor f)) ∧
     ∀ i k, peer w.2 i !! n = Some k → Version k ≤ scanner.Version f) ∧
  ((∀ i, peer w.2 i !! n = None) → f = scanner.zeroFile).
Proof.
  intros Hr. pose proof (set_inv_reachable FD w Hr) as (Hb & Hkn & Hg).
  pose proof (keys_positive_reachable FD w Hr) as Hpos.
  destruct w as [c m]. simpl in *. unfold GetGlobal. split.
  - intros (i & k & Hik). destruct (Hkn _ _ _ Hik) as [gk Hgk]. rewrite Hgk. simpl.
    destruct (Hg n gk Hgk) as (av & _ & [i0 Hi0] & Hmax & _).
    destruct (inv_held m Hb _ _ _ Hi0) as [r Hrk].
    pose proof (inv_filed m Hb _ _ Hrk) as Hk.
    destruct (inv_keys m Hb _ _ _ Hi0) as [Hn _].
    unfold getRecord. rewrite Hrk. simpl. rewrite Hk.
    split; [by rewrite <- Hn, <- Hk|]. split; [by exists i0|].
    intros i' k' Hk'. specialize (Hmax _ _ Hk'). by rewrite <- Hk in Hmax.
  - intros Hnone. destruct (globalKey m !! n) as [gk|] eqn:Egk; simpl.
    + destruct (Hg n gk Egk) as (av & _ & [i0 Hi0] & _). by rewrite Hnone in Hi0.
    + unfold getRecord. destruct (files m !! zeroKey) as [r|] eqn:Ez; [|done].
      specialize (Hpos _ _ Ez). simpl in Hpos. lia.
Qed.

Lemma GetGlobal_returns_newest_witness :
  reachable FlagDeleted12 (0, after three_peers) ∧
  let f := GetGlobal "a" (after three_peers) in
  ((∃ i k, peer (after three_peers) i !! "a" = Some k) →
     scanner.Name f = "a" ∧ (∃ i, peer (after three_peers) i !! "a" = Some (keyFor f)) ∧
     ∀ i k, peer (after three_peers) i !! "a" = Some k → Version k ≤ scanner.Version f) ∧
  ((∀ i, peer (after three_peers) i !! "a" = None) → f = scanner.zeroFile).
Proof.
  split; [exact reachable_three_peers|].
  exact (GetGlobal_returns_newest FlagDeleted12 (0, after three_peers) "a"
           reachable_three_peers).
Defined.

(** ** Node identifiers beyond the claims *)

Lemma plain_char_upper c : plain_char c = true → plain_char (protocol.upper c) = true.
Proof. destruct c as [[] [] [] [] [] [] [] []]; vm_compute; intros H; exact H. Qed.

Lemma plain_char_spec c :
  plain_char c = true → c ≠ "="%char ∧ ¬ protocol.newline c.
Proof.
  unfold plain_char. intros H. apply andb_true_iff in H as [H1 H2].
  apply negb_true_iff in H1, H2.
  apply bool_decide_eq_false in H1, H2. done.
Qed.

Lemma Remove_Forall (P : ascii → Prop) c s : Forall P s → Forall P (protocol.Remove c s).
Proof.
  unfold protocol.Remove. induction 1 as [|x s Hx Hs IH]; [done|].
  rewrite filter_cons. case_decide; [by constructor | done].
Qed.

Lemma stripped_plain bs :
  Forall (λ c, plain_char c = true) bs → Forall (λ c, plain_char c = true) (stripped bs).
Proof.
  intros H. unfold stripped. do 2 apply Remove_Forall.
  unfold protocol.ToUpper. apply Forall_fmap.
  eapply list.Forall_impl; [by apply Trim_Forall|]. intros c Hc. by apply plain_char_upper.
Qed.

Lemma decode_error src : ∀ j dbuf out e,
  protocol.decode src j dbuf out = inr e → e = protocol.CorruptInput.
Proof.
  induction src as [|c src IH]; intros j dbuf out e; cbn [protocol.decode].
  - destruct j; intros [= <-]; done.
  - destruct (_ && _ && _).
    + repeat case_match; intros [= <-]; done.
    + destruct (protocol.decodeMap c); [|by intros [= <-]].
      destruct (j =? 7)%nat; apply IH.
Qed.

Lemma decode_whole_quanta src : ∀ j dbuf out r,
  Forall (λ c, c ≠ "="%char) src → (j < 8)%nat →
  protocol.decode src j dbuf out = inl r → ((j + length src) `mod` 8 = 0)%nat.
Proof.
  induction src as [|c src IH]; intros j dbuf out r Hs Hj; cbn [protocol.decode length].
  - destruct j; [done|]. intros [=].
  - inversion Hs as [|? ? Hc Hs']; subst.
    rewrite (bool_decide_eq_false_2 (c = "="%char)) by done. cbn [andb].
    destruct (protocol.decodeMap c); [|intros [=]].
    destruct (Nat.eqb_spec j 7) as [->|Hne]; intros E.
    + apply IH in E; [|done | lia].
      replace (7 + S (length src))%nat with (0 + length src + 1 * 8)%nat by lia.
      by rewrite Nat.Div0.mod_add.
    + apply IH in E; [|done | lia].
      by replace (j + S (length src))%nat with (S j + length src)%nat by lia.
Qed.

(** X10: UnmarshalText accepts no text that is free of padding and
    line breaks, whatever its length: either the base32 decoder rejects
    the text and the receiver is left as it was, or the text decodes, it
    is then a whole number of 8-character quanta long, so neither 52 nor
    54 characters, and the call overwrites the receiver and reports an
    incorrect length. *)
Theorem UnmarshalText_plain_text_fails Generate n bs :
  Forall (λ c, plain_char c = true) bs →
  protocol.UnmarshalText Generate n bs = (n, Some protocol.CorruptInput) ∨
  ∃ dec, protocol.DecodeString (stripped bs) = inl dec ∧
         (length (stripped bs) `mod` 8 = 0)%nat ∧
         protocol.UnmarshalText Generate n bs
         = (protocol.copy n dec, Some protocol.IncorrectLength).
Proof.
  intros Hbs. apply stripped_plain in Hbs.
  unfold protocol.UnmarshalText. cbv zeta. fold (stripped bs).
  set (id := stripped bs) in *. clearbody id.
  assert (Ef : filter (λ c, ¬ protocol.newline c) id = id).
  { clear -Hbs. induction Hbs as [|c s Hc Hs IH]; [done|].
    rewrite filter_cons, decide_True by (by apply plain_char_spec). by rewrite IH. }
  destruct (protocol.DecodeString id) as [dec|e] eqn:E.
  - right. exists dec. split; [done|].
    unfold protocol.DecodeString in E. rewrite Ef in E.
    apply decode_whole_quanta in E; [|
      eapply list.Forall_impl; [exact Hbs|]; intros c Hc; by apply plain_char_spec | lia].
    simpl in E. split; [done|].
    destruct (Nat.eqb_spec (length id) 52) as [E52|_]; [by rewrite E52 in E|].
    destruct (Nat.eqb_spec (length id) 54) as [E54|_]; [by rewrite E54 in E|].
    done.
  - left. unfold protocol.DecodeString in E. apply decode_error in E. by subst.
Qed.

Lemma UnmarshalText_plain_text_fails_witness :
  Forall (λ c, plain_char c = true) (protocol.str "mfzwi-zl2") ∧
  (protocol.UnmarshalText protocol.luhn32 protocol.zeroNodeID (protocol.str "mfzwi-zl2")
   = (protocol.zeroNodeID, Some protocol.CorruptInput) ∨
   ∃ dec, protocol.DecodeString (stripped (protocol.str "mfzwi-zl2")) = inl dec ∧
          (length (stripped (protocol.str "mfzwi-zl2")) `mod` 8 = 0)%nat ∧
          protocol.UnmarshalText protocol.luhn32 protocol.zeroNodeID (protocol.str "mfzwi-zl2")
          = (protocol.copy protocol.zeroNodeID dec, Some protocol.IncorrectLength)).
Proof.
  assert (H : Forall (λ c, plain_char c = true) (protocol.str "mfzwi-zl2"))
    by (repeat constructor).
  split; [exact H|].
  exact (UnmarshalText_plain_text_fails protocol.luhn32 protocol.zeroNodeID _ H).
Defined.

Lemma group9_step fuel s :
  (9 ≤ length s)%nat → Forall alpha s →
  protocol.group9 (S fuel) s
  = take 9 s ++ "-"%char :: protocol.group9 fuel (drop 9 s).
Proof.
  intros Hl Ha. cbn [protocol.group9].
  destruct (Nat.leb_spec 9 (length s)) as [_|?]; [|lia]. cbn [andb].
  assert (Hf : forallb (λ c, negb (bool_decide (c = "010"%char))) (take 9 s) = true).
  { apply forallb_forall. intros c Hc. apply list_elem_of_In in Hc.
    assert (Ht : Forall alpha (take 9 s)) by (by apply Forall_take).
    assert (Hc' : alpha c) by (rewrite list.Forall_forall in Ht; by apply Ht).
    apply alpha_not_newline in Hc'. apply negb_true_iff, bool_decide_eq_false.
    intros ->. apply Hc'. by left. }
  by rewrite Hf.
Qed.

Lemma Trim_ends c k x s y :
  x ≠ c → y ≠ c →
  protocol.Trim c (x :: s ++ y :: replicate k c) = x :: s ++ [y].
Proof.
  intros Hx Hy. unfold protocol.Trim.
  assert (E1 : protocol.trimLeft c (x :: s ++ y :: replicate k c)
               = x :: s ++ y :: replicate k c) by (simpl; by rewrite decide_False).
  rewrite E1.
  assert (E2 : reverse (x :: s ++ y :: replicate k c)
               = replicate k c ++ y :: reverse s ++ [x]).
  { rewrite reverse_cons, reverse_app, reverse_cons, reverse_replicate.
    by rewrite <- !(assoc_L (++)). }
  rewrite E2, trimLeft_pad. simpl. rewrite decide_False by done.
  by rewrite reverse_cons, reverse_app, reverse_singleton, reverse_involutive.
Qed.

Lemma Trim_last c x pre tl z :
  x ≠ c → z ≠ c →
  protocol.Trim c ((x :: pre) ++ (tl ++ [z]) ++ [c]) = (x :: pre) ++ tl ++ [z].
Proof.
  intros Hx Hz.
  replace ((x :: pre) ++ (tl ++ [z]) ++ [c])
    with (x :: (pre ++ tl) ++ z :: replicate 1 c)
    by (simpl; by rewrite <- !(assoc_L (++))).
  rewrite Trim_ends by done. simpl. by rewrite <- !(assoc_L (++)).
Qed.

Lemma Trim_group9_54 id :
  length id = 54%nat → Forall alpha id →
  protocol.Trim "-"%char (protocol.group9 54 id)
  = take 9 id ++ "-"%char :: take 9 (drop 9 id) ++ "-"%char :: take 9 (drop 18 id)
    ++ "-"%char :: take 9 (drop 27 id) ++ "-"%char :: take 9 (drop 36 id)
    ++ "-"%char :: drop 45 id.
Proof.
  intros Hl Ha.
  change 54%nat with (S (S (S (S (S (S 48))))))%nat.
  rewrite group9_step by (done || lia).
  rewrite group9_step by (try apply Forall_drop; try rewrite length_drop; done || lia).
  rewrite group9_step by (repeat apply Forall_drop; rewrite ?length_drop; done || lia).
  rewrite group9_step by (repeat apply Forall_drop; rewrite ?length_drop; done || lia).
  rewrite group9_step by (repeat apply Forall_drop; rewrite ?length_drop; done || lia).
  rewrite group9_step by (repeat apply Forall_drop; rewrite ?length_drop; done || lia).
  rewrite !drop_drop. cbn [Nat.add].
  rewrite (drop_ge id 54) by lia. cbn [protocol.group9 Nat.leb length andb].
  rewrite (take_ge (drop 45 id)) by (rewrite length_drop; lia).
  set (g1 := take 9 (drop 9 id)). set (g2 := take 9 (drop 18 id)).
  set (g3 := take 9 (drop 27 id)). set (g4 := take 9 (drop 36 id)).
  assert (Hd : Forall alpha (drop 45 id)) by (by apply Forall_drop).
  assert (Hld : length (drop 45 id) = 9%nat) by (rewrite length_drop; lia).
  destruct (drop 45 id) as [|z tl _] using rev_ind; [discriminate Hld|].
  apply Forall_app in Hd as [_ Hd]. inversion Hd as [|? ? Hz _]; subst.
  destruct id as [|x id']; [discriminate Hl|]. inversion Ha as [|? ? Hx _]; subst.
  cbn [take].
  set (pre := take 8 id' ++ "-"%char :: g1 ++ "-"%char :: g2 ++ "-"%char :: g3
              ++ "-"%char :: g4 ++ ["-"%char]).
  transitivity (protocol.Trim "-"%char ((x :: pre) ++ (tl ++ [z]) ++ ["-"%char])).
  { f_equal. unfold pre. simpl. by repeat (rewrite <- (assoc_L (++)); simpl). }
  rewrite Trim_last by (by apply alpha_not_hyphen).
  unfold pre. simpl. by repeat (rewrite <- (assoc_L (++)); simpl).
Qed.

(** X11: the text String prints for a 32-byte identifier has 59
    characters: the 54 characters of the identifier with its two check
    characters, all of the base32 alphabet, in six groups of nine with a
    hyphen between them.  Without the check characters, which stand at
    places 26 and 53 and are generated from the 26 characters before
    each, these are the 52 characters of the unpadded base32 text of the
    identifier. *)
Theorem String_shape Generate n :
  length n = 32%nat → (∀ s, alpha (Generate s)) →
  let s := protocol.String Generate n in
  let id := protocol.Remove "-"%char s in
  length s = 59%nat ∧ length id = 54%nat ∧ Forall alpha id ∧
  s = take 9 id ++ "-"%char :: take 9 (drop 9 id) ++ "-"%char :: take 9 (drop 18 id)
      ++ "-"%char :: take 9 (drop 27 id) ++ "-"%char :: take 9 (drop 36 id)
      ++ "-"%char :: drop 45 id ∧
  take 26 id ++ take 26 (drop 27 id)
  = protocol.Trim "="%char (protocol.EncodeToString n) ∧
  id !! 26%nat = Some (Generate (take 26 id)) ∧
  id !! 53%nat = Some (Generate (take 26 (drop 27 id))).
Proof.
  intros Hn Hg. cbv zeta.
  destruct (String_checked Generate n Hn Hg) as (Hl & Ha & E).
  destruct (EncodeToString_32 n Hn) as (body & Eb & Hlb & Hab).
  assert (Et : protocol.Trim "="%char (protocol.EncodeToString n) = body).
  { rewrite Eb. apply Trim_pad. eapply list.Forall_impl; [exact Hab|]. apply alpha_not_pad. }
  assert (Hid : protocol.Remove "-"%char (protocol.String Generate n)
                = checked Generate n).
  { rewrite E, Remove_Trim. apply Remove_group9.
    eapply list.Forall_impl; [exact Ha|]. apply alpha_not_hyphen. }
  rewrite Hid, Et.
  assert (Ec : checked Generate n
               = take 26 body ++ Generate (take 26 body) :: drop 26 body
                 ++ [Generate (drop 26 body)]) by (unfold checked; by rewrite Et).
  rewrite E, (Trim_group9_54 _ Hl Ha).
  set (id := checked Generate n) in *.
  split; [|split; [done|]; split; [done|]; split; [done|]].
  { repeat (rewrite length_app || rewrite length_take || rewrite length_drop
            || rewrite Hl || cbn [length]). lia. }
  assert (Hlt : length (take 26 body) = 26%nat) by (rewrite length_take; lia).
  assert (Hld : length (drop 26 body) = 26%nat) by (rewrite length_drop; lia).
  assert (E26 : take 26 id = take 26 body).
  { rewrite Ec. by rewrite take_app_length' by done. }
  assert (E27 : drop 27 id = drop 26 body ++ [Generate (drop 26 body)]).
  { rewrite Ec. change 27%nat with (26 + 1)%nat. rewrite <- drop_drop.
    by rewrite drop_app_length' by done. }
  assert (E53 : take 26 (drop 27 id) = drop 26 body).
  { rewrite E27. by rewrite take_app_length' by done. }
  rewrite E26, E53. split; [by rewrite take_drop|]. split.
  - rewrite Ec. by rewrite list_lookup_middle by done.
  - rewrite Ec.
    replace (take 26 body ++ Generate (take 26 body) :: drop 26 body
             ++ [Generate (drop 26 body)])
      with ((take 26 body ++ Generate (take 26 body) :: drop 26 body)
            ++ Generate (drop 26 body) :: [])
      by (by rewrite <- (assoc_L (++))).
    rewrite list_lookup_middle; [done|].
    rewrite length_app. cbn [length]. by rewrite Hlt, Hld.
Qed.

Lemma String_shape_witness :
  length protocol.zeroNodeID = 32%nat ∧ (∀ s, alpha (protocol.luhn32 s)) ∧
  let s := protocol.String protocol.luhn32 protocol.zeroNodeID in
  let id := protocol.Remove "-"%char s in
  length s = 59%nat ∧ length id = 54%nat ∧ Forall alpha id ∧
  s = take 9 id ++ "-"%char :: take 9 (drop 9 id) ++ "-"%char :: take 9 (drop 18 id)
      ++ "-"%char :: take 9 (drop 27 id) ++ "-"%char :: take 9 (drop 36 id)
      ++ "-"%char :: drop 45 id ∧
  take 26 id ++ take 26 (drop 27 id)
  = protocol.Trim "="%char (protocol.EncodeToString protocol.zeroNodeID) ∧
  id !! 26%nat = Some (protocol.luhn32 (take 26 id)) ∧
  id !! 53%nat = Some (protocol.luhn32 (take 26 (drop 27 id))).
Proof.
  assert (Hn : length protocol.zeroNodeID = 32%nat) by reflexivity.
  split; [exact Hn|]. split; [exact luhn32_alpha|].
  exact (String_shape protocol.luhn32 protocol.zeroNodeID Hn luhn32_alpha).
Defined.

Lemma bytesCompare_eq a : ∀ b, protocol.bytesCompare a b = 0 ↔ a = b.
Proof.
  induction a as [|x a IH]; intros [|y b]; simpl; try done.
  destruct (Z.ltb_spec x y); [split; [done | intros [= -> _]; lia]|].
  destruct (Z.ltb_spec y x); [split; [done | intros [= -> _]; lia]|].
  rewrite IH. assert (x = y) by lia. subst. split; [by intros -> | by intros [= ->]].
Qed.

Lemma bytesCompare_swap a : ∀ b, protocol.bytesCompare b a = - protocol.bytesCompare a b.
Proof.
  induction a as [|x a IH]; intros [|y b]; simpl; try done.
  destruct (Z.ltb_spec x y), (Z.ltb_spec y x); try done; lia.
Qed.

(** X12: Equals tells whether two identifiers are the same bytes, as
    Compare returning zero does, and Compare is antisymmetric: swapping
    the identifiers negates the result, which is -1, 0 or 1. *)
Theorem Equals_is_equality (n other : list Z) :
  (protocol.Equals n other = true ↔ n = other) ∧
  (protocol.Compare n other = 0 ↔ n = other) ∧
  protocol.Compare other n = - protocol.Compare n other ∧
  protocol.Compare n other ∈ [-1; 0; 1].
Proof.
  unfold protocol.Equals, protocol.Compare. split; [|split; [|split]].
  - rewrite Z.eqb_eq. apply bytesCompare_eq.
  - apply bytesCompare_eq.
  - apply bytesCompare_swap.
  - revert other. induction n as [|x a IH]; intros [|y b]; simpl.
    + set_solver.
    + set_solver.
    + set_solver.
    + destruct (x <? y); [set_solver|]. destruct (y <? x); [set_solver|]. apply IH.
Qed.

(** ** The identifier of a certificate (tls.go) *)

Lemma alpha_lower c : alpha c → lower_alpha (protocol.lower c).
Proof.
  intros Hc.
  apply (alpha_all (λ c, bool_decide (lower_alpha (protocol.lower c)))) in Hc;
    [|reflexivity].
  by apply bool_decide_eq_true in Hc.
Qed.

Lemma alpha_upper_lower c : alpha c → protocol.upper (protocol.lower c) = c.
Proof.
  intros Hc.
  apply (alpha_all (λ c, bool_decide (protocol.upper (protocol.lower c) = c))) in Hc;
    [|reflexivity].
  by apply bool_decide_eq_true in Hc.
Qed.

Lemma alpha_lower_not_pad c : alpha c → protocol.lower c ≠ "="%char.
Proof.
  intros Hc.
  apply (alpha_all (λ c, negb (bool_decide (protocol.lower c = "="%char)))) in Hc;
    [|reflexivity].
  by apply negb_true_iff, bool_decide_eq_false in Hc.
Qed.

Lemma certID_body sha256 bs :
  length (sha256 bs) = 32%nat →
  ∃ body, stcli.certID sha256 bs = protocol.ToLower body ∧
          body = protocol.Trim "="%char (protocol.EncodeToString (sha256 bs)) ∧
          length body = 52%nat ∧ Forall alpha body.
Proof.
  intros Hl. destruct (EncodeToString_32 _ Hl) as (body & E & Hlb & Ha).
  assert (Et : protocol.Trim "="%char (protocol.EncodeToString (sha256 bs)) = body).
  { rewrite E. apply Trim_pad. eapply list.Forall_impl; [exact Ha|]. apply alpha_not_pad. }
  exists body. split; [|done].
  unfold stcli.certID, protocol.append. cbn [protocol.slen protocol.scap protocol.base].
  rewrite Hl. cbn [Nat.add Nat.leb fst protocol.slen protocol.base take app].
  rewrite firstn_all. by rewrite Et.
Qed.

(** X13: for a 32-byte digest, certID gives the old-style identifier
    in lower case: 52 characters of the lower-case base32 alphabet which,
    in upper case, are the characters String prints for the digest once
    the hyphens and the two check characters are taken away.  UnmarshalText
    rejects it as corrupt input and leaves the receiver as it was. *)
Theorem certID_old_style sha256 Generate bs :
  length (sha256 bs) = 32%nat → (∀ s, alpha (Generate s)) →
  let id := stcli.certID sha256 bs in
  let s := protocol.Remove "-"%char (protocol.String Generate (sha256 bs)) in
  length id = 52%nat ∧ Forall lower_alpha id ∧
  protocol.ToUpper id = take 26 s ++ take 26 (drop 27 s) ∧
  ∀ n, protocol.UnmarshalText Generate n id = (n, Some protocol.CorruptInput).
Proof.
  intros Hl Hg. cbv zeta.
  destruct (certID_body sha256 bs Hl) as (body & -> & Eb & Hlb & Ha).
  assert (Eup : protocol.ToUpper (protocol.ToLower body) = body).
  { clear -Ha. unfold protocol.ToUpper, protocol.ToLower.
    induction Ha as [|c s Hc Hs IH]; [done|].
    rewrite !fmap_cons, IH. by rewrite alpha_upper_lower. }
  split; [by unfold protocol.ToLower; rewrite length_fmap|]. split.
  { unfold protocol.ToLower. apply Forall_fmap.
    eapply list.Forall_impl; [exact Ha|]. intros c Hc. by apply alpha_lower. }
  split.
  { rewrite Eup.
    destruct (String_checked Generate _ Hl Hg) as (Hlc & Hac & E).
    rewrite E, Remove_Trim, Remove_group9
      by (eapply list.Forall_impl; [exact Hac|]; apply alpha_not_hyphen).
    unfold checked. cbv zeta. rewrite <- Eb.
    assert (Hlt : length (take 26 body) = 26%nat) by (rewrite length_take; lia).
    assert (Hld : length (drop 26 body) = 26%nat) by (rewrite length_drop; lia).
    rewrite take_app_length' by done.
    change 27%nat with (26 + 1)%nat. rewrite <- drop_drop.
    rewrite drop_app_length' by done. cbn [drop].
    rewrite drop_0, take_app_length' by done. by rewrite take_drop. }
  intros n. unfold protocol.UnmarshalText.
  rewrite (Trim_keep "="%char).
  2:{ unfold protocol.ToLower. apply Forall_fmap.
      eapply list.Forall_impl; [exact Ha|]. intros c Hc. by apply alpha_lower_not_pad. }
  rewrite Eup.
  rewrite (Remove_keep "-"%char)
    by (eapply list.Forall_impl; [exact Ha|]; apply alpha_not_hyphen).
  rewrite (Remove_keep " "%char)
    by (eapply list.Forall_impl; [exact Ha|]; apply alpha_not_space).
  unfold protocol.DecodeString.
  assert (Ef : filter (λ c, ¬ protocol.newline c) body = body).
  { clear -Ha. induction Ha as [|c s Hc Hs IH]; [done|].
    rewrite filter_cons, decide_True by (by apply alpha_not_newline). by rewrite IH. }
  rewrite Ef. rewrite decode_short; [done | done | lia|]. by rewrite Hlb.
Qed.

Lemma certID_old_style_witness :
  length ((λ _ : list Z, protocol.zeroNodeID) [1; 2; 3]) = 32%nat ∧
  (∀ s, alpha (protocol.luhn32 s)) ∧
  let id := stcli.certID (λ _, protocol.zeroNodeID) [1; 2; 3] in
  let s := protocol.Remove "-"%char
             (protocol.String protocol.luhn32 ((λ _ : list Z, protocol.zeroNodeID) [1; 2; 3])) in
  length id = 52%nat ∧ Forall lower_alpha id ∧
  protocol.ToUpper id = take 26 s ++ take 26 (drop 27 s) ∧
  ∀ n, protocol.UnmarshalText protocol.luhn32 n id = (n, Some protocol.CorruptInput).
Proof.
  assert (Hn : length ((λ _ : list Z, protocol.zeroNodeID) [1; 2; 3]) = 32%nat)
    by reflexivity.
  split; [exact Hn|]. split; [exact luhn32_alpha|].
  exact (certID_old_style (λ _, protocol.zeroNodeID) protocol.luhn32 [1; 2; 3]
           Hn luhn32_alpha).
Defined.

(** X9: in a set reached by admissible calls, for a name that some
    peer reports, bit i of Availability(name) is set exactly when peer i
    holds the file that GetGlobal(name) returns. *)
Theorem Availability_bits FD w n (i : nat) :
  reachable FD w → (∃ j k, peer w.2 j !! n = Some k) →
  Z.testbit (Availability n w.2) (Z.of_nat i) = true
  ↔ peer w.2 i !! n = Some (keyFor (GetGlobal n w.2)).
Proof.
  intros Hr (j & k & Hjk). pose proof (set_inv_reachable FD w Hr) as (Hb & Hkn & Hg).
  destruct w as [c m]. simpl in *.
  destruct (Hkn _ _ _ Hjk) as [gk Hgk].
  destruct (Hg n gk Hgk) as (av & Hav & [i0 Hi0] & _ & Hbits).
  destruct (inv_held m Hb _ _ _ Hi0) as [r Hrk].
  pose proof (inv_filed m Hb _ _ Hrk) as Hk.
  unfold Availability, GetGlobal, getRecord. rewrite Hav, Hgk.
  change (default zeroKey (Some gk)) with gk. change (default 0 (Some av)) with av.
  rewrite Hrk. simpl. rewrite Hk. apply Hbits.
Qed.

Lemma Availability_bits_witness :
  reachable FlagDeleted12 (0, after three_peers) ∧
  (∃ j k, peer (after three_peers) j !! "a" = Some k) ∧
  (Z.testbit (Availability "a" (after three_peers)) (Z.of_nat 2) = true
   ↔ peer (after three_peers) 2 !! "a" = Some (keyFor (GetGlobal "a" (after three_peers)))).
Proof.
  assert (H : ∃ j k, peer (after three_peers) j !! "a" = Some k).
  { exists 1%nat, (keyFor (plain "a" 7)). vm_compute. reflexivity. }
  split; [exact reachable_three_peers|]. split; [exact H|].
  exact (Availability_bits FlagDeleted12 (0, after three_peers) "a" 2
           reachable_three_peers H).
Defined.

(** ** The walker beyond the claim *)

Section WalkInvariant.
Context {S : Type}.
Variable fn : list string → scanner.node → bool → S → S * scanner.action.
Variable P : S → Prop.
Hypothesis fn_keeps : ∀ comps nd err s, P s → P (fn comps nd err s).1.

Lemma walk_keeps : ∀ nd comps s, P s → P (scanner.walk fn comps nd s).1.
Proof.
  fix IH 1. intros [info content|info entries|] comps s Hs; cbn [scanner.walk].
  - pose proof (fn_keeps comps (scanner.Leaf info content) false s Hs) as H.
    destruct (fn comps _ false s) as [s1 a]. exact H.
  - pose proof (fn_keeps comps (scanner.Folder info entries) false s Hs) as H.
    destruct (fn comps _ false s) as [s1 a]. cbn [fst] in H.
    destruct a; [|exact H].
    destruct entries as [es|]; cbn [fst].
    + clear Hs. revert s1 H. induction es as [|[name child] rest IHes]; intros s1 H.
      * exact H.
      * pose proof (IH child (comps ++ [name]) s1 H) as Hc.
        destruct (scanner.walk fn (comps ++ [name]) child s1) as [s2 leave].
        cbn [fst] in Hc. destruct leave; [exact Hc|]. by apply IHes.
    + by apply fn_keeps.
  - by apply fn_keeps.
Qed.

Lemma filepathWalk_keeps root s : P s → P (scanner.filepathWalk fn root s).
Proof.
  intros Hs. destruct root as [nd|]; simpl; [by apply walk_keeps | by apply fn_keeps].
Qed.
End WalkInvariant.

Lemma consecutive_from_snoc c res f :
  consecutive_from c res → scanner.Version f = c + 1 + Z.of_nat (length res) →
  consecutive_from c (res ++ [f]).
Proof.
  intros H Hf i g Hi. apply lookup_app_Some in Hi as [Hi|[Hge Hi]]; [by apply H|].
  apply list_lookup_singleton_Some in Hi as [Hi <-]. rewrite Hf. f_equal. lia.
Qed.

Lemma walkAndHashFiles_cases FD FDir FNoPerm GOOS IsNormalString Match BlocksOf
    w ign comps nd err (res : list scanner.File) (c : lamport.Clock) :
  scanner.CurrentFiler w = None →
  let r := (scanner.walkAndHashFiles FD FDir FNoPerm GOOS IsNormalString Match BlocksOf
              w ign comps nd err (res, c)).1 in
  r = (res, c) ∨
  ∃ f, r = (res ++ [f], (Z.max c 0 + 1 : lamport.Clock)) ∧ scanner.Version f = Z.max c 0 + 1 ∧
       hashed_entry FNoPerm GOOS IsNormalString Match w ign f.
Proof.
  intros HCF. unfold scanner.walkAndHashFiles.
  destruct err; [by left|].
  destruct (scanner.info_of nd) as [info|] eqn:Einfo; [|by left].
  cbv zeta. case_decide as Hrn; [by left|].
  destruct (match scanner.TempNamer w with
            | Some isTemporary => isTemporary (scanner.rel comps)
            | None => false
            end) eqn:Etmp; [by left|].
  destruct (bool_decide (scanner.splitBase comps = scanner.IgnoreFile w)
            || bool_decide (scanner.splitBase comps = ".stversions")
            || scanner.ignoreFile Match ign comps) eqn:Eign; [by left|].
  destruct (match GOOS with
            | scanner.linux | scanner.windows => negb (IsNormalString (scanner.rel comps))
            | _ => false
            end) eqn:Enorm; [by left|].
  rewrite HCF.
  replace (if scanner.IsDir info then None else None)
    with (@None (string → scanner.File)) by (by destruct (scanner.IsDir info)).
  destruct (scanner.IsRegular info) eqn:Ereg; [|by left].
  destruct (scanner.content_of nd) as [bytes|]; [|by left].
  destruct (BlocksOf bytes (scanner.BlockSize w)) as [blocks|]; [|by left].
  unfold lamport.Tick. cbv zeta. cbn [fst].
  right. eexists. split; [reflexivity|]. split; [reflexivity|].
  apply orb_false_iff in Eign as [Eign Eign3].
  apply orb_false_iff in Eign as [Eign1 Eign2].
  apply bool_decide_eq_false in Eign1, Eign2.
  exists comps, info. cbn [scanner.Name scanner.Flags scanner.Modified scanner.Size
                             scanner.Suppressed].
  split; [done|]. split; [done|]. split; [done|]. split; [done|]. split; [done|].
  split; [done|]. split.
  { intros isTemporary Ht. by rewrite Ht in Etmp. }
  split; [|done].
  intros [->| ->]; by apply negb_false_iff in Enorm.
Qed.

(** X14: without a CurrentFiler every file that Walk returns has a new
    version: the versions are the consecutive ticks after the clock at
    the start (0 or more), in the order of the list, and the clock ends
    that many ticks later. *)
Theorem Walk_fresh_versions FD FDir FNoPerm GOOS IsNormalString Match BlocksOf w fs c :
  scanner.CurrentFiler w = None → 0 ≤ c →
  let r := scanner.Walk FD FDir FNoPerm GOOS IsNormalString Match BlocksOf w fs c in
  r.2 = c + Z.of_nat (length r.1.1.1) ∧ consecutive_from c r.1.1.1.
Proof.
  intros HCF Hc. cbv zeta. unfold scanner.Walk.
  destruct (scanner.checkDir (scanner.at_first_check fs)) as [e|].
  { cbn [fst snd length]. split; [lia|]. intros i f Hi. by rewrite lookup_nil in Hi. }
  cbv zeta.
  set (ignore := scanner.filepathWalk (scanner.loadIgnoreFiles w) _ ∅).
  pose (P := λ st : list scanner.File * lamport.Clock,
               st.2 = c + Z.of_nat (length st.1) ∧ consecutive_from c st.1).
  assert (Hfn : ∀ comps nd err s, P s →
            P (scanner.walkAndHashFiles FD FDir FNoPerm GOOS IsNormalString Match
                 BlocksOf w ignore comps nd err s).1).
  { intros comps nd err [res c1] [H1 H2]. cbn [fst snd] in H1, H2.
    destruct (walkAndHashFiles_cases FD FDir FNoPerm GOOS IsNormalString Match BlocksOf
                w ignore comps nd err res c1 HCF) as [->|(f & -> & Hv & _)]; [done|].
    unfold P. cbn [fst snd]. replace (Z.max c1 0) with c1 in * by lia. split.
    - rewrite length_app. cbn [length]. lia.
    - apply consecutive_from_snoc; [done|]. lia. }
  assert (Hinit : P ([], c)).
  { unfold P. cbn [fst snd length]. split; [lia|].
    intros i f Hi. by rewrite lookup_nil in Hi. }
  pose proof (filepathWalk_keeps _ P Hfn (scanner.at_hash_pass fs) ([], c) Hinit) as H.
  destruct (scanner.filepathWalk _ (scanner.at_hash_pass fs) _) as [files0 c0].
  exact H.
Qed.

Lemma Walk_fresh_versions_witness :
  scanner.CurrentFiler plain_walker = None ∧ 0 ≤ 0 ∧
  let r := scanner.Walk FlagDeleted12 (Z.shiftl 1 14) (Z.shiftl 1 15) scanner.linux
             always_normal literal_match one_block plain_walker vanishing 0 in
  r.2 = 0 + Z.of_nat (length r.1.1.1) ∧ consecutive_from 0 r.1.1.1.
Proof.
  assert (H1 : scanner.CurrentFiler plain_walker = None) by reflexivity.
  assert (H2 : 0 ≤ 0) by lia.
  split; [exact H1|]. split; [exact H2|].
  exact (Walk_fresh_versions FlagDeleted12 (Z.shiftl 1 14) (Z.shiftl 1 15) scanner.linux
           always_normal literal_match one_block plain_walker vanishing 0 H1 H2).
Defined.











(** ** ReplaceWithDelete when no file has gone *)

Lemma addDeleted_none FD nf recs ks acc :
  (∀ ck, ck ∈ ks → is_Some (nf !! Name ck)) →
  foldl (addDeleted FD nf recs) acc ks = acc.
Proof.
  revert acc. induction ks as [|ck ks IH]; intros acc H; simpl; [done|].
  rewrite IH by (intros ck' Hck'; apply H; by right).
  unfold addDeleted. destruct (H ck) as [k ->]; [by left | done].
Qed.

(** X17: when the list names every file of the local index,
    ReplaceWithDelete appends nothing: it is Replace with the same list,
    and the clock is not ticked. *)
Theorem ReplaceWithDelete_nothing_missing FD id (fs : list scanner.File) c m :
  (∀ n ck, peer m LocalID !! n = Some ck → Name ck ∈ (scanner.Name <$> fs)) →
  ReplaceWithDelete FD id fs c m
  = match Replace FD id fs m with
    | Done m' => Done (c, m')
    | Stop e => Stop e
    end.
Proof.
  intros H. unfold ReplaceWithDelete, Replace.
  case_decide as Hid; [done|]. destruct (mutates FD id fs m); [|done]. cbv zeta.
  change (withDeleted FD fs c (bump id m))
    with (foldl (addDeleted FD (nameKeys fs) (files m)) (fs, c) (values (peer m LocalID))).
  rewrite addDeleted_none; [done|].
  intros ck Hck. unfold values in Hck. apply list_elem_of_fmap in Hck as ([n k] & -> & Hin).
  apply elem_of_map_to_list in Hin. simpl.
  destruct (nameKeys fs !! Name k) as [x|] eqn:E; [done|].
  apply nameKeys_None in E. destruct E. by eapply H.
Qed.

Lemma ReplaceWithDelete_nothing_missing_witness :
  (∀ n ck, peer (after [CallReplace 0 [plain "a" 5]]) LocalID !! n = Some ck →
           Name ck ∈ (scanner.Name <$> [plain "a" 6])) ∧
  ReplaceWithDelete FlagDeleted12 0 [plain "a" 6] 9 (after [CallReplace 0 [plain "a" 5]])
  = match Replace FlagDeleted12 0 [plain "a" 6] (after [CallReplace 0 [plain "a" 5]]) with
    | Done m' => Done (9, m')
    | Stop e => Stop e
    end.
Proof.
  assert (H : ∀ n ck, peer (after [CallReplace 0 [plain "a" 5]]) LocalID !! n = Some ck →
                      Name ck ∈ (scanner.Name <$> [plain "a" 6])).
  { intros n ck.
    assert (E : peer (after [CallReplace 0 [plain "a" 5]]) LocalID
                = {[ "a" := keyFor (plain "a" 5) ]}) by (vm_compute; reflexivity).
    rewrite E. intros Hn. apply lookup_singleton_Some in Hn as [_ <-].
    apply list_elem_of_In. left. reflexivity. }
  split; [exact H|].
  exact (ReplaceWithDelete_nothing_missing FlagDeleted12 0 [plain "a" 6] 9 _ H).
Defined.

(** ** What the hash pass leaves out *)

Section WalkPaths.
Context {S : Type}.
Variable fn : list string → scanner.node → bool → S → S * scanner.action.
Variable P : S → Prop.
Variable Q : list string → Prop.
Hypothesis fn_keeps : ∀ comps nd err s, Q comps → P s → P (fn comps nd err s).1.
Hypothesis fn_descends : ∀ comps info entries s name,
  Q comps → scanner.IsDir info = true →
  (fn comps (scanner.Folder info entries) false s).2 = scanner.Continue →
  Q (comps ++ [name]).

Lemma walk_keeps_paths : ∀ nd comps s,
  well_formed nd = true → Q comps → P s → P (scanner.walk fn comps nd s).1.
Proof.
  fix IH 1. intros [info content|info entries|] comps s Hwf HQ Hs; cbn [scanner.walk].
  - pose proof (fn_keeps comps (scanner.Leaf info content) false s HQ Hs) as H.
    destruct (fn comps _ false s) as [s1 a]. exact H.
  - pose proof (fn_keeps comps (scanner.Folder info entries) false s HQ Hs) as H.
    pose proof (fn_descends comps info entries s) as Hd.
    cbn [well_formed] in Hwf. apply andb_true_iff in Hwf as [Hdir Hwf].
    destruct (fn comps _ false s) as [s1 a]. cbn [fst snd] in H, Hd.
    destruct a; [|exact H].
    destruct entries as [es|]; cbn [fst].
    + clear Hs. revert s1 H. induction es as [|[name child] rest IHes]; intros s1 H.
      * exact H.
      * cbn [forallb] in Hwf. apply andb_true_iff in Hwf as [Hc Hrest].
        pose proof (IH child (comps ++ [name]) s1 Hc (Hd name HQ Hdir eq_refl) H) as Hw.
        destruct (scanner.walk fn (comps ++ [name]) child s1) as [s2 leave].
        cbn [fst] in Hw. destruct leave; [exact Hw|]. by apply IHes.
    + by apply fn_keeps.
  - by apply fn_keeps.
Qed.
End WalkPaths.

Lemma prefix_snoc_inv {A} (p l : list A) x :
  p `prefix_of` l ++ [x] → p = l ++ [x] ∨ p `prefix_of` l.
Proof.
  intros [k E]. destruct k as [|y k _] using rev_ind.
  - left. by rewrite app_nil_r in E.
  - right. rewrite (assoc_L (++)) in E. apply app_inj_tail in E as [-> _]. by exists k.
Qed.

Lemma walkAndHashFiles_path FD FDir FNoPerm GOOS IsNormalString Match BlocksOf
    w ign comps nd err (res : list scanner.File) (c : lamport.Clock) :
  scanner.CurrentFiler w = None →
  let r := (scanner.walkAndHashFiles FD FDir FNoPerm GOOS IsNormalString Match BlocksOf
              w ign comps nd err (res, c)).1 in
  r.1 = res ∨
  ∃ f, r.1 = res ++ [f] ∧ scanner.Name f = scanner.rel comps ∧
       skipped Match w ign comps = false.
Proof.
  intros HCF. unfold scanner.walkAndHashFiles, skipped.
  destruct err; [by left|].
  destruct (scanner.info_of nd) as [info|] eqn:Einfo; [|by left].
  cbv zeta. case_decide as Hrn; [by left|].
  destruct (match scanner.TempNamer w with
            | Some isTemporary => isTemporary (scanner.rel comps)
            | None => false
            end) eqn:Etmp; [by left|].
  destruct (bool_decide (scanner.splitBase comps = scanner.IgnoreFile w)
            || bool_decide (scanner.splitBase comps = ".stversions")
            || scanner.ignoreFile Match ign comps) eqn:Eign; [by left|].
  destruct (match GOOS with
            | scanner.linux | scanner.windows => negb (IsNormalString (scanner.rel comps))
            | _ => false
            end) eqn:Enorm; [by left|].
  rewrite HCF.
  replace (if scanner.IsDir info then None else None)
    with (@None (string → scanner.File)) by (by destruct (scanner.IsDir info)).
  destruct (scanner.IsRegular info) eqn:Ereg; [|by left].
  destruct (scanner.content_of nd) as [bytes|]; [|by left].
  destruct (BlocksOf bytes (scanner.BlockSize w)) as [blocks|]; [|by left].
  unfold lamport.Tick. cbv zeta. cbn [fst].
  right. eexists. split; [reflexivity|]. split; [reflexivity|].
  by rewrite andb_false_r.
Qed.

Lemma walkAndHashFiles_descends FD FDir FNoPerm GOOS IsNormalString Match BlocksOf
    w ign comps info entries st :
  scanner.IsDir info = true →
  (scanner.walkAndHashFiles FD FDir FNoPerm GOOS IsNormalString Match BlocksOf
     w ign comps (scanner.Folder info entries) false st).2 = scanner.Continue →
  skipped Match w ign comps = false.
Proof.
  intros Hdir. unfold scanner.walkAndHashFiles, skipped. cbn [scanner.info_of]. cbv zeta.
  case_decide as Hrn.
  { intros _. by rewrite bool_decide_eq_true_2. }
  rewrite (bool_decide_eq_false_2 _ Hrn). cbn [negb andb].
  destruct (match scanner.TempNamer w with
            | Some isTemporary => isTemporary (scanner.rel comps)
            | None => false
            end); [done|]. cbn [negb andb].
  destruct (bool_decide (scanner.splitBase comps = scanner.IgnoreFile w)
            || bool_decide (scanner.splitBase comps = ".stversions")
            || scanner.ignoreFile Match ign comps); [|done].
  rewrite Hdir. cbn [snd]. intros [=].
Qed.

(** X18: on a tree where the directories are those that lstat reports
    as directories, and without a CurrentFiler, Walk returns no file at or
    below a path that the hash pass leaves out: every file returned
    stands for a path of which no leading part, the path itself included,
    is the ignore file, .stversions or matched by a pattern of the ignore
    map, unless that part has a temporary name.  So nothing below a
    directory named .stversions or below an ignored directory is
    returned. *)
Theorem Walk_leaves_out_skipped FD FDir FNoPerm GOOS IsNormalString Match BlocksOf
    w fs c files ign err c' root :
  scanner.CurrentFiler w = None →
  scanner.at_hash_pass fs = Some root → well_formed root = true →
  scanner.Walk FD FDir FNoPerm GOOS IsNormalString Match BlocksOf w fs c
  = ((files, Some ign, err), c') →
  Forall (outside_skipped Match w ign) files.
Proof.
  intros HCF Hroot Hwf. unfold scanner.Walk.
  destruct (scanner.checkDir (scanner.at_first_check fs)); [intros [=]|]. cbv zeta.
  set (ignore := scanner.filepathWalk (scanner.loadIgnoreFiles w) _ ∅).
  rewrite Hroot. cbn [scanner.filepathWalk].
  pose (P := λ st : list scanner.File * lamport.Clock,
               Forall (outside_skipped Match w ignore) st.1).
  pose (Q := λ comps : list string,
               ∀ p, p `prefix_of` comps → p ≠ comps → skipped Match w ignore p = false).
  pose (fn := scanner.walkAndHashFiles FD FDir FNoPerm GOOS IsNormalString Match
                BlocksOf w ignore).
  assert (Hfn : ∀ comps nd e s, Q comps → P s → P (fn comps nd e s).1).
  { intros comps nd e [res c1] HQ H1. unfold P in H1. cbn [fst] in H1.
    destruct (walkAndHashFiles_path FD FDir FNoPerm GOOS IsNormalString Match BlocksOf
                w ignore comps nd e res c1 HCF) as [E|(f & E & Hn & Hsk)];
      unfold P, fn; rewrite E; [done|].
    apply Forall_app. split; [done|]. constructor; [|done].
    exists comps. split; [done|]. intros p Hp.
    destruct (decide (p = comps)) as [->|Hne]; [done | by apply HQ]. }
  assert (Hd : ∀ comps info entries s name,
            Q comps → scanner.IsDir info = true →
            (fn comps (scanner.Folder info entries) false s).2 = scanner.Continue →
            Q (comps ++ [name])).
  { intros comps info entries s name HQ Hdir Hc p Hp Hne.
    apply prefix_snoc_inv in Hp as [->|Hp]; [done|].
    destruct (decide (p = comps)) as [->|Hne']; [|by apply HQ].
    by eapply walkAndHashFiles_descends. }
  assert (HQ0 : Q []).
  { intros p Hp Hne. apply prefix_nil_inv in Hp. done. }
  assert (Hinit : P ([], c)) by constructor.
  pose proof (walk_keeps_paths fn P Q Hfn Hd root [] ([], c) Hwf HQ0 Hinit) as H.
  unfold fn in H.
  destruct (scanner.walk _ [] root ([], c)) as [[files0 c0] leave].
  cbn [fst]. intros [= <- <- <- <-]. exact H.
Qed.

Lemma Walk_leaves_out_skipped_witness :
  scanner.CurrentFiler plain_walker = None ∧
  scanner.at_hash_pass (steady versioned) = Some versioned ∧
  well_formed versioned = true ∧
  scanner.Walk FlagDeleted12 (Z.shiftl 1 14) (Z.shiftl 1 15) scanner.linux
    always_normal literal_match one_block plain_walker (steady versioned) 0
  = (([scanner.mkFile "keep.txt" 420 200 1 5 [scanner.mkBlock 0 5 []] false],
      Some {[ "." := ["cache"] ]}, None), 1) ∧
  Forall (outside_skipped literal_match plain_walker {[ "." := ["cache"] ]})
    [scanner.mkFile "keep.txt" 420 200 1 5 [scanner.mkBlock 0 5 []] false].
Proof.
  assert (H1 : scanner.CurrentFiler plain_walker = None) by reflexivity.
  assert (H2 : scanner.at_hash_pass (steady versioned) = Some versioned) by reflexivity.
  assert (H3 : well_formed versioned = true) by (vm_compute; reflexivity).
  assert (H4 : scanner.Walk FlagDeleted12 (Z.shiftl 1 14) (Z.shiftl 1 15) scanner.linux
                 always_normal literal_match one_block plain_walker (steady versioned) 0
               = (([scanner.mkFile "keep.txt" 420 200 1 5 [scanner.mkBlock 0 5 []] false],
                   Some {[ "." := ["cache"] ]}, None), 1))
    by (vm_compute; reflexivity).
  split; [exact H1|]. split; [exact H2|]. split; [exact H3|]. split; [exact H4|].
  exact (Walk_leaves_out_skipped FlagDeleted12 (Z.shiftl 1 14) (Z.shiftl 1 15)
           scanner.linux always_normal literal_match one_block plain_walker
           (steady versioned) 0 _ _ _ _ versioned H1 H2 H3 H4).
Defined.

(** ** Scanning a tree that has not changed *)

Section WalkNodes.
Context {S : Type}.
Variable fn : list string → scanner.node → bool → S → S * scanner.action.
Variable P : S → Prop.
Variable R : list string → scanner.node → Prop.
Hypothesis fn_keeps : ∀ comps nd err s, R comps nd → P s → P (fn comps nd err s).1.
Hypothesis R_child : ∀ comps info es name child,
  R comps (scanner.Folder info (Some es)) → (name, child) ∈ es →
  R (comps ++ [name]) child.

Lemma walk_keeps_nodes : ∀ nd comps s,
  R comps nd → P s → P (scanner.walk fn comps nd s).1.
Proof.
  fix IH 1. intros [info content|info entries|] comps s HR Hs; cbn [scanner.walk].
  - pose proof (fn_keeps comps (scanner.Leaf info content) false s HR Hs) as H.
    destruct (fn comps _ false s) as [s1 a]. exact H.
  - pose proof (fn_keeps comps (scanner.Folder info entries) false s HR Hs) as H.
    destruct (fn comps _ false s) as [s1 a]. cbn [fst] in H.
    destruct a; [|exact H].
    destruct entries as [es|]; cbn [fst].
    + pose proof (R_child comps info es) as Hch. specialize (λ n ch, Hch n ch HR).
      clear Hs HR. revert s1 H.
      induction es as [|[name child] rest IHes]; intros s1 H.
      * exact H.
      * pose proof (IH child (comps ++ [name]) s1
                      (Hch name child ltac:(by left)) H) as Hw.
        destruct (scanner.walk fn (comps ++ [name]) child s1) as [s2 leave].
        cbn [fst] in Hw. destruct leave; [exact Hw|]. apply IHes; [|exact Hw].
        intros n ch Hin. apply Hch. by right.
    + by apply fn_keeps.
  - by apply fn_keeps.
Qed.
End WalkNodes.

Lemma tree_unchanged_child FD FDir FNoPerm GOOS w cf comps info es name child :
  tree_unchanged FD FDir FNoPerm GOOS w cf comps (scanner.Folder info (Some es)) = true →
  (name, child) ∈ es →
  tree_unchanged FD FDir FNoPerm GOOS w cf (comps ++ [name]) child = true.
Proof.
  cbn [tree_unchanged]. intros H Hin. apply andb_true_iff in H as [_ H].
  rewrite forallb_forall in H. apply list_elem_of_In in Hin. exact (H _ Hin).
Qed.

Lemma tree_unchanged_here FD FDir FNoPerm GOOS w cf comps nd info :
  tree_unchanged FD FDir FNoPerm GOOS w cf comps nd = true →
  scanner.info_of nd = Some info → scanner.rel comps ≠ "." →
  entry_unchanged FD FDir FNoPerm GOOS w cf (scanner.rel comps) info = true.
Proof.
  intros H Hi Hrn. destruct nd as [i c|i es|]; cbn [tree_unchanged scanner.info_of] in *.
  - injection Hi as ->. by rewrite bool_decide_eq_false_2 in H.
  - injection Hi as ->. apply andb_true_iff in H as [H _].
    by rewrite bool_decide_eq_false_2 in H.
  - done.
Qed.

Lemma walkAndHashFiles_unchanged FD FDir FNoPerm GOOS IsNormalString Match BlocksOf
    w cf ign comps nd err (res : list scanner.File) (c : lamport.Clock) :
  scanner.CurrentFiler w = Some cf →
  tree_unchanged FD FDir FNoPerm GOOS w cf comps nd = true →
  let r := (scanner.walkAndHashFiles FD FDir FNoPerm GOOS IsNormalString Match BlocksOf
              w ign comps nd err (res, c)).1 in
  r = (res, c) ∨ r = (res ++ [cf (scanner.rel comps)], c).
Proof.
  intros HCF Hun. unfold scanner.walkAndHashFiles.
  destruct err; [by left|].
  destruct (scanner.info_of nd) as [info|] eqn:Einfo; [|by left].
  cbv zeta. case_decide as Hrn; [by left|].
  pose proof (tree_unchanged_here _ _ _ _ _ _ _ _ _ Hun Einfo Hrn) as Hen.
  destruct (match scanner.TempNamer w with
            | Some isTemporary => isTemporary (scanner.rel comps)
            | None => false
            end); [by left|].
  destruct (_ || _ || _); [by left|].
  destruct (match GOOS with
            | scanner.linux | scanner.windows => negb (IsNormalString (scanner.rel comps))
            | _ => false
            end); [by left|].
  rewrite HCF. unfold entry_unchanged in Hen. cbv zeta in Hen.
  destruct (scanner.IsDir info).
  - rewrite Hen. by right.
  - destruct (scanner.IsRegular info); [|by left]. rewrite Hen. by right.
Qed.

(** X19: a scan of a tree that has not changed ticks nothing.  When
    the CurrentFiler has, for every entry below the base directory, a file
    with the modification time of the entry, with permissions that count
    as unchanged, flagged as a directory for a directory and not deleted
    for a regular file, Walk leaves the clock as it was and every file it
    returns is the one the CurrentFiler holds for a path of the tree, its
    version included. *)
Theorem Walk_unchanged_tree FD FDir FNoPerm GOOS IsNormalString Match BlocksOf
    w cf fs c root :
  scanner.CurrentFiler w = Some cf →
  scanner.at_hash_pass fs = Some root →
  tree_unchanged FD FDir FNoPerm GOOS w cf [] root = true →
  let r := scanner.Walk FD FDir FNoPerm GOOS IsNormalString Match BlocksOf w fs c in
  r.2 = c ∧ Forall (λ f, ∃ comps, f = cf (scanner.rel comps)) r.1.1.1.
Proof.
  intros HCF Hroot Hun. cbv zeta. unfold scanner.Walk.
  destruct (scanner.checkDir (scanner.at_first_check fs)); [by split|]. cbv zeta.
  set (ignore := scanner.filepathWalk (scanner.loadIgnoreFiles w) _ ∅).
  rewrite Hroot. cbn [scanner.filepathWalk].
  pose (P := λ st : list scanner.File * lamport.Clock,
               st.2 = c ∧ Forall (λ f, ∃ comps, f = cf (scanner.rel comps)) st.1).
  pose (fn := scanner.walkAndHashFiles FD FDir FNoPerm GOOS IsNormalString Match
                BlocksOf w ignore).
  assert (Hfn : ∀ comps nd e s,
            tree_unchanged FD FDir FNoPerm GOOS w cf comps nd = true →
            P s → P (fn comps nd e s).1).
  { intros comps nd e [res c1] Hnd [H1 H2]. cbn [fst snd] in H1, H2. subst c1.
    destruct (walkAndHashFiles_unchanged FD FDir FNoPerm GOOS IsNormalString Match
                BlocksOf w cf ignore comps nd e res c HCF Hnd) as [E|E];
      unfold P, fn; rewrite E; cbn [fst snd]; [done|].
    split; [done|]. apply Forall_app. split; [done|]. constructor; [|done].
    by exists comps. }
  assert (Hinit : P ([], c)) by (split; [done | constructor]).
  pose proof (walk_keeps_nodes fn P
                (λ comps nd, tree_unchanged FD FDir FNoPerm GOOS w cf comps nd = true)
                Hfn (tree_unchanged_child FD FDir FNoPerm GOOS w cf)
                root [] ([], c) Hun Hinit) as H.
  unfold fn in H.
  destruct (scanner.walk _ [] root ([], c)) as [[files0 c0] leave].
  cbn [fst snd] in *. exact H.
Qed.

Lemma Walk_unchanged_tree_witness :
  scanner.CurrentFiler rescanning = Some last_scan ∧
  scanner.at_hash_pass (steady ignoring) = Some ignoring ∧
  tree_unchanged FlagDeleted12 (Z.shiftl 1 14) (Z.shiftl 1 15) scanner.linux
    rescanning last_scan [] ignoring = true ∧
  let r := scanner.Walk FlagDeleted12 (Z.shiftl 1 14) (Z.shiftl 1 15) scanner.linux
             always_normal literal_match one_block rescanning (steady ignoring) 4 in
  r.2 = 4 ∧ Forall (λ f, ∃ comps, f = last_scan (scanner.rel comps)) r.1.1.1.
Proof.
  assert (H1 : scanner.CurrentFiler rescanning = Some last_scan) by reflexivity.
  assert (H2 : scanner.at_hash_pass (steady ignoring) = Some ignoring) by reflexivity.
  assert (H3 : tree_unchanged FlagDeleted12 (Z.shiftl 1 14) (Z.shiftl 1 15) scanner.linux
                 rescanning last_scan [] ignoring = true) by (vm_compute; reflexivity).
  split; [exact H1|]. split; [exact H2|]. split; [exact H3|].
  exact (Walk_unchanged_tree FlagDeleted12 (Z.shiftl 1 14) (Z.shiftl 1 15) scanner.linux
           always_normal literal_match one_block rescanning last_scan (steady ignoring) 4
           ignoring H1 H2 H3).
Defined.

(** ** The Global flag of the newest files *)

Lemma setGlobalFlag_lookup b k k' (fs : gmap key fileRecord) :
  setGlobalFlag b k fs !! k'
  = if decide (k = k') then
      Some (mkRecord (File (getRecord fs k)) (Usage (getRecord fs k)) b)
    else fs !! k'.
Proof.
  unfold setGlobalFlag. cbv zeta. case_decide as H.
  - subst. by rewrite lookup_insert_eq.
  - by rewrite lookup_insert_ne.
Qed.

Lemma flagged_set k k' (fs : gmap key fileRecord) :
  flagged fs k' → flagged (setGlobalFlag true k fs) k'.
Proof.
  intros (r & Hr & Hg). unfold flagged. rewrite setGlobalFlag_lookup.
  case_decide; [by eexists | by exists r].
Qed.

Lemma flagged_set_at k (fs : gmap key fileRecord) : flagged (setGlobalFlag true k fs) k.
Proof.
  unfold flagged. rewrite setGlobalFlag_lookup, decide_True by done. by eexists.
Qed.

Lemma flagged_unset k k' (fs : gmap key fileRecord) :
  k ≠ k' → flagged fs k' → flagged (setGlobalFlag false k fs) k'.
Proof.
  intros Hne (r & Hr & Hg). unfold flagged. rewrite setGlobalFlag_lookup.
  rewrite decide_False by done. by exists r.
Qed.

Lemma flagged_used (fs : gmap key fileRecord) fk f k :
  flagged fs k →
  flagged (match fs !! fk with
           | None => <[fk := mkRecord f 1 false]> fs
           | Some br => <[fk := mkRecord (File br) (Usage br + 1) (Global br)]> fs
           end) k.
Proof.
  intros (r & Hr & Hg). unfold flagged. destruct (decide (fk = k)) as [->|Hne].
  - rewrite Hr, lookup_insert_eq. by eexists.
  - destruct (fs !! fk); rewrite lookup_insert_ne by done; by exists r.
Qed.

Lemma global_flagged_update_one cid m f :
  set_inv m → global_flagged m → global_flagged (update_one cid m f).
Proof.
  intros (Hb & Hkn & Hg) Hfl.
  assert (Hname : ∀ n gk, globalKey m !! n = Some gk → Name gk = n).
  { intros n gk H. destruct (Hg n gk H) as (av & _ & [i Hi] & _).
    by destruct (inv_keys m Hb _ _ _ Hi). }
  unfold update_one. cbv zeta. case_decide as Hsk; [done|].
  set (files1 := match files m !! keyFor f with
                 | None => _
                 | Some br => _
                 end).
  assert (H1 : ∀ n gk, globalKey m !! n = Some gk → flagged files1 gk).
  { intros n gk H. apply flagged_used. by apply (Hfl n). }
  destruct (globalKey m !! scanner.Name f) as [gk|] eqn:Egk.
  - case_decide as Hd; [exact H1|].
    destruct (newerThan (keyFor f) gk); [|exact H1].
    intros n gk'. cbn [globalKey files set_global set_files set_remoteKey].
    destruct (decide (n = scanner.Name f)) as [->|Hn].
    + rewrite lookup_insert_eq. intros [= <-]. apply flagged_set_at.
    + rewrite lookup_insert_ne by done. intros H.
      apply flagged_set, flagged_unset; [|by eapply H1].
      intros ->. apply Hn. by rewrite <- (Hname _ _ H), (Hname _ _ Egk).
  - destruct (newerThan (keyFor f) zeroKey); [|exact H1].
    intros n gk'. cbn [globalKey files set_global set_files set_remoteKey].
    destruct (decide (n = scanner.Name f)) as [->|Hn].
    + rewrite lookup_insert_eq. intros [= <-]. apply flagged_set_at.
    + rewrite lookup_insert_ne by done. intros H. apply flagged_set. by eapply H1.
Qed.

Lemma global_flagged_update cid fs m :
  set_inv m → global_flagged m → (cid < 64)%nat → admissible (peer m cid) fs = true →
  global_flagged (foldl (update_one cid) m fs).
Proof.
  intros Hinv Hfl Hcid. revert m Hinv Hfl.
  induction fs as [|f fs IH]; intros m Hinv Hfl Hadm; [done|].
  simpl in *. apply andb_true_iff in Hadm as [Hadm Hrest].
  apply andb_true_iff in Hadm as [Hv Hold]. apply Z.ltb_lt in Hv.
  apply IH.
  - apply set_inv_update_one; try done.
    intros ck Hck. rewrite Hck in Hold. by apply Z.leb_le.
  - by apply global_flagged_update_one.
  - by rewrite peer_update_one by (destruct Hinv as [[[-> _] _] _]; done).
Qed.

Lemma recompute_one_flagged m n0 k :
  flagged (files m) k → flagged (files (recompute_one m n0)) k.
Proof.
  intros H. unfold recompute_one. destruct (newest _ _ _ _ _) as [nk na].
  destruct (na =? 0); [done|]. by apply flagged_set.
Qed.

Lemma recompute_fold_flagged ns : ∀ m k,
  flagged (files m) k → flagged (files (foldl recompute_one m ns)) k.
Proof.
  induction ns as [|n0 ns IH]; intros m k H; simpl; [done|].
  by apply IH, recompute_one_flagged.
Qed.

Lemma recompute_fold_sets ns : ∀ m n,
  n ∈ ns →
  let r := newest n 0 (remoteKey m) zeroKey 0 in
  r.2 ≠ 0 → flagged (files (foldl recompute_one m ns)) r.1.
Proof.
  induction ns as [|n0 ns IH]; intros m n Hin; cbv zeta; [by apply elem_of_nil in Hin|].
  intros Hr. simpl. destruct (decide (n = n0)) as [->|Hne].
  - apply recompute_fold_flagged. unfold recompute_one.
    destruct (newest n0 0 (remoteKey m) zeroKey 0) as [nk na]. cbn [fst snd] in *.
    destruct (Z.eqb_spec na 0) as [->|_]; [done|]. apply flagged_set_at.
  - apply elem_of_cons in Hin as [?|Hin]; [done|].
    pose proof (IH (recompute_one m n0) n Hin) as H. cbv zeta in H.
    rewrite remoteKey_recompute_one in H. by apply H.
Qed.

Lemma global_flagged_replace_mid cid m : global_flagged (replace_mid cid m).
Proof.
  rewrite replace_mid_cleared. intros n gk.
  destruct (recompute_fold_global (names (globalKey (cleared cid m))) (cleared cid m) n)
    as [E _]. cbv zeta in E. rewrite E. clear E.
  case_decide as Hin.
  - destruct (Z.eqb_spec (newest n 0 (remoteKey (cleared cid m)) zeroKey 0).2 0)
      as [|Hna]; [done|].
    intros [= <-]. by apply recompute_fold_sets.
  - intros H. destruct Hin. unfold names. apply list_elem_of_fmap.
    exists (n, gk). split; [done|]. by apply elem_of_map_to_list.
Qed.

Lemma global_flagged_exec FD cl w w' :
  set_inv w.2 → global_flagged w.2 → admissible_call cl w = true →
  exec FD cl w = Done w' → global_flagged w'.2.
Proof.
  destruct w as [c m], w' as [c' m']. simpl. intros Hinv Hfl Hadm.
  assert (Hrep : ∀ id fs0 m'', (id < 64)%nat → admissible ∅ fs0 = true →
            replace id fs0 (bump id m) = Done m'' → global_flagged m'').
  { intros id fs0 m'' Hid Ha Hr.
    destruct (set_inv_bump id m Hinv) as (Hb & Hkn & _).
    rewrite replace_Done in Hr by (destruct Hb as [[-> _] _]; done). injection Hr as <-.
    apply global_flagged_update; [by apply set_inv_replace_mid| | done |].
    - apply global_flagged_replace_mid.
    - rewrite peer_replace_mid; [done|]. by destruct Hb as [[-> _] _]. }
  destruct cl as [id fs|id fs|id fs]; simpl in *.
  - unfold Replace. case_decide as Hid; [done|].
    destruct (mutates FD id fs m).
    + destruct (replace id fs (bump id m)) as [m''|] eqn:E; intros [= <- <-].
      eapply Hrep; [|exact Hadm | exact E]. lia.
    + by intros [= <- <-].
  - unfold ReplaceWithDelete. case_decide as Hid; [done|].
    destruct (mutates FD id fs m).
    + pose proof (withDeleted_admissible FD id fs c m (proj1 Hinv) Hadm) as Hadm'.
      destruct (withDeleted FD fs c (bump id m)) as [fs' c''].
      destruct (replace id fs' (bump id m)) as [m''|] eqn:E; intros [= <- <-].
      eapply Hrep; [|exact Hadm' | exact E]. lia.
    + by intros [= <- <-].
  - unfold Update, update.
    destruct (remoteKey m !! id) as [[rem|]|] eqn:E; try done.
    intros [= <- <-].
    assert (Hid : (id < 64)%nat).
    { apply lookup_lt_Some in E. destruct Hinv as [[[Hl _] _] _]. lia. }
    intros n gk. simpl. by apply (global_flagged_update id fs m Hinv Hfl Hid Hadm).
Qed.

Lemma global_flagged_reachable FD w : reachable FD w → global_flagged w.2.
Proof.
  induction 1 as [c|cl w w' Hw IH Hadm Hex].
  - intros n gk. simpl. by rewrite lookup_empty.
  - eapply global_flagged_exec; [|exact IH | exact Hadm | exact Hex].
    by apply (set_inv_reachable FD).
Qed.

(** X20: in a set reached by admissible calls, Global() holds, for
    every name that some peer reports, the file that GetGlobal returns
    for the name, the newest one reported. *)
Theorem Global_holds_newest FD w n :
  reachable FD w → (∃ i k, peer w.2 i !! n = Some k) →
  GetGlobal n w.2 ∈ GlobalFiles w.2.
Proof.
  intros Hr (i & k & Hik).
  pose proof (set_inv_reachable FD w Hr) as (Hb & Hkn & Hg).
  pose proof (global_flagged_reachable FD w Hr) as Hfl.
  destruct w as [c m]. simpl in *.
  destruct (Hkn _ _ _ Hik) as [gk Hgk].
  destruct (Hfl n gk Hgk) as (r & Hrk & Hgl).
  unfold GetGlobal, GlobalFiles, getRecord. rewrite Hgk.
  change (default zeroKey (Some gk)) with gk. rewrite Hrk.
  apply list_elem_of_omap. exists (gk, r). split.
  - by apply elem_of_map_to_list.
  - simpl. by rewrite Hgl.
Qed.

Lemma Global_holds_newest_witness :
  reachable FlagDeleted12 (0, after three_peers) ∧
  (∃ i k, peer (after three_peers) i !! "a" = Some k) ∧
  GetGlobal "a" (after three_peers) ∈ GlobalFiles (after three_peers).
Proof.
  assert (H : ∃ i k, peer (after three_peers) i !! "a" = Some k).
  { exists 1%nat, (keyFor (plain "a" 7)). vm_compute. reflexivity. }
  split; [exact reachable_three_peers|]. split; [exact H|].
  exact (Global_holds_newest FlagDeleted12 (0, after three_peers) "a"
           reachable_three_peers H).
Defined.

(** ** The clock during a scan *)

Lemma walkAndHashFiles_steps FD FDir FNoPerm GOOS IsNormalString Match BlocksOf
    w ign comps nd err (res : list scanner.File) (c : lamport.Clock) :
  let r := (scanner.walkAndHashFiles FD FDir FNoPerm GOOS IsNormalString Match BlocksOf
              w ign comps nd err (res, c)).1 in
  r = (res, c) ∨
  ∃ f, (r = (res ++ [f], c) ∧
        ∃ cf, scanner.CurrentFiler w = Some cf ∧
              (f = cf (scanner.rel comps) ∨
               f = scanner.mkFile (scanner.Name (cf (scanner.rel comps)))
                     (scanner.Flags (cf (scanner.rel comps)))
                     (scanner.Modified (cf (scanner.rel comps)))
                     ((scanner.Version (cf (scanner.rel comps)) + 1) `mod` 2 ^ 64)
                     (scanner.Size (cf (scanner.rel comps)))
                     (scanner.Blocks (cf (scanner.rel comps))) true)) ∨
       (r = (res ++ [f], (Z.max c 0 + 1 : lamport.Clock)) ∧
        scanner.Version f = Z.max c 0 + 1 ∧ scanner.Name f = scanner.rel comps ∧
        scanner.Suppressed f = false).
Proof.
  unfold scanner.walkAndHashFiles.
  destruct err; [by left|].
  destruct (scanner.info_of nd) as [info|] eqn:Einfo; [|by left].
  cbv zeta. case_decide as Hrn; [by left|].
  destruct (match scanner.TempNamer w with
            | Some isTemporary => isTemporary (scanner.rel comps)
            | None => false
            end); [by left|].
  destruct (_ || _ || _); [by left|].
  destruct (match GOOS with
            | scanner.linux | scanner.windows => negb (IsNormalString (scanner.rel comps))
            | _ => false
            end); [by left|].
  unfold lamport.Tick. cbv zeta.
  assert (Hrescan :
    ∀ r0 : (list scanner.File * lamport.Clock) * scanner.action,
      r0 = match scanner.content_of nd with
           | None => ((res, c), scanner.Continue)
           | Some bytes =>
               match BlocksOf bytes (scanner.BlockSize w) with
               | None => ((res, c), scanner.Continue)
               | Some blocks =>
                   ((res ++ [scanner.mkFile (scanner.rel comps)
                               (if scanner.IgnorePerms w then Z.lor FNoPerm 438
                                else Z.land (scanner.Mode info) scanner.ModePerm)
                               (scanner.ModTime info) (Z.max c 0 + 1)
                               (scanner.InfoSize info) blocks false],
                     Z.max c 0 + 1), scanner.Continue)
               end
           end →
      r0.1 = (res, c) ∨
      ∃ f, r0.1 = (res ++ [f], (Z.max c 0 + 1 : lamport.Clock)) ∧
           scanner.Version f = Z.max c 0 + 1 ∧ scanner.Name f = scanner.rel comps ∧
           scanner.Suppressed f = false).
  { intros r0 ->. destruct (scanner.content_of nd) as [bytes|]; [|by left].
    destruct (BlocksOf bytes (scanner.BlockSize w)) as [blocks|]; [|by left].
    right. by eexists. }
  destruct (scanner.CurrentFiler w) as [cf|] eqn:HCF.
  - destruct (scanner.IsDir info).
    + destruct (_ && _ && _).
      * right. eexists. left. split; [done|]. exists cf. split; [done|]. by left.
      * right. eexists. right. done.
    + destruct (scanner.IsRegular info); [|by left].
      destruct (_ && _ && _).
      { right. eexists. left. split; [done|]. exists cf. split; [done|]. by left. }
      destruct (scanner.Suppressor w) as [suppress|].
      * destruct (suppress (scanner.rel comps) info) as [cur prev].
        destruct (cur && negb prev).
        -- right. eexists. left. split; [done|]. exists cf. split; [done|]. by right.
        -- destruct (Hrescan _ eq_refl) as [E|(f & E & H)]; [by left|].
           right. exists f. by right.
      * destruct (Hrescan _ eq_refl) as [E|(f & E & H)]; [by left|].
        right. exists f. by right.
  - replace (if scanner.IsDir info then None else None)
      with (@None (string → scanner.File)) by (by destruct (scanner.IsDir info)).
    destruct (scanner.IsRegular info); [|by left].
    destruct (Hrescan _ eq_refl) as [E|(f & E & H)]; [by left|].
    right. exists f. by right.
Qed.

(** X21: whatever the walker and the tree, a scan never turns the
    clock back and ticks it at most once for each file it returns: from a
    clock of 0 or more, the clock after Walk lies between the clock before
    and that value plus the number of files returned, and no file made
    during the scan has a version above the clock at the end: a file
    returned is held by the CurrentFiler, or is such a file marked as
    suppressed with its version raised by one, or is not suppressed and
    has a version above the clock at the start and at most the clock at
    the end. *)
Theorem Walk_clock_bounds FD FDir FNoPerm GOOS IsNormalString Match BlocksOf w fs c :
  0 ≤ c →
  let r := scanner.Walk FD FDir FNoPerm GOOS IsNormalString Match BlocksOf w fs c in
  c ≤ r.2 ≤ c + Z.of_nat (length r.1.1.1) ∧
  Forall (λ f,
            (∃ cf rn, scanner.CurrentFiler w = Some cf ∧
                      (f = cf rn ∨
                       scanner.Suppressed f = true ∧
                       scanner.Version f = (scanner.Version (cf rn) + 1) `mod` 2 ^ 64)) ∨
            (scanner.Suppressed f = false ∧ c < scanner.Version f ≤ r.2))
         r.1.1.1.
Proof.
  intros Hc. cbv zeta. unfold scanner.Walk.
  destruct (scanner.checkDir (scanner.at_first_check fs)) as [e|].
  { cbn [fst snd length]. split; [lia | constructor]. }
  cbv zeta.
  set (ignore := scanner.filepathWalk (scanner.loadIgnoreFiles w) _ ∅).
  pose (ok := λ (hi : Z) (f : scanner.File),
                (∃ cf rn, scanner.CurrentFiler w = Some cf ∧
                          (f = cf rn ∨
                           scanner.Suppressed f = true ∧
                           scanner.Version f
                           = (scanner.Version (cf rn) + 1) `mod` 2 ^ 64)) ∨
                (scanner.Suppressed f = false ∧ c < scanner.Version f ≤ hi)).
  pose (P := λ st : list scanner.File * lamport.Clock,
               c ≤ st.2 ≤ c + Z.of_nat (length st.1) ∧ Forall (ok st.2) st.1).
  assert (Hmono : ∀ hi hi' l, hi ≤ hi' → Forall (ok hi) l → Forall (ok hi') l).
  { intros hi hi' l Hle Hl. eapply list.Forall_impl; [exact Hl|].
    intros f [H|[H1 H2]]; [by left|]. right. split; [done | lia]. }
  assert (Hfn : ∀ comps nd err s, P s →
            P (scanner.walkAndHashFiles FD FDir FNoPerm GOOS IsNormalString Match
                 BlocksOf w ignore comps nd err s).1).
  { intros comps nd err [res c1] [H1 H2]. cbn [fst snd] in H1, H2.
    destruct (walkAndHashFiles_steps FD FDir FNoPerm GOOS IsNormalString Match BlocksOf
                w ignore comps nd err res c1)
      as [->|(f & [(-> & cf & HCF & Hf)|(-> & Hv & Hn & Hs)])]; [done| |].
    - unfold P. cbn [fst snd]. rewrite length_app. cbn [length]. split; [lia|].
      apply Forall_app. split; [done|]. constructor; [|done].
      left. exists cf, (scanner.rel comps). split; [done|].
      destruct Hf as [->| ->]; [by left | by right].
    - unfold P. cbn [fst snd]. rewrite length_app. cbn [length].
      replace (Z.max c1 0) with c1 in * by lia. split; [lia|].
      apply Forall_app. split; [apply (Hmono c1); [lia | done]|].
      constructor; [|done]. right. split; [done | lia]. }
  assert (Hinit : P ([], c)).
  { unfold P. cbn [fst snd length]. split; [lia | constructor]. }
  pose proof (filepathWalk_keeps _ P Hfn (scanner.at_hash_pass fs) ([], c) Hinit) as H.
  destruct (scanner.filepathWalk _ (scanner.at_hash_pass fs) _) as [files0 c0].
  exact H.
Qed.

Lemma Walk_clock_bounds_witness :
  0 ≤ 4 ∧
  let r := scanner.Walk FlagDeleted12 (Z.shiftl 1 14) (Z.shiftl 1 15) scanner.linux
             always_normal literal_match one_block rescanning (steady versioned) 4 in
  4 ≤ r.2 ≤ 4 + Z.of_nat (length r.1.1.1) ∧
  Forall (λ f,
            (∃ cf rn, scanner.CurrentFiler rescanning = Some cf ∧
                      (f = cf rn ∨
                       scanner.Suppressed f = true ∧
                       scanner.Version f = (scanner.Version (cf rn) + 1) `mod` 2 ^ 64)) ∨
            (scanner.Suppressed f = false ∧ 4 < scanner.Version f ≤ r.2))
         r.1.1.1.
Proof.
  assert (H : 0 ≤ 4) by lia.
  split; [exact H|].
  exact (Walk_clock_bounds FlagDeleted12 (Z.shiftl 1 14) (Z.shiftl 1 15) scanner.linux
           always_normal literal_match one_block rescanning (steady versioned) 4 H).
Defined.
